(** * Fluorescence nuclei segmentation notebook: a shallow embedding

    The notebook [Fluo_2D_nuclei_segmentation.ipynb] is a sequence of cells
    over numpy arrays and pandas tables.  This development embeds the helper
    functions of its "Functions" cell ([contr_limit], [merge_touching_labels],
    [remove_small_islands], [assign_labels]) and the bookkeeping cells
    (stain registry, calibration setup, quantification, report) and proves
    the properties stated for them.

    Conventions.
    - A 2-D integer array is a list of rows, [list (list Z)]; a pixel is a
      pair (row, column) of naturals; [px M p] reads one pixel.
    - Python dictionaries keep insertion order, so those whose order is
      observable are association lists; the union-find [parent] dictionary
      is a [gmap Z Z].
    - A Python exception is the [None] of an option type.
    - Library calls (numpy, scipy, scikit-image, pandas) are modelled by
      their documented behaviour, each under a comment naming the call. *)

From stdpp Require Import gmap strings list fin_maps relations sorting.
From Stdlib Require Import QArith Qround.

Local Open Scope Z_scope.

(** A decidable condition on a concrete input, settled by running its
    decision procedure. *)
Ltac by_computation := apply (bool_decide_unpack _); by vm_compute.

(** * Part I: the embedding *)

(** ** Arrays *)

Abbreviation matrix := (list (list Z)).

Definition pixel : Type := nat * nat.

(** [M[i, j]], [None] outside the array. *)
Definition px {A} (M : list (list A)) (p : pixel) : option A :=
  M !! p.1 ≫= λ row, row !! p.2.

(** A numpy 2-D array has rows of one length. *)
Definition rect (M : matrix) : Prop :=
  Forall (λ r, length r = length (hd [] M)) M.

(** Coordinates of the array in row-major (C) order, the order in which
    numpy scans, masks and ravels. *)
Fixpoint row_pixels {A} (i j : nat) (row : list A) : list pixel :=
  match row with
  | [] => []
  | _ :: row' => (i, j) :: row_pixels i (S j) row'
  end.

Fixpoint pixels_from {A} (i : nat) (M : list (list A)) : list pixel :=
  match M with
  | [] => []
  | row :: M' => row_pixels i 0 row ++ pixels_from (S i) M'
  end.

Definition pixels {A} (M : list (list A)) : list pixel := pixels_from 0 M.

(** [M.shape], kept as the list of row lengths. *)
Definition shape {A} (M : list (list A)) : list nat := map length M.

(** [M.ravel()] *)
Definition ravel (M : matrix) : list Z := concat M.

(** [np.unique]: the sorted distinct values. *)
Fixpoint insert_sorted (x : Z) (l : list Z) : list Z :=
  match l with
  | [] => [x]
  | y :: l' =>
      if x <? y then x :: l
      else if x =? y then l
      else y :: insert_sorted x l'
  end.

Definition np_unique (l : list Z) : list Z := foldr insert_sorted [] l.

(** [M.max()]; numpy raises ValueError on a zero-size array. *)
Definition matrix_max (M : matrix) : option Z :=
  match ravel M with
  | [] => None
  | x :: l => Some (foldr Z.max x l)
  end.

(** [np.zeros_like(M)] *)
Definition zeros_like (M : matrix) : matrix := map (map (λ _, 0)) M.

(** [M[mask] = v] where [mask] is a boolean array of the shape of [M], here
    given pointwise as a test on the pixel of a second array [K] of the same
    shape: [M[test(K)] = v]. *)
Definition mask_assign (test : Z → bool) (K : matrix) (v : Z) (M : matrix)
  : matrix :=
  zip_with (zip_with (λ k m, if test k then v else m)) K M.

(** [np.where(M == n)], as the list of coordinates in row-major order. *)
Definition where_eq (M : matrix) (n : Z) : list pixel :=
  filter (λ p, px M p = Some n) (pixels M).

(** An insertion-ordered Python dict: assigning an existing key replaces
    its value in place, a new key goes to the end. *)
Fixpoint dict_set {K V} `{EqDecision K} (k : K) (v : V) (d : list (K * V))
  : list (K * V) :=
  match d with
  | [] => [(k, v)]
  | (k', v') :: d' =>
      if decide (k = k') then (k, v) :: d' else (k', v') :: dict_set k v d'
  end.

Fixpoint dict_get {K V} `{EqDecision K} (k : K) (d : list (K * V)) : option V :=
  match d with
  | [] => None
  | (k', v) :: d' => if decide (k = k') then Some v else dict_get k d'
  end.

(** [list.index(x)] *)
Fixpoint index_of (x : Z) (l : list Z) : option nat :=
  match l with
  | [] => None
  | y :: l' => if decide (x = y) then Some O else S <$> index_of x l'
  end.

(** ** Contrast limits *)

(** [np.clip(v, lo, hi)] *)
Definition np_clip (v lo hi : Q) : Q :=
  if Qle_bool v lo then lo else if Qle_bool hi v then hi else v.

(** [.astype(int)] on a finite float: truncation toward zero. *)
Definition astype_int (q : Q) : Z := Z.quot (Qnum q) (Zpos (Qden q)).

(** [contr_limit(im_in, c_min, c_max)].  Floating-point numbers are taken as
    the rationals they denote (no rounding, no NaN, no infinity); the
    division raises ZeroDivisionError on a zero divisor. *)
Definition contr_limit (im_in : list (list Q)) (c_min c_max : Q)
  : option matrix :=
  if Qeq_bool (c_max - c_min) 0 then None
  else
    let alpha := (255 / (c_max - c_min))%Q in
    let beta := (- c_min * alpha)%Q in
    Some (map (map (λ x, astype_int (np_clip (alpha * x + beta) 0 255))) im_in).

(** ** Stain registry cell *)

(** An element of a [stain_dict] value: a string or anything else. *)
Inductive item :=
  | IStr (s : string)
  | IOther (z : Z).

(** [str.upper()] on ASCII letters. *)
Definition upper_ascii (c : Ascii.ascii) : Ascii.ascii :=
  let n := Ascii.nat_of_ascii c in
  if ((97 <=? n)%nat && (n <=? 122)%nat)%bool then Ascii.ascii_of_nat (n - 32) else c.

Fixpoint upper (s : string) : string :=
  match s with
  | EmptyString => EmptyString
  | String c s' => String (upper_ascii c) (upper s')
  end.

(** [item.upper() if isinstance(item, str) else item] *)
Definition item_upper (it : item) : item :=
  match it with
  | IStr s => IStr (upper s)
  | IOther z => IOther z
  end.

(** The stain table: index [Condition], columns [Marker] and [Color]. *)
Abbreviation stain_table := (list (string * (item * item))).

(** [{k.upper(): [item.upper() ... for item in v] for k, v in stain_dict.items()}] *)
Definition upper_dict (stain_dict : stain_table) : stain_table :=
  fold_left (λ acc kv, dict_set (upper kv.1) (item_upper kv.2.1, item_upper kv.2.2) acc)
            stain_dict [].

(** State of the notebook that the cell touches: the table and what has
    been printed. *)
Record registry_state := {
  stain_df : stain_table;
  stdout : list string;
}.

(** [if 'NUCLEI' not in stain_df.index: print('No nuclei condition!')] *)
Definition check_nuclei (st : registry_state) : registry_state :=
  if bool_decide ("NUCLEI" ∈ (stain_df st).*1) then st
  else {| stain_df := stain_df st;
          stdout := stdout st ++ ["No nuclei condition!"] |}.

(** The whole cell: build the table from the dictionary, then check. *)
Definition stain_registry_cell (stain_dict : stain_table) (out : list string)
  : registry_state :=
  check_nuclei {| stain_df := upper_dict stain_dict; stdout := out |}.

(** ** Acquisition setup cell *)

(** Index of the calibration tables: (Condition, Marker, Color). *)
Definition key : Type := string * string * string.

Record calib := {
  Cont_min : Q;
  Cont_max : Q;
  Gamma : Q;
}.

Abbreviation calib_table := (list (key * calib)).

(** What the user leaves in the napari viewer when it is closed, by layer
    name. *)
Record viewer_values := {
  contrast_limits : string → Q * Q;
  gamma_val : string → Q;
}.

(** [f"{idx[0]} ({idx[1]})"] *)
Definition layer_name (idx : key) : string :=
  (idx.1.1 ++ " (" ++ idx.1.2 ++ ")")%string.

(** [int(x)] *)
Definition py_int (q : Q) : Q := inject_Z (astype_int q).

(** Stable insertion sort, for [sort_index] and [sort_values]. *)
Fixpoint insert_by {A} (le : A → A → bool) (x : A) (l : list A) : list A :=
  match l with
  | [] => [x]
  | y :: l' => if le x y then x :: l else y :: insert_by le x l'
  end.

Definition sort_by {A} (le : A → A → bool) (l : list A) : list A :=
  foldr (insert_by le) [] l.

Definition key_leb (a b : key) : bool :=
  match String.compare a.1.1 b.1.1 with
  | Lt => true
  | Gt => false
  | Eq =>
      match String.compare a.1.2 b.1.2 with
      | Lt => true
      | Gt => false
      | Eq => String.leb a.2 b.2
      end
  end.

(** The first [if]: copy the persisted entries found, drop [use_setup] on a
    missing one.  [file] is the parsed CSV, [None] when
    [os.path.exists(setup_path)] is false. *)
Definition load_setup (use_setup : bool) (file : option calib_table)
    (complete : calib_table) : calib_table * bool :=
  match file with
  | Some stain_setup_df =>
      if use_setup then
        fold_left
          (λ acc idx,
             match dict_get idx stain_setup_df with
             | Some v => (dict_set idx v acc.1, acc.2)
             | None => (acc.1, false)
             end)
          complete.*1 (complete, use_setup)
      else (complete, use_setup)
  | None => (complete, use_setup)
  end.

Record setup_result := {
  stain_complete_df : calib_table;
  viewer_ran : bool;
  setup_csv : option calib_table;
}.

(** The second [if]: interactive calibration and the rewrite of the CSV. *)
Definition recalibrate (file : option calib_table) (gui : viewer_values)
    (complete : calib_table) : setup_result :=
  let sorted := sort_by (λ a b, key_leb a.1 b.1) complete in
  let complete' :=
    map (λ kv, let name := layer_name kv.1 in
               (kv.1, {| Cont_min := py_int (contrast_limits gui name).1;
                         Cont_max := py_int (contrast_limits gui name).2;
                         Gamma := gamma_val gui name |})) sorted in
  let stain_setup_df :=
    match file with
    | Some old => fold_left (λ acc kv, dict_set kv.1 kv.2 acc) complete' old
    | None => complete'
    end in
  {| stain_complete_df := complete';
     viewer_ran := true;
     setup_csv :=
       Some (sort_by (λ a b, String.leb a.1.1.1 b.1.1.1) stain_setup_df) |}.

(** The cell as written: [use_setup = True], every entry initialised to
    [[0, 255, 1]]. *)
Definition setup_cell (stain : list key) (file : option calib_table)
    (gui : viewer_values) : setup_result :=
  let complete0 :=
    map (λ idx, (idx, {| Cont_min := 0; Cont_max := 255; Gamma := 1 |})) stain in
  let '(complete, use_setup) := load_setup true file complete0 in
  if (negb use_setup || negb (bool_decide (is_Some file)))%bool
  then recalibrate file gui complete
  else {| stain_complete_df := complete; viewer_ran := false; setup_csv := file |}.

(** ** Quantification cell *)

(** One row of [labels_df]. *)
Record label_entry := {
  Condition : string;
  Color : string;
  Number : Z;
  Shared_labels : list Z;
  Mean_positions : list (Q * Q);
  Nuclei_size : list Q;
  Cell_size : list Q;
}.

Definition q_of_nat (n : nat) : Q := inject_Z (Z.of_nat n).

(** [np.mean]; on an empty array numpy gives nan, here the quotient by
    zero of [Q]. *)
Definition np_mean (l : list Q) : Q :=
  (foldr Qplus 0 l / q_of_nat (length l))%Q.

(** Position and area of nucleus [n]:
    [y, x = np.where(im_segmented == n)],
    [(np.mean(x * r_X), np.mean(y * r_Y))] and [x.size * r_X * r_Y]. *)
Definition nucleus_position (r_X r_Y : Q) (im_segmented : matrix) (n : Z) : Q * Q :=
  let yx := where_eq im_segmented n in
  (np_mean (map (λ p, q_of_nat p.2 * r_X)%Q yx),
   np_mean (map (λ p, q_of_nat p.1 * r_Y)%Q yx)).

Definition nucleus_size (r_X r_Y : Q) (im_segmented : matrix) (n : Z) : Q :=
  (q_of_nat (length (where_eq im_segmented n)) * r_X * r_Y)%Q.

(** The entry of the nuclei channel. *)
Definition nuclei_entry (r_X r_Y : Q) (cond color : string) (im_segmented : matrix)
  : option label_entry :=
  m ← matrix_max im_segmented;
  let ns := seqZ 1 m in
  Some {| Condition := cond; Color := color; Number := m;
          Shared_labels := [];
          Mean_positions := map (nucleus_position r_X r_Y im_segmented) ns;
          Nuclei_size := map (nucleus_size r_X r_Y im_segmented) ns;
          Cell_size := [] |}.

(** The entry of a marker channel [i], from [im_assigned[:, :, i]]:
    the labels are [np.unique(im_assigned[:, :, i])[1:]], the count is their
    number, and the shared labels are
    [tuple(np.unique(im_assigned[1:, :, i])[1:])]. *)
Definition marker_labels (assigned : matrix) : list Z :=
  tail (np_unique (ravel assigned)).

Definition marker_count (assigned : matrix) : Z :=
  Z.of_nat (length (tail (np_unique (ravel assigned)))).

Definition marker_shared (assigned : matrix) : list Z :=
  tail (np_unique (ravel (drop 1 assigned))).

Definition marker_entry (r_X r_Y : Q) (cond color : string)
    (im_segmented assigned : matrix) : label_entry :=
  let ns := marker_labels assigned in
  {| Condition := cond; Color := color;
     Number := marker_count assigned;
     Shared_labels := marker_shared assigned;
     Mean_positions := map (nucleus_position r_X r_Y im_segmented) ns;
     Nuclei_size := map (nucleus_size r_X r_Y im_segmented) ns;
     Cell_size :=
       map (λ n, q_of_nat (length (where_eq assigned n)) * r_X * r_Y)%Q ns |}.

(** ** Report cell *)

(** A spreadsheet cell. *)
Inductive xcell :=
  | XNum (q : Q)
  | XStr (s : string).

(** [labels_df] is the list of (marker, entry) in the order of insertion;
    row 0 is the nuclei channel. *)
Abbreviation labels_table := (list (string * label_entry)).

(** The columns a marker channel adds to the row of nucleus [k]. *)
Definition marker_cells (labels_df : labels_table) (k : Z)
    (me : string * label_entry) : option (list xcell) :=
  if bool_decide (Condition me.2 ≠ "NUCLEI") then
    let shared := Shared_labels me.2 in
    if bool_decide (k ∈ shared) then
      idx ← index_of k shared;
      e ← dict_get me.1 labels_df;
      c ← Cell_size e !! idx;
      Some [XStr me.1; XNum c]
    else Some [XStr ""; XStr ""]
  else Some [].

(** The body of [for k in range(1, int(labels_df['Number'][0]))]. *)
Definition nucleus_row (labels_df : labels_table) (k : Z) : option (Z * list xcell) :=
  e0 ← snd <$> labels_df !! O;
  pos ← Mean_positions e0 !! Z.to_nat (k - 1);
  sz ← Nuclei_size e0 !! Z.to_nat (k - 1);
  rest ← mapM (marker_cells labels_df k) labels_df;
  Some (k, [XNum pos.1; XNum pos.2; XNum sz] ++ concat rest).

(** [xlsx_dict], the rows of the sheet 'NUCLEI'; [range(1, n)] is
    1, ..., n - 1. *)
Definition xlsx_dict (labels_df : labels_table) : option (list (Z * list xcell)) :=
  e0 ← snd <$> labels_df !! O;
  mapM (nucleus_row labels_df) (seqZ 1 (Number e0 - 1)).

(** ** Connected components: [scipy.ndimage.label] *)

Definition dist (a b : nat) : nat := (a - b) + (b - a).

(** Adjacency under the structuring element: the default cross
    (4-connectivity) or [np.ones((3, 3))] (8-connectivity, [full]). *)
Definition adjacent (full : bool) (p q : pixel) : Prop :=
  if full then Nat.max (dist p.1 q.1) (dist p.2 q.2) = 1%nat
  else (dist p.1 q.1 + dist p.2 q.2 = 1)%nat.

Global Instance adjacent_dec full p q : Decision (adjacent full p q).
Proof. unfold adjacent. destruct full; apply _. Defined.

(** Foreground: the nonzero pixels. *)
Definition is_fg (A : matrix) (p : pixel) : Prop :=
  ∃ a, px A p = Some a ∧ a ≠ 0.

Global Instance is_fg_dec A p : Decision (is_fg A p).
Proof.
  unfold is_fg. destruct (px A p) as [a|].
  - destruct (decide (a = 0)) as [->|Hne].
    + right. intros (a & [= <-] & ?). done.
    + left. eauto.
  - right. intros (a & ? & _). done.
Defined.

(** Two pixels are in one component when a chain of adjacent foreground
    pixels leads from one to the other. *)
Definition fg_step (full : bool) (A : matrix) (p q : pixel) : Prop :=
  adjacent full p q ∧ is_fg A q.

Definition connected (full : bool) (A : matrix) : relation pixel :=
  rtc (fg_step full A).

Definition foreground (A : matrix) : list pixel := filter (is_fg A) (pixels A).

(** One round of flooding: the foreground pixels in or next to [S]. *)
Definition grow (full : bool) (fg S : list pixel) : list pixel :=
  filter (λ q, q ∈ S ∨ Exists (λ s, adjacent full s q) S) fg.

(** [k] rounds of flooding from the pixel [p]. *)
Definition flood (full : bool) (A : matrix) (p : pixel) (k : nat) : list pixel :=
  Nat.iter k (grow full (foreground A)) [p].

(** The component of a foreground pixel, in scan order: flooding from the
    pixel for as many rounds as there are foreground pixels. *)
Definition component (full : bool) (A : matrix) (p : pixel) : list pixel :=
  flood full A p (length (foreground A)).

(** The first pixel, in scan order, of each component. *)
Definition component_roots (full : bool) (A : matrix) : list pixel :=
  filter (λ p, head (component full A p) = Some p) (foreground A).

(** Model of [scipy.ndimage.label(A, structure)]: every nonzero pixel gets
    the number of its component, the components being numbered from 1 in
    the order of their first pixel; returns the labelled array and the
    number of components. *)
Definition label_of (full : bool) (A : matrix) (p : pixel) : Z :=
  match head (component full A p) ≫= λ r, list_find (r =.) (component_roots full A) with
  | Some (i, _) => Z.of_nat (S i)
  | None => 0
  end.

Definition label (full : bool) (A : matrix) : matrix * nat :=
  (imap (λ i row, imap (λ j a, if decide (a = 0) then 0 else label_of full A (i, j)) row) A,
   length (component_roots full A)).

(** ** [remove_small_islands] *)

(** [for i in range(1, num_features + 1)] with the body
    [component = (labeled_array == i)];
    [if component.sum() < area_threshold: binary_matrix[component] = 0].
    The mask [component] is the list of its true coordinates. *)
Definition remove_small_islands (binary_matrix : matrix) (area_threshold : Z)
  : matrix :=
  let '(labeled_array, num_features) := label false binary_matrix in
  fold_left
    (λ binary_matrix i,
       let component := where_eq labeled_array i in
       if Z.of_nat (length component) <? area_threshold
       then mask_assign (λ l, l =? i) labeled_array 0 binary_matrix
       else binary_matrix)
    (seqZ 1 (Z.of_nat num_features)) binary_matrix.

(** ** [assign_labels] *)

(** [B[mask & (B > 0)]]: the positive values of [B] under the mask, in
    row-major order. *)
Definition masked_positive (B : matrix) (mask : list pixel) : list Z :=
  filter (λ b, 0 < b) (omap (px B) mask).

(** One turn of the loop; the boolean index raises when [B] has not the
    shape of [A]. *)
Definition assign_step (A B labeled_A C : matrix) (i : Z) : option matrix :=
  if decide (shape A = shape B) then
    let mask := where_eq labeled_A i in
    let overlapping_labels := np_unique (masked_positive B mask) in
    Some (mask_assign (λ l, l =? i) labeled_A (default 0 (head overlapping_labels)) C)
  else None.

(** [assign_labels(A, B, connectivity=1)].  [C = np.zeros_like(A)] has the
    dtype of [A]; the notebook passes [int32] arrays for [A] and [B], so a
    label of [B] is stored in [C] as it is. *)
Definition assign_labels (A B : matrix) (connectivity : Z) : option matrix :=
  let '(labeled_A, num_features) := label (bool_decide (connectivity = 2)) A in
  fold_left (λ C i, C ≫= λ C, assign_step A B labeled_A C i)
            (seqZ 1 (Z.of_nat num_features)) (Some (zeros_like A)).

(** The reading of the specification: a component takes the first
    nonzero label of [B] met when its pixels are scanned in row-major
    order. *)
Definition first_label_in_scan_order (full : bool) (A B : matrix) (p : pixel) : Z :=
  default 0 (head (filter (λ b, b ≠ 0) (omap (px B) (component full A p)))).

Definition assigns_first_in_scan_order (A B : matrix) (connectivity : Z) : Prop :=
  ∀ C, assign_labels A B connectivity = Some C →
       ∀ p, is_fg A p →
            px C p = Some (first_label_in_scan_order (bool_decide (connectivity = 2)) A B p).

(** ** [skimage.segmentation.relabel_sequential] *)

(** Model of [relabel_sequential(label_field)] with the default
    [offset=1]: negative values are refused (ValueError); the sorted distinct
    values [in_vals] are sent to 1, 2, ... in order, 0 staying 0 when it
    occurs. *)
Definition relabel_out_vals (in_vals : list Z) : list Z :=
  match in_vals with
  | 0 :: rest => 0 :: seqZ 1 (Z.of_nat (length rest))
  | _ => seqZ 1 (Z.of_nat (length in_vals))
  end.

Definition map_array (in_vals out_vals : list Z) (v : Z) : Z :=
  default 0 (index_of v in_vals ≫= λ i, out_vals !! i).

Definition relabel_sequential (label_field : matrix) : option matrix :=
  match ravel label_field with
  | [] => None
  | _ =>
      if decide (Exists (λ v, v < 0) (ravel label_field)) then None
      else
        let in_vals := np_unique (ravel label_field) in
        Some (map (map (map_array in_vals (relabel_out_vals in_vals))) label_field)
  end.

(** ** [merge_touching_labels] *)

(** Assignment into an [np.int32] array. *)
Definition to_int32 (x : Z) : Z := (x + 2 ^ 31) `mod` 2 ^ 32 - 2 ^ 31.

(** [np.pad(label_matrix, 1, mode='constant', constant_values=0)] *)
Definition np_pad (label_matrix : matrix) : matrix :=
  let border := replicate (length (hd [] label_matrix) + 2) 0 in
  border :: map (λ row, 0 :: row ++ [0]) label_matrix ++ [border].

(** [padded[i-1:i+2, j-1:j+2].ravel()] *)
Definition neighborhood (padded : matrix) (i j : nat) : list Z :=
  concat (map (λ row, take 3 (drop (j - 1) row)) (take 3 (drop (i - 1) padded))).

(** [touching = defaultdict(set)]: an insertion-ordered dictionary whose
    values are sets, each kept as the list of its elements. *)
Abbreviation touching_dict := (list (Z * list Z)).

Definition set_add (x : Z) (s : list Z) : list Z :=
  if decide (x ∈ s) then s else s ++ [x].

(** [touching[center].add(neighbor)] *)
Definition touching_add (center neighbor : Z) (touching : touching_dict)
  : touching_dict :=
  dict_set center (set_add neighbor (default [] (dict_get center touching))) touching.

(** The body of the two nested [for] loops at the position (i, j) of the
    padded array. *)
Definition scan_pixel (padded : matrix) (touching : touching_dict) (ij : pixel)
  : touching_dict :=
  match px padded ij with
  | Some center =>
      if decide (center = 0) then touching
      else
        fold_left
          (λ touching neighbor,
             if decide (neighbor ≠ center ∧ neighbor ≠ 0)
             then touching_add center neighbor touching
             else touching)
          (neighborhood padded ij.1 ij.2) touching
  | None => touching
  end.

(** [for i in range(1, padded.shape[0] - 1): for j in range(1, padded.shape[1] - 1)] *)
Definition scan_range (padded : matrix) : list pixel :=
  i ← seq 1 (length padded - 2);
  j ← seq 1 (length (hd [] padded) - 2);
  [(i, j)].

Definition scan_touching (padded : matrix) : touching_dict :=
  fold_left (scan_pixel padded) (scan_range padded) [].

(** [find(u)] with path halving.  The [while] loop is run with fuel; [None]
    is a KeyError or the end of the fuel. *)
Fixpoint find_loop (fuel : nat) (parent : gmap Z Z) (u : Z) : option (Z * gmap Z Z) :=
  match fuel with
  | O => None
  | S fuel' =>
      pu ← parent !! u;
      if decide (pu ≠ u) then
        ppu ← parent !! pu;
        find_loop fuel' (<[u := ppu]> parent) ppu
      else Some (u, parent)
  end.

(** A chain of parents in a forest over [len(parent)] labels has at most
    that many links: the fuel given to the loop. *)
Definition find (parent : gmap Z Z) (u : Z) : option (Z * gmap Z Z) :=
  find_loop (size parent) parent u.

(** [union(u, v)] *)
Definition union (parent : gmap Z Z) (u v : Z) : option (gmap Z Z) :=
  '(pu, parent) ← find parent u;
  '(pv, parent) ← find parent v;
  Some (if decide (pu ≠ pv) then <[pu := pv]> parent else parent).

(** The representative of a label: the root that its chain of parents
    reaches. *)
Inductive rep (parent : gmap Z Z) : Z → Z → Prop :=
  | rep_root u : parent !! u = Some u → rep parent u u
  | rep_step u v r : parent !! u = Some v → v ≠ u → rep parent v r → rep parent u r.

(** [parent] is a forest: parents are keys, and a height [h] grows along
    every link. *)
Definition forest (parent : gmap Z Z) (h : Z → nat) : Prop :=
  ∀ u v, parent !! u = Some v → is_Some (parent !! v) ∧ (v ≠ u → (h u < h v)%nat).

(** How many keys stand higher than [u]: a bound on the links above [u]. *)
Definition above (h : Z → nat) (keys : gset Z) (u : Z) : nat :=
  size (filter (λ v, (h u < h v)%nat) keys).

(** Two labels are in one class when they have one representative. *)
Definition same_class (parent : gmap Z Z) (x y : Z) : Prop :=
  ∃ r, rep parent x r ∧ rep parent y r.

(** [all_labels = set(np.unique(label_matrix)) - {0}], as the sorted list
    of its elements. *)
Definition nonzero_labels (label_matrix : matrix) : list Z :=
  filter (λ l, l ≠ 0) (np_unique (ravel label_matrix)).

(** The value [merged] receives where [label_matrix] is [a], after all the
    assignments [merged[label_matrix == label] = root] of the loop over
    [label_map], on top of the zeros of [np.zeros_like]. *)
Definition written_label (label_map : list (Z * Z)) (a : Z) : Z :=
  fold_left (λ acc lr, if a =? lr.1 then to_int32 lr.2 else acc) label_map 0.

(** The body of the loop over the touching pairs:
    [if u in parent and v in parent: union(u, v)]. *)
Definition union_step (parent : option (gmap Z Z)) (uv : Z * Z) : option (gmap Z Z) :=
  parent ← parent;
  if decide (is_Some (parent !! uv.1) ∧ is_Some (parent !! uv.2))
  then union parent uv.1 uv.2
  else Some parent.

(** [v in touching[u]] *)
Definition in_touching (touching : touching_dict) (u v : Z) : Prop :=
  ∃ ns, dict_get u touching = Some ns ∧ v ∈ ns.

(** [for label, root in label_map.items(): merged[label_matrix == label] = root] *)
Definition write_merged (label_matrix : matrix) (label_map : list (Z * Z)) : matrix :=
  fold_left
    (λ merged lr, mask_assign (λ l, l =? lr.1) label_matrix (to_int32 lr.2) merged)
    label_map (zeros_like label_matrix).

(** The body of the dict comprehension that builds [label_map]. *)
Definition label_map_step (acc : option (list (Z * Z) * gmap Z Z)) (label : Z)
  : option (list (Z * Z) * gmap Z Z) :=
  '(label_map, parent) ← acc;
  '(root, parent) ← find parent label;
  Some (label_map ++ [(label, root)], parent).

Section merge.
(** The order in which Python iterates over a set is not specified.  It
    is a parameter: [set_iter] for the sets of neighbours, given their
    elements in the order of insertion, and [labels_iter] for [all_labels],
    given its elements in increasing order. *)
Variables set_iter labels_iter : list Z → list Z.

(** [for u, neighbors in touching.items(): for v in neighbors], as the
    list of the pairs (u, v) in the order of the iteration. *)
Definition touching_pairs (touching : touching_dict) : list (Z * Z) :=
  un ← touching; v ← set_iter un.2; [(un.1, v)].

Definition union_touching (touching : touching_dict) (parent : gmap Z Z)
  : option (gmap Z Z) :=
  fold_left union_step (touching_pairs touching) (Some parent).

(** [label_map = {label: find(label) for label in all_labels}] *)
Definition build_label_map (all_labels : list Z) (parent : gmap Z Z)
  : option (list (Z * Z) * gmap Z Z) :=
  fold_left label_map_step (labels_iter all_labels) (Some ([], parent)).

Definition merge_touching_labels (label_matrix : matrix) : option matrix :=
  m ← matrix_max label_matrix;
  if decide (m = 0) then Some label_matrix
  else
    let padded := np_pad label_matrix in
    let touching := scan_touching padded in
    let all_labels := nonzero_labels label_matrix in
    let parent : gmap Z Z := list_to_map (map (λ l, (l, l)) (labels_iter all_labels)) in
    parent ← union_touching touching parent;
    '(label_map, _) ← build_label_map all_labels parent;
    relabel_sequential (write_merged label_matrix label_map).
End merge.

(** ** Specification of the merge *)

(** Two labels touch when they are different, nonzero, and carried by two
    pixels that are 8-connected neighbours. *)
Definition touches (L : matrix) (a b : Z) : Prop :=
  a ≠ 0 ∧ b ≠ 0 ∧ a ≠ b
  ∧ ∃ p q, adjacent true p q ∧ px L p = Some a ∧ px L q = Some b.

(** Labels are merged along chains of touching labels. *)
Definition merged_with (L : matrix) : relation Z := rtsc (touches L).

(** A label matrix as the notebook has them: a nonempty [int32] array of
    nonnegative labels. *)
Definition label_matrix_ok (L : matrix) : Prop :=
  rect L ∧ ravel L ≠ [] ∧ Forall (λ v, 0 ≤ v < 2 ^ 31) (ravel L).

Global Instance label_matrix_ok_dec L : Decision (label_matrix_ok L).
Proof. unfold label_matrix_ok, rect. apply _. Defined.

(** [a] is one of the labels of [L]. *)
Definition is_label (L : matrix) (a : Z) : Prop :=
  a ≠ 0 ∧ ∃ p, px L p = Some a.

(** Number of foreground pixels. *)
Definition count_nonzero (L : matrix) : nat := length (filter (λ v, v ≠ 0) (ravel L)).

(** ** [truncate_cell] *)

(** The first [n] characters, as many as there are. *)
Fixpoint str_take (n : nat) (s : string) : string :=
  match n, s with
  | S n', String c s' => String c (str_take n' s')
  | _, _ => EmptyString
  end.

(** [s[:k]]: a negative [k] counts from the end. *)
Definition py_slice_to (s : string) (k : Z) : string :=
  if 0 <=? k then str_take (Z.to_nat k) s
  else str_take (Z.to_nat (Z.of_nat (String.length s) + k)) s.

(** [truncate_cell(val, width=15)], on [val_str = str(val)]. *)
Definition truncate_cell (val_str : string) (width : Z) : string :=
  if Z.of_nat (String.length val_str) <=? width then val_str
  else (py_slice_to val_str (width - 3) ++ "...")%string.


(** ** [assign_labels]: the value of one component *)

(** [overlapping_labels[0] if len(overlapping_labels) > 0 else 0] for the
    component of [A] through the pixel [p]. *)
Definition overlap_label (full : bool) (A B : matrix) (p : pixel) : Z :=
  default 0 (head (np_unique
    (masked_positive B (where_eq (label full A).1 (label_of full A p))))).

(** ** Acquisition setup cell: the entry read from the viewer *)


(** ** Report cell: the header of the sheet 'NUCLEI' *)

(** [columns]: three fixed headers, then
    [f"{marker} ({labels_df['Condition'][i]})"] and
    [f"{labels_df['Condition'][i]} Cell size [um2]"] for every row of
    [labels_df] whose condition is not 'NUCLEI'. *)
Definition xlsx_columns (labels_df : labels_table) : list string :=
  ["X position [um]"; "Y position [um]"; "Nuclei size [um2]"]
  ++ concat (map (λ me : string * label_entry,
                    if bool_decide (Condition me.2 ≠ "NUCLEI")
                    then [(me.1 ++ " (" ++ Condition me.2 ++ ")")%string;
                          (Condition me.2 ++ " Cell size [um2]")%string]
                    else []) labels_df).

(** The rows that the quantification cell puts into [labels_dict]: the
    entry of the nuclei channel or the entry of a marker channel. *)
Inductive quantified : label_entry → Prop :=
  | quantified_nuclei r_X r_Y cond color im_segmented e :
      nuclei_entry r_X r_Y cond color im_segmented = Some e → quantified e
  | quantified_marker r_X r_Y cond color im_segmented assigned :
      quantified (marker_entry r_X r_Y cond color im_segmented assigned).

(** ** Acquisition setup cell: the last lines *)

(** [stain_complete_df.reset_index().set_index('Condition').loc[stain_df.index]]:
    the rows of the table in the order of the conditions of the stain
    table, each with its marker, colour and settings; [.loc] raises KeyError
    on a condition that is missing. *)
Definition restore_order (stain : list key) (complete : calib_table)
  : option (list (string * (string * string * calib))) :=
  mapM (λ idx : key,
          row ← head (filter (λ kv : key * calib, kv.1.1.1 = idx.1.1) complete);
          Some (idx.1.1, (row.1.1.2, row.1.2, row.2))) stain.
(** ** Concrete inputs

    Small inputs on which the definitions above are run below. *)

Definition demo_gui : viewer_values :=
  {| contrast_limits := λ _, ((21 # 2)%Q, (200 # 1)%Q); gamma_val := λ _, (3 # 2)%Q |}.

Definition demo_stain : list key :=
  [("MACRO", "F4_80", "RED"); ("NUCLEI", "DAPI", "BLUE")].

Definition demo_setup : calib_table :=
  [(("MACRO", "F4_80", "RED"), {| Cont_min := 5; Cont_max := 100; Gamma := 1 |})].

Definition demo_segmented : matrix := [[1; 1; 0; 2]; [1; 0; 0; 2]].

Definition demo_labels_df : option labels_table :=
  e ← nuclei_entry 1 1 "NUCLEI" "BLUE" demo_segmented;
  Some [("DAPI", e);
        ("CD206", marker_entry 1 1 "M2" "GREEN" demo_segmented [[0; 0; 0; 2]; [0; 0; 0; 2]])].

Definition islands_demo : matrix := [[1; 1; 0; 7]; [0; 1; 0; 0]; [5; 0; 0; 0]].

Definition assign_demo_A : matrix := [[1; 1]].
Definition assign_demo_B : matrix := [[2; 1]].

Definition merge_demo : matrix :=
  [[5; 5; 0; 9; 0];
   [0; 3; 0; 0; 0];
   [0; 0; 0; 7; 7];
   [2; 0; 0; 0; 8]].

(** * Part II: properties *)

(** ** Arrays *)

Lemma px_Some {A} (M : list (list A)) (p : pixel) (a : A) :
  px M p = Some a ↔ ∃ row, M !! p.1 = Some row ∧ row !! p.2 = Some a.
Proof.
  unfold px. destruct (M !! p.1) as [row|]; simpl.
  - split; [eauto|]. by intros (? & [= <-] & ?).
  - split; [done|]. by intros (? & ? & _).
Qed.

Lemma px_map {A B} (f : A → B) (M : list (list A)) (p : pixel) :
  px (map (map f) M) p = f <$> px M p.
Proof.
  unfold px. rewrite list_lookup_fmap.
  destruct (M !! p.1) as [row|]; simpl; [|done].
  by rewrite list_lookup_fmap.
Qed.

Lemma px_imap {A B} (f : pixel → A → B) (M : list (list A)) (p : pixel) :
  px (imap (λ i row, imap (λ j a, f (i, j) a) row) M) p = f p <$> px M p.
Proof.
  unfold px. rewrite list_lookup_imap.
  destruct (M !! p.1) as [row|]; simpl; [|done].
  rewrite list_lookup_imap. by destruct p.
Qed.

Lemma px_mask_assign (test : Z → bool) (K : matrix) (v : Z) (M : matrix) (p : pixel) :
  px (mask_assign test K v M) p =
  k ← px K p; m ← px M p; Some (if test k then v else m).
Proof.
  unfold px, mask_assign. rewrite lookup_zip_with.
  destruct (K !! p.1) as [krow|]; simpl; [|done].
  destruct (M !! p.1) as [mrow|]; simpl.
  - rewrite lookup_zip_with. done.
  - by destruct (krow !! p.2).
Qed.

Lemma elem_of_row_pixels {A} (i j : nat) (row : list A) (p : pixel) :
  p ∈ row_pixels i j row ↔ p.1 = i ∧ (j ≤ p.2 < j + length row)%nat.
Proof.
  revert j. induction row as [|a row IH]; intros j; simpl.
  - rewrite elem_of_nil. lia.
  - rewrite elem_of_cons, IH. destruct p as [a' b']; simpl.
    split.
    + intros [[= -> ->]|[-> ?]]; lia.
    + intros [-> ?]. destruct (decide (b' = j)) as [->|]; [by left|right; lia].
Qed.

Lemma elem_of_pixels_from {A} (i : nat) (M : list (list A)) (p : pixel) :
  p ∈ pixels_from i M ↔ (i ≤ p.1)%nat ∧ is_Some (px M ((p.1 - i)%nat, p.2)).
Proof.
  destruct p as [a b]. cbn [fst snd].
  revert i. induction M as [|row M IH]; intros i; cbn [pixels_from].
  - rewrite elem_of_nil. split; [done|]. intros [_ [? H]]. done.
  - rewrite elem_of_app, elem_of_row_pixels, IH. unfold px; cbn [fst snd].
    split.
    + intros [[-> Hj]|[Hi Hs]].
      * split; [lia|]. rewrite Nat.sub_diag. simpl.
        apply lookup_lt_is_Some. lia.
      * split; [lia|]. replace (a - i)%nat with (S (a - S i)) by lia. done.
    + intros [Hi Hs]. destruct (decide (a = i)) as [->|Hne].
      * left. split; [done|]. rewrite Nat.sub_diag in Hs. simpl in Hs.
        apply lookup_lt_is_Some in Hs. lia.
      * right. split; [lia|].
        replace (a - i)%nat with (S (a - S i)) in Hs by lia. done.
Qed.

Lemma elem_of_pixels {A} (M : list (list A)) (p : pixel) :
  p ∈ pixels M ↔ is_Some (px M p).
Proof.
  unfold pixels. rewrite elem_of_pixels_from.
  replace (p.1 - 0)%nat with p.1 by lia. destruct p; simpl.
  split; [by intros [_ ?]|]. intros ?. split; [lia|done].
Qed.

Lemma NoDup_row_pixels {A} (i j : nat) (row : list A) : NoDup (row_pixels i j row).
Proof.
  revert j. induction row as [|a row IH]; intros j; simpl; [constructor|].
  apply NoDup_cons. split; [|apply IH].
  rewrite elem_of_row_pixels. simpl. lia.
Qed.

Lemma NoDup_pixels_from {A} (i : nat) (M : list (list A)) : NoDup (pixels_from i M).
Proof.
  revert i. induction M as [|row M IH]; intros i; simpl; [constructor|].
  apply NoDup_app. split_and!; [apply NoDup_row_pixels| |apply IH].
  intros p. rewrite elem_of_row_pixels, elem_of_pixels_from. lia.
Qed.

Lemma NoDup_pixels {A} (M : list (list A)) : NoDup (pixels M).
Proof. apply NoDup_pixels_from. Qed.

Lemma row_pixels_length {A B} (i j : nat) (r : list A) (r' : list B) :
  length r = length r' → row_pixels i j r = row_pixels i j r'.
Proof.
  revert j r'. induction r as [|a r IH]; intros j [|b r']; simpl; try done.
  intros [= Hl]. f_equal. by apply IH.
Qed.

Lemma pixels_shape {A B} (M : list (list A)) (M' : list (list B)) :
  shape M = shape M' → pixels M = pixels M'.
Proof.
  unfold pixels. generalize O.
  revert M'. induction M as [|r M IH]; intros [|r' M'] i; simpl; try done.
  intros [= Hl Hs]. f_equal; [by apply row_pixels_length|by apply IH].
Qed.

Lemma shape_map {A B} (f : A → B) (M : list (list A)) : shape (map (map f) M) = shape M.
Proof.
  unfold shape. rewrite map_map. apply map_ext. intros r. apply length_map.
Qed.

Lemma shape_imap {A B} (f : nat → nat → A → B) (M : list (list A)) :
  shape (imap (λ i row, imap (f i) row) M) = shape M.
Proof.
  unfold shape. revert f. induction M as [|r M IH]; intros f; simpl; [done|].
  rewrite length_imap. f_equal. apply (IH (λ i, f (S i))).
Qed.

Lemma shape_mask_assign (test : Z → bool) (K : matrix) (v : Z) (M : matrix) :
  shape K = shape M → shape (mask_assign test K v M) = shape M.
Proof.
  unfold shape, mask_assign.
  revert M. induction K as [|k K IH]; intros [|m M]; simpl; try done.
  intros [= Hl Hs]. rewrite length_zip_with, Hl, Nat.min_id. f_equal. by apply IH.
Qed.

Lemma shape_px {A B} (M : list (list A)) (M' : list (list B)) (p : pixel) :
  shape M = shape M' → is_Some (px M p) ↔ is_Some (px M' p).
Proof.
  intros Hs. rewrite <- !elem_of_pixels. by rewrite (pixels_shape M M').
Qed.

(** Two arrays of one shape with the same pixels are equal. *)
Lemma matrix_eq {A} (M M' : list (list A)) :
  (∀ p, px M p = px M' p) → shape M = shape M' → M = M'.
Proof.
  intros Hpx Hs. apply list_eq. intros i.
  assert (Hlen : length M = length M').
  { unfold shape in Hs. apply (f_equal length) in Hs. by rewrite !length_map in Hs. }
  destruct (M !! i) as [r|] eqn:Er; destruct (M' !! i) as [r'|] eqn:Er'.
  - f_equal. apply list_eq. intros j.
    specialize (Hpx (i, j)). unfold px in Hpx. simpl in Hpx.
    by rewrite Er, Er' in Hpx.
  - apply lookup_lt_Some in Er. apply lookup_ge_None in Er'. lia.
  - apply lookup_lt_Some in Er'. apply lookup_ge_None in Er. lia.
  - done.
Qed.

Lemma elem_of_concat {A} (x : A) (ls : list (list A)) :
  x ∈ concat ls ↔ ∃ l, x ∈ l ∧ l ∈ ls.
Proof.
  induction ls as [|l0 ls IH]; simpl.
  - rewrite elem_of_nil. split; [done|]. intros (l & _ & H). by apply elem_of_nil in H.
  - rewrite elem_of_app, IH. split.
    + intros [?|(l & ? & ?)]; [exists l0|exists l]; (split; [done|]); [by left|by right].
    + intros (l & ? & [->|?]%elem_of_cons); [by left|right; by exists l].
Qed.

(** ** Dictionaries *)

Lemma dict_get_set {K V} `{EqDecision K} (k k' : K) (v : V) (d : list (K * V)) :
  dict_get k (dict_set k' v d) = if decide (k = k') then Some v else dict_get k d.
Proof.
  induction d as [|[k0 v0] d IH]; simpl.
  - repeat case_decide; congruence.
  - destruct (decide (k' = k0)) as [->|Hne]; simpl.
    + repeat case_decide; congruence.
    + rewrite IH. repeat case_decide; congruence.
Qed.


Lemma elem_of_ravel {A} (M : list (list A)) (x : A) :
  x ∈ concat M ↔ ∃ p, px M p = Some x.
Proof.
  rewrite elem_of_concat. split.
  - intros (row & Hx & Hrow).
    apply list_elem_of_lookup in Hx as [j Hj]. apply list_elem_of_lookup in Hrow as [i Hi].
    exists (i, j). apply px_Some. eauto.
  - intros ([i j] & Hpx). apply px_Some in Hpx as (row & Hi & Hj).
    exists row. split; by eapply list_elem_of_lookup_2.
Qed.

Lemma map_map_id_on (F : Z → Z) (L : matrix) :
  (∀ a, a ∈ ravel L → F a = a) → map (map F) L = L.
Proof.
  intros HF. apply matrix_eq; [|apply shape_map].
  intros p. rewrite px_map. destruct (px L p) as [a|] eqn:Ea; [|done]. simpl.
  f_equal. apply HF. apply elem_of_ravel. eauto.
Qed.

(** ** [np.unique] *)

Lemma elem_of_insert_sorted (x y : Z) (l : list Z) :
  y ∈ insert_sorted x l ↔ y = x ∨ y ∈ l.
Proof.
  induction l as [|z l IH]; simpl.
  - rewrite elem_of_cons, elem_of_nil. tauto.
  - destruct (x <? z) eqn:E1; [by rewrite elem_of_cons|].
    destruct (x =? z) eqn:E2.
    + apply Z.eqb_eq in E2 as ->. rewrite elem_of_cons. tauto.
    + rewrite !elem_of_cons, IH. tauto.
Qed.

Lemma elem_of_np_unique (y : Z) (l : list Z) : y ∈ np_unique l ↔ y ∈ l.
Proof.
  induction l as [|x l IH]; simpl; [done|].
  rewrite elem_of_insert_sorted, elem_of_cons, IH. done.
Qed.

Lemma insert_sorted_sorted (x : Z) (l : list Z) :
  StronglySorted Z.lt l → StronglySorted Z.lt (insert_sorted x l).
Proof.
  induction 1 as [|z l Hs IH Hall]; simpl.
  - repeat constructor.
  - destruct (x <? z) eqn:E1.
    + apply Z.ltb_lt in E1. constructor; [by constructor|].
      constructor; [done|]. eapply Forall_impl; [exact Hall|]. simpl. lia.
    + destruct (x =? z) eqn:E2; [by constructor|].
      apply Z.ltb_ge in E1. apply Z.eqb_neq in E2.
      constructor; [done|]. apply Forall_forall. intros y.
      rewrite elem_of_insert_sorted. intros [->|Hy]; [lia|].
      rewrite Forall_forall in Hall. by apply Hall.
Qed.

Lemma np_unique_sorted (l : list Z) : StronglySorted Z.lt (np_unique l).
Proof.
  induction l as [|x l IH]; simpl; [constructor|]. by apply insert_sorted_sorted.
Qed.

(** The first element of [np.unique] is the minimum. *)
Lemma np_unique_head (l : list Z) (m : Z) :
  head (np_unique l) = Some m → m ∈ l ∧ ∀ y, y ∈ l → m ≤ y.
Proof.
  intros Hh. pose proof (np_unique_sorted l) as Hs.
  destruct (np_unique l) as [|m' u] eqn:Eu; [done|]. injection Hh as ->.
  split.
  - apply elem_of_np_unique. rewrite Eu. by left.
  - intros y Hy. apply elem_of_np_unique in Hy. rewrite Eu in Hy.
    apply elem_of_cons in Hy as [->|Hy]; [lia|].
    apply StronglySorted_inv in Hs as [_ Hall].
    rewrite Forall_forall in Hall. apply Hall in Hy. lia.
Qed.

Lemma np_unique_nil (l : list Z) : np_unique l = [] ↔ l = [].
Proof.
  split; [|by intros ->].
  intros Hu. destruct l as [|x l]; [done|].
  assert (x ∈ np_unique (x :: l)) as H by (apply elem_of_np_unique; by left).
  rewrite Hu in H. by apply elem_of_nil in H.
Qed.


(** ** Contrast limits *)





(** ** Stain registry cell *)

(** C8. Without a 'NUCLEI' condition the check prints the warning and does
    nothing else: the cell returns, the table is the one it was given and
    the output has one more line. *)
Theorem check_nuclei_missing (st : registry_state) :
  "NUCLEI" ∉ (stain_df st).*1 →
  stain_df (check_nuclei st) = stain_df st
  ∧ stdout (check_nuclei st) = stdout st ++ ["No nuclei condition!"].
Proof.
  intros Hno. unfold check_nuclei.
  rewrite bool_decide_eq_false_2 by exact Hno. done.
Qed.

Lemma check_nuclei_missing_witness :
  let st := stain_registry_cell
              [("macro", (IStr "f4_80", IStr "Red")); ("M2", (IStr "CD206", IStr "Green"))] [] in
  stain_df st = [("MACRO", (IStr "F4_80", IStr "RED")); ("M2", (IStr "CD206", IStr "GREEN"))]
  ∧ stdout st = ["No nuclei condition!"].
Proof.
  apply (check_nuclei_missing
           {| stain_df := upper_dict [("macro", (IStr "f4_80", IStr "Red"));
                                      ("M2", (IStr "CD206", IStr "Green"))];
              stdout := [] |}).
  vm_compute. intros H. repeat (apply elem_of_cons in H as [H|H]; [discriminate H|]).
  by apply elem_of_nil in H.
Defined.

(** ** Acquisition setup cell *)




(** ** Quantification cell *)

(** C5. On the channel [[1, 0], [0, 0]] the label 1 is present and counted,
    yet the recorded tuple of shared labels is empty: the slice
    [im_assigned[1:, :, i]] leaves out the first row. *)
Theorem shared_labels_skip_first_row :
  let assigned := [[1; 0]; [0; 0]] in
  let e := marker_entry 1 1 "M2" "GREEN" [[1; 0]; [0; 0]] assigned in
  1 ∈ ravel assigned
  ∧ Number e = 1
  ∧ Shared_labels e = []
  ∧ Z.of_nat (length (Shared_labels e)) ≠ Number e.
Proof. vm_compute. split_and!; [left|done|done|done]. Qed.

(** ** Report cell *)

(** C6. With two segmented nuclei the sheet gets the row of nucleus 1 only:
    [range(1, N)] stops at [N - 1]. *)
Theorem xlsx_dict_misses_last_nucleus :
  (Number ∘ snd <$> (demo_labels_df ≫= (.!! O))) = Some 2
  ∧ (map fst <$> (demo_labels_df ≫= xlsx_dict)) = Some [1].
Proof. vm_compute. done. Qed.

(** ** Connected components *)

Lemma filter_iff_elem {A} (P Q : A → Prop) `{∀ x, Decision (P x)} `{∀ x, Decision (Q x)}
    (l : list A) :
  (∀ x, x ∈ l → P x ↔ Q x) → filter P l = filter Q l.
Proof.
  induction l as [|a l IH]; intros Hpq; [done|].
  rewrite !filter_cons.
  rewrite IH by (intros x Hx; apply Hpq; by right).
  destruct (decide (P a)) as [Hp|Hp]; destruct (decide (Q a)) as [Hq|Hq]; try done.
  - exfalso. apply Hq, Hpq; [by left|done].
  - exfalso. apply Hp, Hpq; [by left|done].
Qed.

Lemma filter_elem_of_self {A} `{EqDecision A} (P : A → Prop) `{∀ x, Decision (P x)}
    (l : list A) :
  filter (λ x, x ∈ filter P l) l = filter P l.
Proof.
  apply filter_iff_elem. intros x Hx. rewrite list_elem_of_filter. tauto.
Qed.

Section components.
Context (full : bool) (A : matrix).

Lemma elem_of_foreground p : p ∈ foreground A ↔ is_fg A p.
Proof.
  unfold foreground. rewrite list_elem_of_filter, elem_of_pixels.
  split; [tauto|]. intros Hfg. split; [done|].
  destruct Hfg as (a & -> & _). eauto.
Qed.

Lemma NoDup_foreground : NoDup (foreground A).
Proof. apply NoDup_filter, NoDup_pixels. Qed.

Lemma adjacent_sym p q : adjacent full p q → adjacent full q p.
Proof. unfold adjacent, dist. destruct full; lia. Qed.

Lemma elem_of_grow S q :
  q ∈ grow full (foreground A) S ↔
  (q ∈ S ∨ ∃ s, s ∈ S ∧ adjacent full s q) ∧ q ∈ foreground A.
Proof.
  unfold grow. rewrite list_elem_of_filter, Exists_exists.
  split; intros [[?|(s & ? & ?)] ?]; split; eauto.
Qed.

Lemma grow_ext S S' :
  (∀ x, x ∈ S ↔ x ∈ S') →
  grow full (foreground A) S = grow full (foreground A) S'.
Proof.
  intros Hext. unfold grow. apply list_filter_iff. intros q.
  rewrite !Exists_exists. split.
  - intros [?|(s & Hs & ?)]; [left; by apply Hext|].
    right. exists s. split; [by apply Hext|done].
  - intros [?|(s & Hs & ?)]; [left; by apply Hext|].
    right. exists s. split; [by apply Hext|done].
Qed.

Lemma flood_S p k :
  flood full A p (S k) = grow full (foreground A) (flood full A p k).
Proof. done. Qed.

Lemma flood_fg p k q : is_fg A p → q ∈ flood full A p k → is_fg A q.
Proof.
  intros Hp. destruct k as [|k].
  - intros ->%list_elem_of_singleton. done.
  - rewrite flood_S, elem_of_grow. intros [_ ?]. by apply elem_of_foreground.
Qed.

Lemma flood_mono p k q :
  is_fg A p → q ∈ flood full A p k → q ∈ flood full A p (S k).
Proof.
  intros Hp Hq. rewrite flood_S, elem_of_grow. split; [by left|].
  apply elem_of_foreground. by apply (flood_fg p k).
Qed.

Lemma flood_start p k : is_fg A p → p ∈ flood full A p k.
Proof.
  intros Hp. induction k as [|k IH]; [by left|]. by apply flood_mono.
Qed.

Lemma flood_sound p k q : q ∈ flood full A p k → connected full A p q.
Proof.
  revert q. induction k as [|k IH]; intros q.
  - intros ->%list_elem_of_singleton. apply rtc_refl.
  - rewrite flood_S, elem_of_grow.
    intros [[Hq|(s & Hs & Hadj)] Hfg]; [by apply IH|].
    eapply rtc_r; [by apply IH|]. split; [done|]. by apply elem_of_foreground.
Qed.

Lemma NoDup_flood p k : NoDup (flood full A p k).
Proof.
  destruct k as [|k].
  - apply NoDup_singleton.
  - rewrite flood_S. apply NoDup_filter, NoDup_foreground.
Qed.

(** Once a round adds nothing, no later round does. *)
Lemma flood_stable_S p k :
  is_fg A p →
  (∀ q, q ∈ flood full A p (S k) → q ∈ flood full A p k) →
  flood full A p (S (S k)) = flood full A p (S k).
Proof.
  intros Hp Hst. rewrite (flood_S p (S k)), (flood_S p k).
  apply grow_ext. intros x. split; [apply Hst|by apply flood_mono].
Qed.

Lemma flood_stable_ge p k n :
  is_fg A p →
  (∀ q, q ∈ flood full A p (S k) → q ∈ flood full A p k) →
  (k ≤ n)%nat →
  ∀ q, q ∈ flood full A p (S n) → q ∈ flood full A p n.
Proof.
  intros Hp Hst Hle. induction Hle as [|n Hle IH]; [done|].
  intros q. by rewrite flood_stable_S.
Qed.

(** Until then, every round adds a pixel. *)
Lemma flood_grows p k :
  is_fg A p →
  (∃ j, (j ≤ k)%nat ∧ ∀ q, q ∈ flood full A p (S j) → q ∈ flood full A p j)
  ∨ (k < length (flood full A p k))%nat.
Proof.
  intros Hp. induction k as [|k [(j & Hj & Hst)|Hlen]].
  - right. simpl. lia.
  - left. exists j. split; [lia|done].
  - destruct (decide (Forall (λ q, q ∈ flood full A p k) (flood full A p (S k))))
      as [Hall|Hnall].
    + left. exists k. split; [lia|]. by apply Forall_forall.
    + right. apply not_Forall_Exists in Hnall; [|apply _].
      apply Exists_exists in Hnall as (q & Hq & Hnq). simpl in Hnq.
      assert (Hsub : q :: flood full A p k ⊆+ flood full A p (S k)).
      { apply NoDup_submseteq.
        - apply NoDup_cons. split; [done|apply NoDup_flood].
        - intros x [->|Hx]%elem_of_cons; [done|by apply flood_mono]. }
      apply submseteq_length in Hsub. rewrite length_cons in Hsub. lia.
Qed.

Lemma flood_saturated p q :
  is_fg A p →
  q ∈ flood full A p (S (length (foreground A))) → q ∈ component full A p.
Proof.
  intros Hp. unfold component.
  destruct (flood_grows p (length (foreground A)) Hp) as [(j & Hj & Hst)|Hlen].
  - by apply (flood_stable_ge p j).
  - exfalso.
    assert (Hsub : flood full A p (length (foreground A)) ⊆+ foreground A).
    { apply NoDup_submseteq; [apply NoDup_flood|].
      intros x Hx. apply elem_of_foreground. by eapply flood_fg. }
    apply submseteq_length in Hsub. lia.
Qed.

(** The component of [p] lists exactly the pixels connected to [p]. *)
Lemma elem_of_component p q :
  is_fg A p → q ∈ component full A p ↔ connected full A p q.
Proof.
  intros Hp. split; [apply flood_sound|].
  revert q. apply (rtc_ind_r (λ q, q ∈ component full A p)).
  - by apply flood_start.
  - intros y z Hpy [Hadj Hz] IH.
    apply flood_saturated; [done|]. rewrite flood_S, elem_of_grow.
    split; [|by apply elem_of_foreground].
    right. exists y. done.
Qed.

Lemma NoDup_component p : NoDup (component full A p).
Proof. apply NoDup_flood. Qed.

Lemma connected_fg p q : is_fg A p → connected full A p q → is_fg A q.
Proof.
  intros Hp Hc. apply (flood_fg p (length (foreground A)) q Hp).
  by apply elem_of_component.
Qed.

Lemma connected_sym p q : is_fg A p → connected full A p q → connected full A q p.
Proof.
  intros Hp Hc. induction Hc as [x|x y z [Hadj Hy] Hyz IH].
  - apply rtc_refl.
  - eapply rtc_r; [by apply IH|]. split; [by apply adjacent_sym|done].
Qed.

Lemma component_filter p :
  is_fg A p →
  component full A p = filter (λ x, x ∈ component full A p) (foreground A).
Proof.
  intros Hp. unfold component.
  destruct (length (foreground A)) as [|n] eqn:En.
  - apply elem_of_foreground in Hp. apply length_zero_iff_nil in En.
    rewrite En in Hp. by apply elem_of_nil in Hp.
  - rewrite flood_S. unfold grow. symmetry. apply filter_elem_of_self.
Qed.

Lemma component_eq p q :
  is_fg A p → connected full A p q → component full A p = component full A q.
Proof.
  intros Hp Hc. pose proof (connected_fg p q Hp Hc) as Hq.
  rewrite (component_filter p Hp), (component_filter q Hq).
  apply filter_iff_elem. intros x _.
  rewrite !elem_of_component by done.
  pose proof (connected_sym p q Hp Hc) as Hc'. unfold connected in *.
  split; intros Hx; eapply rtc_trans; eassumption.
Qed.

(** The first pixel of a component is a root, and is its own first
    pixel. *)
Lemma component_head p :
  is_fg A p →
  ∃ r, head (component full A p) = Some r ∧ connected full A p r
       ∧ r ∈ component_roots full A.
Proof.
  intros Hp. destruct (component full A p) as [|r l] eqn:Ec.
  - pose proof (flood_start p (length (foreground A)) Hp) as Hin.
    fold (component full A p) in Hin. rewrite Ec in Hin. by apply elem_of_nil in Hin.
  - exists r. assert (Hr : connected full A p r).
    { apply elem_of_component; [done|]. rewrite Ec. by left. }
    split_and!; [done|done|].
    unfold component_roots. apply list_elem_of_filter. split.
    + by rewrite <- (component_eq p r), Ec.
    + apply elem_of_foreground. by eapply connected_fg.
Qed.

Lemma NoDup_component_roots : NoDup (component_roots full A).
Proof. apply NoDup_filter, NoDup_foreground. Qed.

Lemma label_of_root p :
  is_fg A p →
  ∃ i r, component_roots full A !! i = Some r ∧ connected full A p r
         ∧ label_of full A p = Z.of_nat (S i).
Proof.
  intros Hp. destruct (component_head p Hp) as (r & Hh & Hc & Hr).
  destruct (list_find_elem_of (r =.) (component_roots full A) r Hr eq_refl)
    as [[i r'] Hf].
  pose proof Hf as Hf'. apply list_find_Some in Hf' as (Hi & <- & _).
  exists i, r. split_and!; [done|done|].
  unfold label_of. rewrite Hh. simpl. by rewrite Hf.
Qed.

Lemma label_of_range p :
  is_fg A p → 1 ≤ label_of full A p ≤ Z.of_nat (length (component_roots full A)).
Proof.
  intros Hp. destruct (label_of_root p Hp) as (i & r & Hi & _ & ->).
  apply lookup_lt_Some in Hi. lia.
Qed.

(** Two foreground pixels carry one label exactly when they are
    connected. *)
Lemma label_of_eq_iff p q :
  is_fg A p → is_fg A q →
  label_of full A p = label_of full A q ↔ connected full A p q.
Proof.
  intros Hp Hq. split.
  - destruct (label_of_root p Hp) as (i & r & Hi & Hpr & ->).
    destruct (label_of_root q Hq) as (i' & r' & Hi' & Hqr & ->).
    intros Heq. assert (i = i') as <- by lia.
    assert (r' = r) as -> by congruence.
    pose proof (connected_sym q r Hq Hqr) as Hrq. unfold connected in *.
    eapply rtc_trans; eassumption.
  - intros Hc. unfold label_of. by rewrite (component_eq p q).
Qed.

(** Every number from 1 to [num_features] is the label of a component. *)
Lemma label_of_surjective i :
  1 ≤ i ≤ Z.of_nat (length (component_roots full A)) →
  ∃ p, is_fg A p ∧ label_of full A p = i.
Proof.
  intros Hi.
  destruct (lookup_lt_is_Some_2 (component_roots full A) (Z.to_nat (i - 1))) as [r Hr];
    [lia|].
  assert (Hroot : r ∈ component_roots full A) by (by eapply list_elem_of_lookup_2).
  apply list_elem_of_filter in Hroot as [Hhead Hfg%elem_of_foreground].
  exists r. split; [done|].
  destruct (label_of_root r Hfg) as (j & r' & Hj & Hc & ->).
  assert (r' = r) as ->.
  { apply elem_of_component in Hc; [|done].
    assert (Hr' : r' ∈ component_roots full A) by (by eapply list_elem_of_lookup_2).
    apply list_elem_of_filter in Hr' as [Hhead' Hfg'%elem_of_foreground].
    rewrite <- (component_eq r r') in Hhead'; [congruence|done|].
    by apply elem_of_component. }
  rewrite (NoDup_lookup _ _ _ _ NoDup_component_roots Hj Hr). lia.
Qed.

Lemma px_label p :
  px (label full A).1 p =
  (λ a, if decide (a = 0) then 0 else label_of full A p) <$> px A p.
Proof. unfold label. cbn [fst]. apply (px_imap (λ p a, if decide (a = 0) then 0 else label_of full A p)). Qed.

Lemma shape_label : shape (label full A).1 = shape A.
Proof.
  unfold label. cbn [fst].
  apply (shape_imap (λ i j a, if decide (a = 0) then 0 else label_of full A (i, j))).
Qed.

Lemma px_label_fg p : is_fg A p → px (label full A).1 p = Some (label_of full A p).
Proof.
  intros (a & Ha & Hne). rewrite px_label, Ha. simpl. by rewrite decide_False.
Qed.

(** The mask [labeled == label_of p] is the component of [p]. *)
Lemma elem_of_where_eq_label p q :
  is_fg A p →
  q ∈ where_eq (label full A).1 (label_of full A p) ↔ connected full A p q.
Proof.
  intros Hp. unfold where_eq. rewrite list_elem_of_filter, elem_of_pixels, px_label.
  pose proof (label_of_range p Hp) as Hrange.
  split.
  - intros [Hq _]. apply fmap_Some in Hq as (a & Ha & Heq).
    destruct (decide (a = 0)); [lia|].
    apply label_of_eq_iff; [done|by exists a|done].
  - intros Hc. pose proof (connected_fg p q Hp Hc) as Hq.
    pose proof Hq as (a & Ha & Hne). rewrite Ha. simpl.
    rewrite decide_False by done. split; [|eauto].
    f_equal. symmetry. by apply label_of_eq_iff.
Qed.

Lemma where_eq_label_length p :
  is_fg A p →
  length (where_eq (label full A).1 (label_of full A p)) = length (component full A p).
Proof.
  intros Hp. apply Permutation_length, NoDup_Permutation.
  - apply NoDup_filter, NoDup_pixels.
  - apply NoDup_component.
  - intros q. by rewrite elem_of_where_eq_label, elem_of_component.
Qed.
End components.

(** ** [remove_small_islands] *)

Lemma px_islands_fold (L : matrix) (t : Z) (js : list Z) (B : matrix)
    (p : pixel) (l b : Z) :
  px L p = Some l → px B p = Some b →
  px (fold_left
        (λ B i, if Z.of_nat (length (where_eq L i)) <? t
                then mask_assign (λ l, l =? i) L 0 B else B) js B) p
  = Some (if decide (l ∈ js ∧ Z.of_nat (length (where_eq L l)) < t) then 0 else b).
Proof.
  intros Hl. revert B b. induction js as [|i js IH]; intros B b Hb; cbn [fold_left].
  - rewrite Hb. rewrite decide_False; [done|]. intros [H _]. by apply elem_of_nil in H.
  - destruct (Z.of_nat (length (where_eq L i)) <? t) eqn:Et.
    + apply Z.ltb_lt in Et.
      erewrite IH; last first.
      { rewrite px_mask_assign, Hl, Hb. simpl. reflexivity. }
      f_equal. destruct (Z.eqb_spec l i) as [->|Hne].
      * rewrite (decide_True (P := i ∈ i :: js ∧ _)); [by case_decide|].
        split; [by left|done].
      * apply decide_ext. rewrite elem_of_cons. tauto.
    + apply Z.ltb_ge in Et. rewrite (IH B b Hb). f_equal.
      apply decide_ext. rewrite elem_of_cons. split; [tauto|].
      intros [[->|?] ?]; [lia|done].
Qed.

(** C4. [remove_small_islands] leaves the background as it is; a nonzero
    pixel is set to 0 when its 4-connected component has fewer than
    [area_threshold] pixels and keeps its value otherwise.  [component]
    lists, without repetition, the pixels connected to the pixel. *)
Theorem remove_small_islands_spec (binary_matrix : matrix) (area_threshold : Z)
    (p : pixel) (a : Z) :
  px binary_matrix p = Some a →
  let out := remove_small_islands binary_matrix area_threshold in
  let island := component false binary_matrix p in
  (a = 0 → px out p = Some 0)
  ∧ (a ≠ 0 →
       NoDup island
       ∧ (∀ q, q ∈ island ↔ connected false binary_matrix p q)
       ∧ (Z.of_nat (length island) < area_threshold → px out p = Some 0)
       ∧ (area_threshold ≤ Z.of_nat (length island) → px out p = Some a)).
Proof.
  intros Ha out island. subst out island. unfold remove_small_islands.
  destruct (label false binary_matrix) as [L n] eqn:El.
  assert (HL : L = (label false binary_matrix).1) by (by rewrite El).
  assert (Hn : n = length (component_roots false binary_matrix)) by (by injection El).
  split.
  - intros ->.
    erewrite px_islands_fold; [|by rewrite HL, px_label, Ha|exact Ha].
    simpl. rewrite decide_False; [done|].
    intros [Hin _]. apply elem_of_seqZ in Hin. lia.
  - intros Hne. assert (Hfg : is_fg binary_matrix p) by (by exists a).
    pose proof (label_of_range false binary_matrix p Hfg) as Hrange.
    assert (Hin : label_of false binary_matrix p ∈ seqZ 1 (Z.of_nat n)).
    { apply elem_of_seqZ. lia. }
    split_and!.
    + apply NoDup_component.
    + intros q. by apply elem_of_component.
    + intros Hsmall.
      erewrite px_islands_fold; [|by rewrite HL, px_label_fg|exact Ha].
      rewrite decide_True; [done|]. split; [done|].
      by rewrite HL, where_eq_label_length.
    + intros Hbig.
      erewrite px_islands_fold; [|by rewrite HL, px_label_fg|exact Ha].
      rewrite decide_False; [done|]. intros [_ Hlt].
      rewrite HL, where_eq_label_length in Hlt by done. lia.
Qed.

Lemma remove_small_islands_spec_witness :
  px islands_demo (0, 1)%nat = Some 1
  ∧ px (remove_small_islands islands_demo 2) (0, 1)%nat = Some 1
  ∧ remove_small_islands islands_demo 2 = [[1; 1; 0; 0]; [0; 1; 0; 0]; [0; 0; 0; 0]].
Proof.
  split; [reflexivity|]. split; [|by vm_compute].
  apply (remove_small_islands_spec islands_demo 2 (0, 1)%nat 1 eq_refl); [done|].
  by vm_compute.
Defined.

(** ** [assign_labels] *)

Lemma elem_of_masked_positive (B : matrix) (mask : list pixel) (b : Z) :
  b ∈ masked_positive B mask ↔ 0 < b ∧ ∃ q, q ∈ mask ∧ px B q = Some b.
Proof. unfold masked_positive. by rewrite list_elem_of_filter, list_elem_of_omap. Qed.

Lemma assign_fold_Some (A B L : matrix) (js : list Z) (C : matrix) :
  shape A = shape B →
  fold_left (λ C i, C ≫= λ C, assign_step A B L C i) js (Some C)
  = Some (fold_left
            (λ C i, mask_assign (λ l, l =? i) L
                      (default 0 (head (np_unique (masked_positive B (where_eq L i))))) C)
            js C).
Proof.
  intros Hs. revert C. induction js as [|i js IH]; intros C; cbn [fold_left]; [done|].
  rewrite <- IH. f_equal. simpl. unfold assign_step. by rewrite decide_True.
Qed.

Lemma px_assign_fold (B L : matrix) (js : list Z) (C : matrix) (p : pixel) (l c : Z) :
  px L p = Some l → px C p = Some c →
  px (fold_left
        (λ C i, mask_assign (λ l, l =? i) L
                  (default 0 (head (np_unique (masked_positive B (where_eq L i))))) C)
        js C) p
  = Some (if decide (l ∈ js)
          then default 0 (head (np_unique (masked_positive B (where_eq L l))))
          else c).
Proof.
  intros Hl. revert C c. induction js as [|i js IH]; intros C c Hc; cbn [fold_left].
  - rewrite Hc. rewrite decide_False; [done|]. apply not_elem_of_nil.
  - erewrite IH; last first.
    { rewrite px_mask_assign, Hl, Hc. simpl. reflexivity. }
    f_equal. destruct (Z.eqb_spec l i) as [->|Hne].
    + rewrite (decide_True (P := i ∈ i :: js)) by (by left). by case_decide.
    + apply decide_ext. rewrite elem_of_cons. tauto.
Qed.

(** C1, as the code has it.  When [B] has the shape of [A],
    [assign_labels] returns; background pixels of [A] get 0, and every pixel
    of a connected component of [A] gets the smallest positive label that
    [B] has on the component, or 0 when [B] has none there. *)
Theorem assign_labels_smallest_label (A B : matrix) (connectivity : Z) :
  shape A = shape B →
  let full := bool_decide (connectivity = 2) in
  ∃ C, assign_labels A B connectivity = Some C
    ∧ ∀ p a, px A p = Some a →
        (a = 0 → px C p = Some 0)
        ∧ (a ≠ 0 →
             ∃ m, px C p = Some m
               ∧ ((m = 0 ∧ ∀ q b, connected full A p q → px B q = Some b → b ≤ 0)
                  ∨ (0 < m
                     ∧ (∃ q, connected full A p q ∧ px B q = Some m)
                     ∧ ∀ q b, connected full A p q → px B q = Some b → 0 < b → m ≤ b))).
Proof.
  intros Hs full. unfold assign_labels. fold full.
  destruct (label full A) as [L n] eqn:El.
  assert (HL : L = (label full A).1) by (by rewrite El).
  assert (Hn : n = length (component_roots full A)) by (by injection El).
  rewrite assign_fold_Some by done.
  eexists. split; [reflexivity|]. intros p a Ha.
  assert (Hz : px (zeros_like A) p = Some 0).
  { unfold zeros_like. by rewrite px_map, Ha. }
  split.
  - intros ->.
    erewrite px_assign_fold; [|by rewrite HL, px_label, Ha|exact Hz].
    simpl. rewrite decide_False; [done|].
    intros Hin. apply elem_of_seqZ in Hin. lia.
  - intros Hne. assert (Hfg : is_fg A p) by (by exists a).
    pose proof (label_of_range full A p Hfg) as Hrange.
    erewrite px_assign_fold; [|by rewrite HL, px_label_fg|exact Hz].
    rewrite decide_True by (apply elem_of_seqZ; lia).
    set (vals := masked_positive B (where_eq L (label_of full A p))).
    assert (Hvals : ∀ b, b ∈ vals ↔ 0 < b ∧ ∃ q, connected full A p q ∧ px B q = Some b).
    { intros b. unfold vals. rewrite elem_of_masked_positive.
      split; intros [? (q & Hq & ?)]; (split; [done|]); exists q; (split; [|done]).
      - rewrite HL in Hq. by apply elem_of_where_eq_label in Hq.
      - rewrite HL. by apply elem_of_where_eq_label. }
    eexists. split; [reflexivity|].
    destruct (head (np_unique vals)) as [m|] eqn:Eh; simpl.
    + right. apply np_unique_head in Eh as [Hm Hmin].
      apply Hvals in Hm as [Hpos Hex]. split_and!; [done|done|].
      intros q b Hc Hb Hbpos. apply Hmin, Hvals. eauto.
    + left. split; [done|]. intros q b Hc Hb.
      destruct (decide (b ≤ 0)) as [|Hgt]; [done|]. exfalso.
      assert (b ∈ vals) as Hin by (apply Hvals; split; [lia|eauto]).
      assert (np_unique vals = []) as Hnil by (by destruct (np_unique vals)).
      apply (proj1 (np_unique_nil vals)) in Hnil. rewrite Hnil in Hin. by apply elem_of_nil in Hin.
Qed.

Lemma assign_labels_smallest_label_witness :
  shape assign_demo_A = shape assign_demo_B
  ∧ ∃ C, assign_labels assign_demo_A assign_demo_B 1 = Some C
       ∧ ∃ m, px C (0, 0)%nat = Some m
            ∧ ((m = 0 ∧ ∀ q b, connected false assign_demo_A (0, 0)%nat q →
                               px assign_demo_B q = Some b → b ≤ 0)
               ∨ (0 < m
                  ∧ (∃ q, connected false assign_demo_A (0, 0)%nat q
                          ∧ px assign_demo_B q = Some m)
                  ∧ ∀ q b, connected false assign_demo_A (0, 0)%nat q →
                           px assign_demo_B q = Some b → 0 < b → m ≤ b)).
Proof.
  split; [reflexivity|].
  destruct (assign_labels_smallest_label assign_demo_A assign_demo_B 1 eq_refl)
    as (C & HC & Hpx).
  exists C. split; [exact HC|].
  destruct (Hpx (0, 0)%nat 1 eq_refl) as [_ Hfg]. apply Hfg. done.
Defined.

(** C1, as stated, fails.  On [A = [[1, 1]]] and [B = [[2, 1]]] the one
    component meets label 2 first in scan order, and [assign_labels] writes
    label 1. *)
Lemma assign_labels_not_scan_order :
  assign_labels assign_demo_A assign_demo_B 1 = Some [[1; 1]]
  ∧ first_label_in_scan_order false assign_demo_A assign_demo_B (0, 0)%nat = 2
  ∧ ¬ assigns_first_in_scan_order assign_demo_A assign_demo_B 1.
Proof.
  split; [by vm_compute|]. split; [by vm_compute|].
  intros Hclaim.
  specialize (Hclaim [[1; 1]] ltac:(by vm_compute) (0, 0)%nat).
  assert (Hfg : is_fg assign_demo_A (0, 0)%nat) by (exists 1; done).
  apply Hclaim in Hfg. vm_compute in Hfg. discriminate Hfg.
Qed.

(** ** Union-find *)

Section union_find.
Implicit Types (parent : gmap Z Z) (h : Z → nat).

Lemma rep_functional parent u r r' : rep parent u r → rep parent u r' → r = r'.
Proof.
  induction 1 as [u Hu|u v r Hu Hne Hr IH]; inversion 1; subst; try congruence.
  apply IH. congruence.
Qed.

Lemma rep_is_root parent u r : rep parent u r → parent !! r = Some r.
Proof. induction 1; done. Qed.

Lemma rep_dom parent u r : rep parent u r → is_Some (parent !! u).
Proof. inversion 1; eauto. Qed.

Lemma rep_of_root parent u r : parent !! u = Some u → rep parent u r → r = u.
Proof. intros Hu Hr. eapply rep_functional; [exact Hr|by constructor]. Qed.

Lemma above_lt h (keys : gset Z) u v :
  v ∈ keys → (h u < h v)%nat → (above h keys v < above h keys u)%nat.
Proof.
  intros Hv Hlt. unfold above. apply subset_size. split.
  - intros x. rewrite !elem_of_filter. intros [? ?]. split; [lia|done].
  - intros Hsub. specialize (Hsub v). rewrite !elem_of_filter in Hsub.
    destruct Hsub as [? _]; [done|lia].
Qed.

Lemma above_lt_size h (keys : gset Z) u :
  u ∈ keys → (above h keys u < size keys)%nat.
Proof.
  intros Hu. unfold above. apply subset_size. split.
  - intros x. rewrite elem_of_filter. tauto.
  - intros Hsub. specialize (Hsub u Hu). rewrite elem_of_filter in Hsub. lia.
Qed.

(** Every key of a forest has a representative. *)
Lemma rep_exists parent h u :
  forest parent h → is_Some (parent !! u) → ∃ r, rep parent u r.
Proof.
  intros Hf. remember (above h (dom parent) u) as n eqn:En.
  revert u En. induction (lt_wf n) as [n _ IH]. intros u -> [v Hv].
  destruct (decide (v = u)) as [->|Hne].
  - exists u. by constructor.
  - destruct (Hf u v Hv) as [Hdom Hlt].
    destruct (IH (above h (dom parent) v)) with (u := v) as [r Hr]; [|done|done|].
    + apply above_lt; [by apply elem_of_dom|by apply Hlt].
    + exists r. by econstructor.
Qed.

(** Path halving: [parent[u] = parent[parent[u]]]. *)
Lemma forest_halve parent h u pu ppu :
  forest parent h →
  parent !! u = Some pu → pu ≠ u → parent !! pu = Some ppu →
  forest (<[u := ppu]> parent) h.
Proof.
  intros Hf Hu Hne Hpu x y. rewrite lookup_insert.
  destruct (Hf u pu Hu) as [_ Hh1]. destruct (Hf pu ppu Hpu) as [Hd2 Hh2].
  case_decide as Hx.
  - subst x. intros [= <-]. split.
    + rewrite lookup_insert. case_decide; eauto.
    + intros _. specialize (Hh1 Hne).
      destruct (decide (ppu = pu)) as [->|Hne2]; [done|].
      specialize (Hh2 Hne2). lia.
  - intros Hy. destruct (Hf x y Hy) as [Hd Hh]. split; [|done].
    rewrite lookup_insert. case_decide; eauto.
Qed.

Lemma rep_halve parent h u pu ppu :
  forest parent h →
  parent !! u = Some pu → pu ≠ u → parent !! pu = Some ppu →
  ∀ x r, rep (<[u := ppu]> parent) x r ↔ rep parent x r.
Proof.
  intros Hf Hu Hne Hpu.
  assert (Hppu : ppu ≠ u).
  { destruct (Hf u pu Hu) as [_ Hh1]. destruct (Hf pu ppu Hpu) as [_ Hh2].
    specialize (Hh1 Hne). intros ->. specialize (Hh2 ltac:(done)). lia. }
  intros x r. split.
  - induction 1 as [x Hx|x y r Hx Hxy Hr IH].
    + rewrite lookup_insert in Hx. case_decide; [congruence|]. by constructor.
    + rewrite lookup_insert in Hx. case_decide as Hxu.
      * subst x. injection Hx as <-.
        econstructor; [exact Hu|done|].
        destruct (decide (ppu = pu)) as [->|Hne2]; [done|]. by econstructor.
      * by econstructor.
  - induction 1 as [x Hx|x y r Hx Hxy Hr IH].
    + constructor. rewrite lookup_insert. case_decide; [congruence|done].
    + destruct (decide (u = x)) as [<-|Hxu].
      * assert (y = pu) as -> by congruence.
        econstructor; [by rewrite lookup_insert_eq|done|].
        destruct (decide (ppu = pu)) as [->|Hne2]; [done|].
        inversion IH as [? Hpu'|? w ? Hpu' Hne' Hw]; subst;
          rewrite lookup_insert_ne in Hpu' by done; [congruence|].
        by assert (w = ppu) as -> by congruence.
      * econstructor; [by rewrite lookup_insert_ne|done|done].
Qed.

(** [find] returns the representative and keeps every representative. *)
Lemma find_loop_spec fuel parent h u :
  forest parent h → is_Some (parent !! u) →
  (above h (dom parent) u < fuel)%nat →
  ∃ r parent', find_loop fuel parent u = Some (r, parent')
    ∧ rep parent u r ∧ forest parent' h ∧ dom parent' = dom parent
    ∧ ∀ x s, rep parent' x s ↔ rep parent x s.
Proof.
  revert parent u. induction fuel as [|fuel IH]; intros parent u Hf [pu Hu] Hlt; [lia|].
  cbn [find_loop]. rewrite Hu. simpl.
  destruct (decide (pu ≠ u)) as [Hne|Heq].
  - destruct (Hf u pu Hu) as [[ppu Hpu] Hh]. rewrite Hpu. simpl.
    specialize (Hh Hne).
    destruct (Hf pu ppu Hpu) as [Hppu Hh2].
    assert (Hdom : dom (<[u := ppu]> parent) = dom parent).
    { apply dom_insert_lookup_L. eauto. }
    destruct (IH (<[u := ppu]> parent) ppu) as (r & parent' & Hfind & Hr & Hf' & Hd' & Hreps).
    + by eapply forest_halve.
    + apply elem_of_dom. rewrite Hdom. by apply elem_of_dom.
    + rewrite Hdom.
      assert (above h (dom parent) pu < above h (dom parent) u)%nat.
      { apply above_lt; [apply elem_of_dom; eauto|done]. }
      destruct (decide (ppu = pu)) as [->|Hne2]; [lia|].
      assert (above h (dom parent) ppu < above h (dom parent) pu)%nat.
      { apply above_lt; [by apply elem_of_dom|by apply Hh2]. }
      lia.
    + exists r, parent'. split_and!; [done| |done|congruence|].
      * apply (rep_halve parent h u pu ppu) in Hr; try done.
        econstructor; [exact Hu|done|].
        destruct (decide (ppu = pu)) as [->|Hne2]; [done|]. by econstructor.
      * intros x s. rewrite Hreps. by eapply rep_halve.
  - exists u, parent. split_and!; try done.
    constructor. rewrite Hu. f_equal. by destruct (decide (pu = u)); [|exfalso; auto].
Qed.

Lemma find_spec parent h u :
  forest parent h → is_Some (parent !! u) →
  ∃ r parent', find parent u = Some (r, parent')
    ∧ rep parent u r ∧ forest parent' h ∧ dom parent' = dom parent
    ∧ ∀ x s, rep parent' x s ↔ rep parent x s.
Proof.
  intros Hf Hu. apply find_loop_spec; [done|done|].
  rewrite <- (size_dom (D := gset Z)). apply above_lt_size. by apply elem_of_dom.
Qed.

(** Linking a root under another root: [parent[pu] = pv]. *)
Lemma forest_link parent h pu pv :
  forest parent h → parent !! pu = Some pu → parent !! pv = Some pv → pu ≠ pv →
  forest (<[pu := pv]> parent)
         (λ x, if decide (x = pv) then Nat.max (h pv) (S (h pu)) else h x).
Proof.
  intros Hf Hpu Hpv Hne x y. rewrite lookup_insert. case_decide as Hx.
  - subst x. intros [= <-]. split.
    + rewrite lookup_insert_ne by done. eauto.
    + intros _. rewrite decide_False by done. rewrite decide_True by done. lia.
  - intros Hy. destruct (Hf x y Hy) as [Hd Hh]. split.
    + rewrite lookup_insert. case_decide; eauto.
    + intros Hyx. specialize (Hh Hyx). cbv beta.
      assert (x ≠ pv) by (intros ->; congruence).
      rewrite (decide_False (P := x = pv)) by done.
      destruct (decide (y = pv)) as [->|]; lia.
Qed.

Lemma rep_link parent pu pv :
  parent !! pu = Some pu → parent !! pv = Some pv → pu ≠ pv →
  ∀ x r', rep (<[pu := pv]> parent) x r' ↔
          ∃ r, rep parent x r ∧ r' = if decide (r = pu) then pv else r.
Proof.
  intros Hpu Hpv Hne x r'. split.
  - induction 1 as [x Hx|x y r' Hx Hxy Hr IH].
    + rewrite lookup_insert in Hx. case_decide; [congruence|].
      exists x. split; [by constructor|]. by rewrite decide_False.
    + rewrite lookup_insert in Hx. case_decide as Hxu.
      * subst x. injection Hx as <-. exists pu. split; [by constructor|].
        rewrite decide_True by done.
        destruct IH as (r & Hr' & ->). apply rep_of_root in Hr' as ->; [|done].
        by rewrite decide_False.
      * destruct IH as (r & Hr' & ->). exists r. split; [by econstructor|done].
  - intros (r & Hr & ->). induction Hr as [x Hx|x y r Hx Hxy Hr IH].
    + case_decide as Hxu.
      * subst x. econstructor; [by rewrite lookup_insert_eq|done|].
        constructor. by rewrite lookup_insert_ne.
      * constructor. by rewrite lookup_insert_ne.
    + econstructor; [|done|exact IH].
      rewrite lookup_insert_ne; [done|]. intros <-. congruence.
Qed.

(** [union(u, v)] redirects the representative of [u] to that of [v]. *)
Lemma union_spec parent h u v ru rv :
  forest parent h → rep parent u ru → rep parent v rv →
  ∃ parent' h', union parent u v = Some parent'
    ∧ forest parent' h' ∧ dom parent' = dom parent
    ∧ ∀ x r', rep parent' x r' ↔
              ∃ r, rep parent x r ∧ r' = if decide (r = ru) then rv else r.
Proof.
  intros Hf Hu Hv. unfold union.
  destruct (find_spec parent h u Hf (rep_dom _ _ _ Hu))
    as (pu & parent1 & -> & Hpu & Hf1 & Hd1 & Hr1). simpl.
  assert (pu = ru) as -> by (eapply rep_functional; eassumption).
  assert (Hv1 : rep parent1 v rv) by (by apply Hr1).
  destruct (find_spec parent1 h v Hf1 (rep_dom _ _ _ Hv1))
    as (pv & parent2 & -> & Hpv & Hf2 & Hd2 & Hr2). simpl.
  assert (pv = rv) as -> by (eapply rep_functional; eassumption).
  destruct (decide (ru ≠ rv)) as [Hne|Heq].
  - eexists _, _. split; [done|].
    assert (Hru : parent2 !! ru = Some ru).
    { apply (rep_is_root parent2 u). by apply Hr2, Hr1. }
    assert (Hrv : parent2 !! rv = Some rv).
    { apply (rep_is_root parent2 v). by apply Hr2. }
    split_and!.
    + by apply forest_link.
    + rewrite dom_insert_lookup_L by eauto. congruence.
    + intros x r'. rewrite rep_link by done.
      split; intros (r & Hr & ->); exists r; (split; [|done]).
      * by apply Hr1, Hr2.
      * by apply Hr2, Hr1.
  - assert (ru = rv) as <- by (by destruct (decide (ru = rv)); [|exfalso; auto]).
    exists parent2, h. split_and!; [done|done|congruence|].
    intros x r'. split.
    + intros Hr. exists r'. split; [by apply Hr1, Hr2|]. by case_decide.
    + intros (r & Hr & ->). apply Hr2, Hr1. by case_decide; subst.
Qed.

Lemma same_class_trans parent x y z :
  same_class parent x y → same_class parent y z → same_class parent x z.
Proof.
  intros (r & Hx & Hy) (r' & Hy' & Hz).
  assert (r' = r) as -> by (by apply (rep_functional parent y)).
  by exists r.
Qed.

Lemma same_class_sym parent x y : same_class parent x y → same_class parent y x.
Proof. intros (r & ? & ?). by exists r. Qed.
End union_find.
(** ** The loop over the touching pairs *)

Lemma rtsc_closure_incl {A} (R1 R2 : relation A) :
  (∀ a b, R1 a b → rtsc R2 a b) → ∀ x y, rtsc R1 x y → rtsc R2 x y.
Proof.
  intros Hincl x y Hxy. induction Hxy as [x|x y z [Hxy|Hyx] _ IH].
  - reflexivity.
  - etrans; [by apply Hincl|done].
  - etrans; [symmetry; by apply Hincl|done].
Qed.

Lemma union_fold_spec (pairs : list (Z * Z)) (parent : gmap Z Z) (h : Z → nat) :
  forest parent h →
  (∀ u v, (u, v) ∈ pairs → is_Some (parent !! u) ∧ is_Some (parent !! v)) →
  ∃ parent' h',
    fold_left union_step pairs (Some parent) = Some parent'
    ∧ forest parent' h' ∧ dom parent' = dom parent
    ∧ (∀ a b, same_class parent a b → same_class parent' a b)
    ∧ (∀ a b, (a, b) ∈ pairs → same_class parent' a b)
    ∧ (∀ x y, same_class parent' x y →
              rtsc (λ a b, same_class parent a b ∨ (a, b) ∈ pairs) x y).
Proof.
  revert parent h. induction pairs as [|[u v] pairs IH]; intros parent h Hf Hdom.
  - exists parent, h. split_and!; try done.
    + intros a b Hab. by apply elem_of_nil in Hab.
    + intros x y Hxy. apply rtsc_lr. by left.
  - destruct (Hdom u v) as [Hu Hv]; [by left|].
    destruct (rep_exists parent h u Hf Hu) as [ru Hru].
    destruct (rep_exists parent h v Hf Hv) as [rv Hrv].
    destruct (union_spec parent h u v ru rv Hf Hru Hrv)
      as (parent1 & h1 & Hunion & Hf1 & Hd1 & Hreps).
    destruct (IH parent1 h1 Hf1) as (parent' & h' & Hfold & Hf' & Hd' & Hold & Hnew & Hcl).
    { intros a b Hab. rewrite <- !elem_of_dom, Hd1, !elem_of_dom.
      apply Hdom. by right. }
    assert (Hkeep : ∀ a b, same_class parent a b → same_class parent1 a b).
    { intros a b (r & Ha & Hb). exists (if decide (r = ru) then rv else r).
      split; apply Hreps; eauto. }
    assert (Huv : same_class parent1 u v).
    { exists rv. split; apply Hreps.
      - exists ru. split; [done|]. by rewrite decide_True.
      - exists rv. split; [done|]. by case_decide. }
    exists parent', h'. split_and!.
    + cbn [fold_left]. unfold union_step at 2. cbn [mbind option_bind fst snd].
      rewrite decide_True by done. by rewrite Hunion.
    + done.
    + congruence.
    + intros a b Hab. by apply Hold, Hkeep.
    + intros a b [[= -> ->]|Hab]%elem_of_cons; [by apply Hold|by apply Hnew].
    + intros x y Hxy. apply Hcl in Hxy. revert x y Hxy.
      apply rtsc_closure_incl. intros a b [(r' & Ha & Hb)|Hab].
      * apply Hreps in Ha as (ra & Ha & ->). apply Hreps in Hb as (rb & Hb & Heq).
        assert (Hedge : rtsc (λ a b, same_class parent a b ∨ (a, b) ∈ (u, v) :: pairs) u v).
        { apply rtsc_lr. right. by left. }
        assert (Hsame : ∀ c d r, rep parent c r → rep parent d r →
                  rtsc (λ a b, same_class parent a b ∨ (a, b) ∈ (u, v) :: pairs) c d).
        { intros c d r Hc Hd. apply rtsc_lr. left. by exists r. }
        destruct (decide (ra = ru)) as [->|Hna]; destruct (decide (rb = ru)) as [->|Hnb].
        -- by apply (Hsame a b ru).
        -- subst rb. etrans; [by apply (Hsame a u ru)|].
           etrans; [exact Hedge|]. by apply (Hsame v b rv).
        -- subst ra. etrans; [by apply (Hsame a v rv)|].
           etrans; [symmetry; exact Hedge|]. by apply (Hsame u b ru).
        -- subst rb. by apply (Hsame a b ra).
      * apply rtsc_lr. right. by right.
Qed.

(** ** The scan of the padded array *)

Lemma dict_set_keys {K V} `{EqDecision K} (k : K) (v : V) (d : list (K * V)) :
  (dict_set k v d).*1 = if decide (k ∈ d.*1) then d.*1 else d.*1 ++ [k].
Proof.
  induction d as [|[k0 v0] d IH]; cbn [dict_set].
  - rewrite decide_False; [done|]. apply not_elem_of_nil.
  - rewrite !fmap_cons. cbn [fst].
    destruct (decide (k = k0)) as [->|Hne]; rewrite !fmap_cons; cbn [fst].
    + rewrite decide_True; [done|]. by left.
    + rewrite IH. destruct (decide (k ∈ d.*1)) as [Hin|Hnin].
      * rewrite decide_True; [done|]. by right.
      * rewrite decide_False; [done|]. by intros [?|?]%elem_of_cons.
Qed.

Lemma dict_set_NoDup {K V} `{EqDecision K} (k : K) (v : V) (d : list (K * V)) :
  NoDup d.*1 → NoDup (dict_set k v d).*1.
Proof.
  intros Hnd. rewrite dict_set_keys. case_decide; [done|].
  apply NoDup_app. split_and!; [done| |apply NoDup_singleton].
  intros x Hx ->%list_elem_of_singleton. done.
Qed.

Lemma dict_get_elem_of {K V} `{EqDecision K} (k : K) (v : V) (d : list (K * V)) :
  NoDup d.*1 → (k, v) ∈ d ↔ dict_get k d = Some v.
Proof.
  induction d as [|[k0 v0] d IH]; simpl; intros Hnd.
  - split; [by intros ?%elem_of_nil|done].
  - apply NoDup_cons in Hnd as [Hk0 Hnd]. rewrite elem_of_cons, IH by done.
    destruct (decide (k = k0)) as [->|Hne].
    + split.
      * intros [[= ->]|Hget]; [done|]. exfalso. apply Hk0.
        apply IH in Hget; [|done]. apply list_elem_of_fmap. by exists (k0, v).
      * intros [= ->]. by left.
    + split; [|by right]. intros [[= -> ->]|?]; done.
Qed.

Lemma elem_of_take_drop {A} (n k : nat) (l : list A) (x : A) :
  x ∈ take n (drop k l) ↔ ∃ d, (d < n)%nat ∧ l !! (k + d)%nat = Some x.
Proof.
  rewrite list_elem_of_lookup. split.
  - intros (d & Hd). apply lookup_take_Some in Hd as [Hd Hlt].
    rewrite lookup_drop in Hd. eauto.
  - intros (d & Hlt & Hd). exists d. apply lookup_take_Some.
    rewrite lookup_drop. done.
Qed.

Lemma elem_of_neighborhood (padded : matrix) (i j : nat) (v : Z) :
  v ∈ neighborhood padded i j ↔
  ∃ di dj, (di < 3)%nat ∧ (dj < 3)%nat
           ∧ px padded ((i - 1 + di)%nat, (j - 1 + dj)%nat) = Some v.
Proof.
  unfold neighborhood. rewrite elem_of_concat. split.
  - intros (l & Hv & Hl). apply list_elem_of_fmap in Hl as (row & -> & Hrow).
    apply elem_of_take_drop in Hrow as (di & Hdi & Hrow).
    apply elem_of_take_drop in Hv as (dj & Hdj & Hv).
    exists di, dj. split_and!; [done|done|]. apply px_Some. eauto.
  - intros (di & dj & Hdi & Hdj & Hpx). apply px_Some in Hpx as (row & Hrow & Hv).
    exists (take 3 (drop (j - 1) row)). split.
    + apply elem_of_take_drop. eauto.
    + apply list_elem_of_fmap. exists row. split; [done|].
      apply elem_of_take_drop. eauto.
Qed.

Lemma px_np_pad (L : matrix) (i j : nat) :
  is_Some (px L (i, j)) → px (np_pad L) (S i, S j) = px L (i, j).
Proof.
  intros [v Hv]. rewrite Hv. apply px_Some in Hv as (row & Hrow & Hv). simpl in *.
  apply px_Some. exists (0 :: row ++ [0]). simpl. split.
  - rewrite lookup_app_l by (rewrite length_map; by eapply lookup_lt_Some).
    by rewrite list_lookup_fmap, Hrow.
  - rewrite lookup_app_l by (by eapply lookup_lt_Some). done.
Qed.

Lemma px_np_pad_inv (L : matrix) (a b : nat) (v : Z) :
  px (np_pad L) (a, b) = Some v → v ≠ 0 →
  ∃ i j, a = S i ∧ b = S j ∧ px L (i, j) = Some v.
Proof.
  intros Hpx Hv. apply px_Some in Hpx as (row & Hrow & Hb). simpl in *.
  assert (Hborder : ∀ n, replicate n 0 !! b = Some v → False).
  { intros n [-> _]%lookup_replicate. done. }
  destruct a as [|i]; simpl in Hrow.
  - injection Hrow as <-. by apply Hborder in Hb.
  - apply lookup_app_Some in Hrow as [Hrow|[_ Hrow]].
    + rewrite list_lookup_fmap in Hrow.
      destruct (L !! i) as [r|] eqn:Er; [|done]. injection Hrow as <-.
      destruct b as [|j]; simpl in Hb; [congruence|].
      apply lookup_app_Some in Hb as [Hb|[_ Hb]].
      * exists i, j. split_and!; [done|done|]. apply px_Some. eauto.
      * apply list_lookup_singleton_Some in Hb as [_ <-]. done.
    + apply list_lookup_singleton_Some in Hrow as [_ <-]. by apply Hborder in Hb.
Qed.

Lemma elem_of_scan_range (L : matrix) (a b : nat) :
  (a, b) ∈ scan_range (np_pad L) ↔
  (1 ≤ a ≤ length L)%nat ∧ (1 ≤ b ≤ length (hd [] L))%nat.
Proof.
  unfold scan_range. rewrite list_elem_of_bind.
  assert (Hlen : (length (np_pad L) - 2 = length L)%nat).
  { unfold np_pad. simpl. rewrite length_app, length_map. simpl. lia. }
  assert (Hw : (length (hd [] (np_pad L)) - 2 = length (hd [] L))%nat).
  { unfold np_pad. simpl. rewrite length_replicate. lia. }
  rewrite Hlen, Hw. split.
  - intros (i & Hj & Hi). apply list_elem_of_bind in Hj as (j & Hij & Hj).
    apply list_elem_of_singleton in Hij as [= -> ->].
    apply elem_of_seq in Hi. apply elem_of_seq in Hj. lia.
  - intros [Ha Hb]. exists a. split; [|apply elem_of_seq; lia].
    apply list_elem_of_bind. exists b. split; [by left|apply elem_of_seq; lia].
Qed.

Lemma rect_scan_range (L : matrix) (i j : nat) :
  rect L → is_Some (px L (i, j)) → (S i, S j) ∈ scan_range (np_pad L).
Proof.
  intros Hrect [v Hv]. apply px_Some in Hv as (row & Hrow & Hv). simpl in *.
  apply elem_of_scan_range.
  pose proof (lookup_lt_Some _ _ _ Hrow). pose proof (lookup_lt_Some _ _ _ Hv).
  unfold rect in Hrect. rewrite Forall_forall in Hrect.
  rewrite <- (Hrect row) by (by eapply list_elem_of_lookup_2). lia.
Qed.

Lemma elem_of_set_add (x y : Z) (s : list Z) : y ∈ set_add x s ↔ y ∈ s ∨ y = x.
Proof.
  unfold set_add. case_decide as Hx.
  - split; [by left|]. by intros [?| ->].
  - rewrite elem_of_app, list_elem_of_singleton. done.
Qed.

Lemma in_touching_add (c n : Z) (t : touching_dict) (u v : Z) :
  in_touching (touching_add c n t) u v ↔ in_touching t u v ∨ (u = c ∧ v = n).
Proof.
  unfold in_touching, touching_add. setoid_rewrite dict_get_set.
  destruct (decide (u = c)) as [->|Hne].
  - split.
    + intros (ns' & [= <-] & Hv). apply elem_of_set_add in Hv as [Hv| ->]; [|by right].
      left. destruct (dict_get c t) as [ns|]; [eauto|]. by apply elem_of_nil in Hv.
    + intros [(ns & Hg & Hv)|[_ ->]]; eexists; (split; [done|]); apply elem_of_set_add.
      * left. by rewrite Hg.
      * by right.
  - split; [intros ?; by left|]. by intros [?|[? _]].
Qed.

Lemma touching_add_NoDup (c n : Z) (t : touching_dict) :
  NoDup t.*1 → NoDup (touching_add c n t).*1.
Proof. apply dict_set_NoDup. Qed.

Lemma scan_pixel_spec (padded : matrix) (t : touching_dict) (ij : pixel) :
  NoDup t.*1 →
  NoDup (scan_pixel padded t ij).*1
  ∧ ∀ u v, in_touching (scan_pixel padded t ij) u v ↔
           in_touching t u v
           ∨ (px padded ij = Some u ∧ u ≠ 0 ∧ v ∈ neighborhood padded ij.1 ij.2
              ∧ v ≠ u ∧ v ≠ 0).
Proof.
  unfold scan_pixel. intros Hnd.
  destruct (px padded ij) as [center|]; [|split; [done|]; intros; split; [by left|by intros [?|[? _]]]].
  destruct (decide (center = 0)) as [->|Hc].
  { split; [done|]. intros u v. split; [by left|]. intros [?|([= <-] & ? & _)]; done. }
  generalize (neighborhood padded ij.1 ij.2). intros ns.
  revert t Hnd. induction ns as [|n ns IH]; intros t Hnd; cbn [fold_left].
  - split; [done|]. intros u v. split; [by left|].
    intros [?|(_ & _ & ?%elem_of_nil & _)]; done.
  - destruct (decide (n ≠ center ∧ n ≠ 0)) as [[Hn1 Hn2]|Hn].
    + destruct (IH (touching_add center n t)) as [Hnd' Hspec];
        [by apply touching_add_NoDup|].
      split; [done|]. intros u v. rewrite Hspec, in_touching_add, elem_of_cons.
      split.
      * intros [[?|[-> ->]]|([= <-] & ? & ? & ? & ?)]; [by left|right|right]; eauto 10.
      * intros [?|([= <-] & ? & [->|?] & ? & ?)]; [left; by left|left; by right|right; eauto 10].
    + destruct (IH t Hnd) as [Hnd' Hspec]. split; [done|].
      intros u v. rewrite Hspec, elem_of_cons. split.
      * intros [?|([= <-] & ? & ? & ? & ?)]; [by left|right; eauto 10].
      * intros [?|([= <-] & ? & [->|?] & ? & ?)]; [by left| |right; eauto 10].
        exfalso. apply Hn. done.
Qed.

Lemma scan_fold_spec (padded : matrix) (ps : list pixel) (t : touching_dict) :
  NoDup t.*1 →
  NoDup (fold_left (scan_pixel padded) ps t).*1
  ∧ ∀ u v, in_touching (fold_left (scan_pixel padded) ps t) u v ↔
           in_touching t u v
           ∨ ∃ ij, ij ∈ ps ∧ px padded ij = Some u ∧ u ≠ 0
                   ∧ v ∈ neighborhood padded ij.1 ij.2 ∧ v ≠ u ∧ v ≠ 0.
Proof.
  revert t. induction ps as [|ij ps IH]; intros t Hnd; cbn [fold_left].
  - split; [done|]. intros u v. split; [by left|].
    intros [?|(? & ?%elem_of_nil & _)]; done.
  - destruct (scan_pixel_spec padded t ij Hnd) as [Hnd1 Hspec1].
    destruct (IH _ Hnd1) as [Hnd2 Hspec2]. split; [done|].
    intros u v. rewrite Hspec2, Hspec1. setoid_rewrite elem_of_cons. split.
    + intros [[?|?]|(ij' & ? & ?)]; [by left|right; exists ij; eauto|right; exists ij'; eauto].
    + intros [?|(ij' & [->|?] & ?)]; [left; by left|left; by right|right; exists ij'; eauto].
Qed.

(** The dictionary built by the scan holds exactly the touching pairs. *)
Lemma scan_touching_spec (L : matrix) :
  rect L →
  NoDup (scan_touching (np_pad L)).*1
  ∧ ∀ u v, in_touching (scan_touching (np_pad L)) u v ↔ touches L u v.
Proof.
  intros Hrect. unfold scan_touching.
  destruct (scan_fold_spec (np_pad L) (scan_range (np_pad L)) []) as [Hnd Hspec];
    [constructor|].
  split; [done|]. intros u v. rewrite Hspec. split.
  - intros [(ns & ? & _)|([a b] & Hin & Hu & Hu0 & Hv & Hvu & Hv0)]; [done|].
    apply px_np_pad_inv in Hu as (i & j & -> & -> & Hu); [|done].
    apply elem_of_neighborhood in Hv as (di & dj & Hdi & Hdj & Hv).
    apply px_np_pad_inv in Hv as (i' & j' & Hi' & Hj' & Hv); [|done].
    cbn [fst snd] in *.
    split_and!; [done|done|congruence|].
    exists (i, j), (i', j'). split_and!; [|done|done].
    unfold adjacent, dist. cbn [fst snd].
    destruct (decide (i' = i ∧ j' = j)) as [[-> ->]|Hneq]; [congruence|]. lia.
  - intros (Hu0 & Hv0 & Huv & [i j] & [i' j'] & Hadj & Hu & Hv). right.
    exists (S i, S j). split_and!; try done.
    + apply rect_scan_range; [done|eauto].
    + rewrite px_np_pad; eauto.
    + apply elem_of_neighborhood. cbn [fst snd].
      unfold adjacent, dist in Hadj. cbn [fst snd] in Hadj.
      exists (S i' - i)%nat, (S j' - j)%nat. split_and!; [lia|lia|].
      replace (S i - 1 + (S i' - i))%nat with (S i') by lia.
      replace (S j - 1 + (S j' - j))%nat with (S j') by lia.
      rewrite px_np_pad; eauto.
Qed.

(** ** [relabel_sequential] *)

Lemma StronglySorted_lt_NoDup (l : list Z) : StronglySorted Z.lt l → NoDup l.
Proof.
  induction 1 as [|x l _ IH Hall]; [constructor|].
  apply NoDup_cons. split; [|done].
  intros Hin. rewrite Forall_forall in Hall. apply Hall in Hin. lia.
Qed.

Lemma StronglySorted_filter (P : Z → Prop) `{∀ x, Decision (P x)} (l : list Z) :
  StronglySorted Z.lt l → StronglySorted Z.lt (filter P l).
Proof.
  induction 1 as [|x l _ IH Hall]; [constructor|].
  rewrite filter_cons. case_decide; [|done].
  constructor; [done|]. apply Forall_forall. intros y [_ Hy]%list_elem_of_filter.
  rewrite Forall_forall in Hall. by apply Hall.
Qed.

Lemma index_of_Some (x : Z) (l : list Z) (i : nat) :
  index_of x l = Some i → l !! i = Some x.
Proof.
  revert i. induction l as [|y l IH]; intros i; simpl; [done|].
  case_decide as Hxy; [by intros [= <-]; subst|].
  intros Hi. apply fmap_Some in Hi as (i' & Hi' & ->). by apply IH.
Qed.

Lemma index_of_NoDup (x : Z) (l : list Z) (i : nat) :
  NoDup l → l !! i = Some x → index_of x l = Some i.
Proof.
  revert i. induction l as [|y l IH]; intros i Hnd Hi; [done|].
  apply NoDup_cons in Hnd as [Hy Hnd]. simpl. destruct i as [|i]; simpl in Hi.
  - injection Hi as ->. by rewrite decide_True.
  - rewrite decide_False.
    + by rewrite (IH i).
    + intros ->. apply Hy. by eapply list_elem_of_lookup_2.
Qed.

Lemma index_of_elem_of (x : Z) (l : list Z) : x ∈ l → is_Some (index_of x l).
Proof.
  induction l as [|y l IH]; [by intros ?%elem_of_nil|]. simpl.
  case_decide; [eauto|]. intros [?|Hin]%elem_of_cons; [done|].
  destruct (IH Hin) as [i ->]. eauto.
Qed.

Lemma index_of_None (x : Z) (l : list Z) : x ∉ l → index_of x l = None.
Proof.
  intros Hx. destruct (index_of x l) as [i|] eqn:Ei; [|done].
  exfalso. apply Hx. apply index_of_Some in Ei. by eapply list_elem_of_lookup_2.
Qed.

Lemma filter_all {A} (P : A → Prop) `{∀ x, Decision (P x)} (l : list A) :
  (∀ x, x ∈ l → P x) → filter P l = l.
Proof.
  induction l as [|a l IH]; intros Hall; [done|].
  rewrite filter_cons, decide_True by (apply Hall; by left).
  f_equal. apply IH. intros x Hx. apply Hall. by right.
Qed.

(** The rank that [relabel_sequential] gives to a nonzero value: its
    position among the sorted nonzero values, counted from 1. *)
Lemma relabel_rank (in_vals : list Z) (v : Z) (i : nat) :
  StronglySorted Z.lt in_vals → Forall (λ x, 0 ≤ x) in_vals →
  index_of v (filter (λ x, x ≠ 0) in_vals) = Some i →
  map_array in_vals (relabel_out_vals in_vals) v = Z.of_nat (S i).
Proof.
  intros Hs Hpos Hi.
  assert (Hv : v ∈ filter (λ x, x ≠ 0) in_vals).
  { apply index_of_Some in Hi. by eapply list_elem_of_lookup_2. }
  apply list_elem_of_filter in Hv as [Hv0 Hv].
  assert (Hlt : (i < length (filter (λ x : Z, x ≠ 0%Z) in_vals))%nat).
  { apply index_of_Some in Hi. by eapply lookup_lt_Some. }
  destruct in_vals as [|x rest]; [by apply elem_of_nil in Hv|].
  apply StronglySorted_inv in Hs as [Hs Hall]. rewrite Forall_forall in Hall.
  apply Forall_cons in Hpos as [Hx Hpos].
  assert (Hrest : filter (λ x : Z, x ≠ 0) rest = rest).
  { apply filter_all. intros y Hy. apply Hall in Hy. lia. }
  unfold map_array, relabel_out_vals. rewrite filter_cons in Hi, Hlt.
  destruct (decide (x = 0)) as [->|Hx0].
  - rewrite decide_False in Hi, Hlt by (by intros ?). rewrite Hrest in Hi, Hlt.
    cbn [index_of]. rewrite decide_False by done. rewrite Hi. simpl.
    rewrite lookup_seqZ_lt by lia. simpl. f_equal. lia.
  - rewrite decide_True in Hi, Hlt by done. rewrite Hrest in Hi, Hlt.
    assert (Hout : (match x :: rest with
                    | 0 :: rest0 => 0 :: seqZ 1 (Z.of_nat (length rest0))
                    | _ => seqZ 1 (Z.of_nat (length (x :: rest)))
                    end) = seqZ 1 (Z.of_nat (length (x :: rest)))).
    { destruct x; done. }
    rewrite Hout, Hi. simpl. rewrite lookup_seqZ_lt by (simpl in Hlt; lia).
    simpl. f_equal. lia.
Qed.

Lemma relabel_zero (in_vals : list Z) :
  StronglySorted Z.lt in_vals → Forall (λ x, 0 ≤ x) in_vals →
  map_array in_vals (relabel_out_vals in_vals) 0 = 0.
Proof.
  intros Hs Hpos. unfold map_array, relabel_out_vals.
  destruct in_vals as [|x rest]; [done|].
  destruct (decide (x = 0)) as [->|Hx0].
  - cbn [index_of]. by rewrite decide_True.
  - rewrite index_of_None; [done|].
    apply StronglySorted_inv in Hs as [_ Hall]. rewrite Forall_forall in Hall.
    apply Forall_cons in Hpos as [Hx _].
    intros [?|Hin]%elem_of_cons; [done|]. apply Hall in Hin. lia.
Qed.


Lemma seqZ_sorted (m : Z) (n : nat) : StronglySorted Z.lt (seqZ m (Z.of_nat n)).
Proof.
  induction n as [|n IH]; [constructor|].
  rewrite seqZ_S. apply StronglySorted_app. split_and!; [|done|repeat constructor].
  intros x1 x2 Hx1 ->%list_elem_of_singleton. apply elem_of_seqZ in Hx1. lia.
Qed.

(** A strictly sorted list whose elements are 1, ..., N is that list. *)
Lemma sorted_range (l : list Z) (N : nat) :
  StronglySorted Z.lt l → (∀ v, v ∈ l ↔ 1 ≤ v ≤ Z.of_nat N) → l = seqZ 1 (Z.of_nat N).
Proof.
  intros Hs Hl. apply (StronglySorted_unique_strong Z.lt); [intros; lia|done|apply seqZ_sorted|].
  apply NoDup_Permutation; [by apply StronglySorted_lt_NoDup|apply NoDup_seqZ|].
  intros v. rewrite Hl, elem_of_seqZ. lia.
Qed.

Lemma relabel_sequential_Some (M : matrix) :
  ravel M ≠ [] → Forall (λ v, 0 ≤ v) (ravel M) →
  relabel_sequential M
  = Some (map (map (map_array (np_unique (ravel M))
                              (relabel_out_vals (np_unique (ravel M))))) M).
Proof.
  intros Hne Hpos. unfold relabel_sequential.
  remember (ravel M) as rv eqn:Erv. destruct rv as [|x rv]; [done|].
  rewrite decide_False; [done|].
  intros Hex. apply Exists_exists in Hex as (v & Hv & Hneg).
  rewrite Forall_forall in Hpos. apply Hpos in Hv. lia.
Qed.

(** On an array whose nonzero values are 1, ..., N, [relabel_sequential]
    changes nothing. *)
Lemma relabel_sequential_id (M : matrix) (N : nat) :
  ravel M ≠ [] →
  (∀ v, v ∈ ravel M → v = 0 ∨ 1 ≤ v ≤ Z.of_nat N) →
  (∀ v, 1 ≤ v ≤ Z.of_nat N → v ∈ ravel M) →
  relabel_sequential M = Some M.
Proof.
  intros Hne Hin Hall.
  assert (Hpos : Forall (λ v, 0 ≤ v) (ravel M)).
  { apply Forall_forall. intros v Hv. apply Hin in Hv. lia. }
  rewrite relabel_sequential_Some by done. f_equal.
  set (iv := np_unique (ravel M)).
  assert (Hsorted : StronglySorted Z.lt iv) by apply np_unique_sorted.
  assert (Hivpos : Forall (λ v, 0 ≤ v) iv).
  { apply Forall_forall. intros v Hv. unfold iv in Hv.
    apply (proj1 (elem_of_np_unique _ _)) in Hv.
    rewrite Forall_forall in Hpos. by apply Hpos. }
  assert (Hnz : filter (λ x, x ≠ 0) iv = seqZ 1 (Z.of_nat N)).
  { apply sorted_range; [by apply StronglySorted_filter|].
    intros v. unfold iv. rewrite list_elem_of_filter, elem_of_np_unique. split.
    - intros [Hv0 Hv]. apply Hin in Hv. lia.
    - intros Hv. split; [lia|by apply Hall]. }
  apply map_map_id_on. intros v Hv.
  destruct (decide (v = 0)) as [->|Hv0]; [by apply relabel_zero|].
  assert (Hvin : v ∈ filter (λ x, x ≠ 0) iv).
  { apply list_elem_of_filter. split; [done|]. by apply elem_of_np_unique. }
  destruct (index_of_elem_of v _ Hvin) as [i Hi].
  rewrite (relabel_rank iv v i) by done.
  apply index_of_Some in Hi. rewrite Hnz in Hi.
  apply lookup_seqZ in Hi as [-> _]. lia.
Qed.
(** ** [merge_touching_labels] *)

Lemma lookup_identity_map (ks : list Z) (x : Z) :
  (list_to_map (map (λ l, (l, l)) ks) : gmap Z Z) !! x
  = if decide (x ∈ ks) then Some x else None.
Proof.
  induction ks as [|k ks IH]; cbn [map list_to_map foldr].
  - rewrite lookup_empty. rewrite decide_False; [done|]. apply not_elem_of_nil.
  - cbn [fst snd uncurry]. rewrite lookup_insert. destruct (decide (k = x)) as [->|Hne].
    + rewrite decide_True; [done|]. by left.
    + rewrite IH. apply decide_ext. rewrite elem_of_cons. split; [by right|].
      intros [?|?]; [congruence|done].
Qed.

Lemma label_map_fold (ls : list Z) (lm0 : list (Z * Z)) (parent1 parent : gmap Z Z)
    (h : Z → nat) :
  forest parent1 h → dom parent1 = dom parent →
  (∀ x s, rep parent1 x s ↔ rep parent x s) →
  (∀ l, l ∈ ls → is_Some (parent !! l)) →
  ∃ lm parent',
    fold_left label_map_step ls (Some (lm0, parent1)) = Some (lm0 ++ lm, parent')
    ∧ lm.*1 = ls ∧ ∀ l r, (l, r) ∈ lm → rep parent l r.
Proof.
  revert lm0 parent1. induction ls as [|l ls IH]; intros lm0 parent1 Hf Hd Hreps Hls.
  - exists [], parent1. rewrite app_nil_r. split_and!; [done|done|].
    intros l r Hin. by apply elem_of_nil in Hin.
  - assert (Hl : is_Some (parent1 !! l)).
    { apply elem_of_dom. rewrite Hd. apply elem_of_dom, Hls. by left. }
    destruct (find_spec parent1 h l Hf Hl) as (r & parent2 & Hfind & Hr & Hf2 & Hd2 & Hreps2).
    destruct (IH (lm0 ++ [(l, r)]) parent2) as (lm & parent' & Hfold & Hkeys & Hlm).
    + done.
    + congruence.
    + intros x s. by rewrite Hreps2.
    + intros l' Hl'. apply Hls. by right.
    + exists ((l, r) :: lm), parent'. split_and!.
      * cbn [fold_left]. unfold label_map_step at 2. cbn [mbind option_bind].
        rewrite Hfind. cbn [mbind option_bind]. rewrite Hfold.
        by rewrite <- app_assoc.
      * by rewrite fmap_cons, Hkeys.
      * intros l' r' [[= -> ->]|Hin]%elem_of_cons; [by apply Hreps|by apply Hlm].
Qed.

Lemma shape_write_merged (L : matrix) (lm : list (Z * Z)) :
  shape (write_merged L lm) = shape L.
Proof.
  unfold write_merged.
  assert (Hz : shape (zeros_like L) = shape L) by apply shape_map.
  revert Hz. generalize (zeros_like L). induction lm as [|lr lm IH]; intros M HM; [done|].
  cbn [fold_left]. apply IH. rewrite shape_mask_assign; done.
Qed.

Lemma px_write_fold (L : matrix) (lm : list (Z * Z)) (M : matrix) (p : pixel) (a m : Z) :
  px L p = Some a → px M p = Some m →
  px (fold_left (λ merged lr, mask_assign (λ l, l =? lr.1) L (to_int32 lr.2) merged) lm M) p
  = Some (fold_left (λ acc lr, if a =? lr.1 then to_int32 lr.2 else acc) lm m).
Proof.
  intros Ha. revert M m. induction lm as [|lr lm IH]; intros M m Hm; [done|].
  cbn [fold_left]. apply IH. by rewrite px_mask_assign, Ha, Hm.
Qed.

Lemma write_merged_map (L : matrix) (lm : list (Z * Z)) :
  write_merged L lm = map (map (written_label lm)) L.
Proof.
  apply matrix_eq; [|by rewrite shape_write_merged, shape_map].
  intros p. rewrite px_map. destruct (px L p) as [a|] eqn:Ea; simpl.
  - unfold write_merged, written_label. apply px_write_fold; [done|].
    unfold zeros_like. by rewrite px_map, Ea.
  - apply eq_None_not_Some. intros Hs.
    apply (shape_px _ L) in Hs; [|apply shape_write_merged].
    rewrite Ea in Hs. by destruct Hs.
Qed.

Lemma written_label_fold (lm : list (Z * Z)) (a r0 m : Z) :
  (∀ r, (a, r) ∈ lm → r = r0) →
  fold_left (λ acc lr, if a =? lr.1 then to_int32 lr.2 else acc) lm m
  = if decide (a ∈ lm.*1) then to_int32 r0 else m.
Proof.
  revert m. induction lm as [|[l r] lm IH]; intros m Hr.
  - cbn [fold_left]. rewrite fmap_nil, decide_False; [done|]. apply not_elem_of_nil.
  - cbn [fold_left fst snd]. rewrite IH by (intros r' Hin; apply Hr; by right).
    rewrite fmap_cons. cbn [fst].
    destruct (Z.eqb_spec a l) as [->|Hne].
    + rewrite (Hr r) by (by left). rewrite (decide_True (P := l ∈ l :: _)) by (by left).
      by case_decide.
    + apply decide_ext. rewrite elem_of_cons. split; [by right|].
      by intros [?|?].
Qed.

Lemma to_int32_id (x : Z) : 0 ≤ x < 2 ^ 31 → to_int32 x = x.
Proof.
  intros Hx. unfold to_int32. rewrite Z.mod_small; lia.
Qed.

Lemma ravel_map (f : Z → Z) (M : matrix) :
  ravel (map (map f) M) = map f (ravel M).
Proof. unfold ravel. by rewrite concat_map. Qed.

Lemma matrix_max_spec (L : matrix) (m : Z) :
  matrix_max L = Some m → m ∈ ravel L ∧ ∀ x, x ∈ ravel L → x ≤ m.
Proof.
  unfold matrix_max. destruct (ravel L) as [|x l]; [done|]. intros [= <-].
  induction l as [|y l [IH1 IH2]]; simpl.
  - split; [by left|]. intros z ->%list_elem_of_singleton. lia.
  - split.
    + destruct (Z.max_spec y (foldr Z.max x l)) as [[_ ->]|[_ ->]].
      * apply elem_of_cons in IH1 as [->|?]; [by left|right; by right].
      * right. by left.
    + intros z Hz. apply elem_of_cons in Hz as [Hz|Hz].
      * specialize (IH2 z ltac:(subst; by left)). lia.
      * apply elem_of_cons in Hz as [Hz|Hz]; [lia|].
        specialize (IH2 z ltac:(by right)). lia.
Qed.

Lemma matrix_max_is_Some (L : matrix) : ravel L ≠ [] → is_Some (matrix_max L).
Proof. unfold matrix_max. destruct (ravel L); [done|eauto]. Qed.

Lemma elem_of_nonzero_labels (L : matrix) (a : Z) :
  a ∈ nonzero_labels L ↔ a ≠ 0 ∧ ∃ p, px L p = Some a.
Proof.
  unfold nonzero_labels, ravel.
  by rewrite list_elem_of_filter, elem_of_np_unique, elem_of_ravel.
Qed.

Lemma nonzero_labels_sorted (L : matrix) : StronglySorted Z.lt (nonzero_labels L).
Proof. apply StronglySorted_filter, np_unique_sorted. Qed.

Lemma NoDup_nonzero_labels (L : matrix) : NoDup (nonzero_labels L).
Proof. apply StronglySorted_lt_NoDup, nonzero_labels_sorted. Qed.

Lemma sorted_lookup_lower (l : list Z) (lo : Z) (i : nat) (x : Z) :
  StronglySorted Z.lt l → Forall (λ y, lo < y) l → l !! i = Some x →
  lo + Z.of_nat i < x.
Proof.
  intros Hs. revert lo i. induction Hs as [|y l Hs IH Hall]; intros lo i Hlo Hi; [done|].
  apply Forall_cons in Hlo as [Hy Hlo]. destruct i as [|i]; simpl in Hi.
  - injection Hi as ->. lia.
  - specialize (IH y i Hall Hi). lia.
Qed.

Section merge_correct.
Context (set_iter labels_iter : list Z → list Z).
Hypothesis set_iter_perm : ∀ l, set_iter l ≡ₚ l.
Hypothesis labels_iter_perm : ∀ l, labels_iter l ≡ₚ l.

Local Abbreviation parent0 L :=
  (list_to_map (map (λ l, (l, l)) (labels_iter (nonzero_labels L))) : gmap Z Z).

Lemma elem_of_set_iter x l : x ∈ set_iter l ↔ x ∈ l.
Proof. by rewrite set_iter_perm. Qed.

Lemma elem_of_labels_iter x l : x ∈ labels_iter l ↔ x ∈ l.
Proof. by rewrite labels_iter_perm. Qed.

Lemma elem_of_touching_pairs t u v :
  NoDup t.*1 → (u, v) ∈ touching_pairs set_iter t ↔ in_touching t u v.
Proof.
  intros Hnd. unfold touching_pairs, in_touching. rewrite list_elem_of_bind. split.
  - intros ([u' ns] & Hin & Hun). apply list_elem_of_bind in Hin as (v' & Hin & Hv').
    apply list_elem_of_singleton in Hin as [= -> ->]. cbn [fst snd] in *.
    exists ns. split; [by apply dict_get_elem_of|by apply elem_of_set_iter].
  - intros (ns & Hg & Hv). exists (u, ns). split; [|by apply dict_get_elem_of].
    apply list_elem_of_bind. exists v. split; [by left|by apply elem_of_set_iter].
Qed.

Lemma parent0_lookup L x :
  parent0 L !! x = if decide (x ∈ nonzero_labels L) then Some x else None.
Proof. rewrite lookup_identity_map. apply decide_ext, elem_of_labels_iter. Qed.

Lemma parent0_forest L : forest (parent0 L) (λ _, O).
Proof.
  intros u v. rewrite parent0_lookup. case_decide; [|done]. intros [= <-].
  split; [|done]. rewrite parent0_lookup. rewrite decide_True; eauto.
Qed.

Lemma parent0_rep L a r : rep (parent0 L) a r → r = a.
Proof.
  inversion 1 as [? Hu|? v ? Hu Hne _]; subst; [done|].
  rewrite parent0_lookup in Hu. case_decide; congruence.
Qed.

Lemma parent0_rep_refl L a : a ∈ nonzero_labels L → rep (parent0 L) a a.
Proof. intros Ha. constructor. rewrite parent0_lookup. by rewrite decide_True. Qed.

(** The union-find part of the function: it returns, and two labels end
    in one class exactly when a chain of touching labels links them. *)
Lemma merge_run L :
  rect L →
  ∃ parent h lm parent',
    union_touching set_iter (scan_touching (np_pad L)) (parent0 L) = Some parent
    ∧ build_label_map labels_iter (nonzero_labels L) parent = Some (lm, parent')
    ∧ forest parent h
    ∧ (∀ a, is_Some (parent !! a) ↔ a ∈ nonzero_labels L)
    ∧ (∀ a b, a ∈ nonzero_labels L → same_class parent a b ↔ merged_with L a b)
    ∧ lm.*1 = labels_iter (nonzero_labels L)
    ∧ (∀ l r, (l, r) ∈ lm → rep parent l r).
Proof.
  intros Hrect. destruct (scan_touching_spec L Hrect) as [Hnd Htouch].
  assert (Hpairs : ∀ u v, (u, v) ∈ touching_pairs set_iter (scan_touching (np_pad L))
                          ↔ touches L u v).
  { intros u v. by rewrite elem_of_touching_pairs, Htouch. }
  assert (Hlab : ∀ u v, touches L u v → u ∈ nonzero_labels L ∧ v ∈ nonzero_labels L).
  { intros u v (Hu & Hv & _ & p & q & _ & Hp & Hq).
    split; apply elem_of_nonzero_labels; eauto. }
  destruct (union_fold_spec (touching_pairs set_iter (scan_touching (np_pad L)))
              (parent0 L) (λ _, O) (parent0_forest L))
    as (parent & h & Hfold & Hf & Hd & Hold & Hnew & Hcl).
  { intros u v Huv. apply Hpairs, Hlab in Huv as [Hu Hv].
    rewrite !parent0_lookup, !decide_True by done. eauto. }
  assert (Hdom : ∀ a, is_Some (parent !! a) ↔ a ∈ nonzero_labels L).
  { intros a. rewrite <- elem_of_dom, Hd, elem_of_dom, parent0_lookup.
    case_decide; [split; eauto|]. split; [by intros [? ?]|done]. }
  assert (Hall : ∀ l, l ∈ labels_iter (nonzero_labels L) → is_Some (parent !! l)).
  { intros l Hl. by apply Hdom, elem_of_labels_iter. }
  destruct (label_map_fold (labels_iter (nonzero_labels L)) [] parent parent h
              Hf eq_refl (λ x s, reflexivity _) Hall)
    as (lm & parent' & Hbuild & Hkeys & Hlm).
  exists parent, h, lm, parent'. split_and!; try done.
  intros a b Ha. split.
  - intros Hab. apply Hcl in Hab. clear Ha. revert a b Hab.
    apply rtsc_closure_incl. intros a b [(r & Ha & Hb)|Hab].
    + apply parent0_rep in Ha as ->. apply parent0_rep in Hb as ->. reflexivity.
    + apply rtsc_lr. by apply Hpairs.
  - revert b. apply (rtc_ind_r (λ b, same_class parent a b)).
    + apply Hold. exists a. split; by apply parent0_rep_refl.
    + intros y z _ [Hyz|Hzy] IH.
      * eapply same_class_trans; [done|]. by apply Hnew, Hpairs.
      * eapply same_class_trans; [done|]. by apply same_class_sym, Hnew, Hpairs.
Qed.

Lemma merge_unfold L m parent lm parent' :
  matrix_max L = Some m → m ≠ 0 →
  union_touching set_iter (scan_touching (np_pad L)) (parent0 L) = Some parent →
  build_label_map labels_iter (nonzero_labels L) parent = Some (lm, parent') →
  merge_touching_labels set_iter labels_iter L
  = relabel_sequential (map (map (written_label lm)) L).
Proof.
  intros Hmax Hm Hunion Hbuild. unfold merge_touching_labels.
  rewrite Hmax. cbn [mbind option_bind]. rewrite decide_False by done.
  rewrite Hunion. cbn [mbind option_bind]. rewrite Hbuild. cbn [mbind option_bind].
  by rewrite write_merged_map.
Qed.

Lemma written_label_zero L lm :
  lm.*1 = labels_iter (nonzero_labels L) → written_label lm 0 = 0.
Proof.
  intros Hkeys. unfold written_label.
  rewrite (written_label_fold lm 0 0 0).
  - by case_decide.
  - intros r Hin. exfalso.
    assert (0 ∈ lm.*1) as H0 by (apply list_elem_of_fmap; by exists (0, r)).
    rewrite Hkeys in H0. apply elem_of_labels_iter, elem_of_nonzero_labels in H0 as [? _].
    done.
Qed.

Lemma written_label_root L (parent : gmap Z Z) lm a r :
  Forall (λ v, 0 ≤ v < 2 ^ 31) (ravel L) →
  (∀ a, is_Some (parent !! a) ↔ a ∈ nonzero_labels L) →
  lm.*1 = labels_iter (nonzero_labels L) →
  (∀ l r, (l, r) ∈ lm → rep parent l r) →
  a ∈ nonzero_labels L → rep parent a r →
  written_label lm a = r ∧ r ∈ nonzero_labels L.
Proof.
  intros Hrange Hdom Hkeys Hlm Ha Hr.
  assert (Hrl : r ∈ nonzero_labels L).
  { apply Hdom. apply rep_is_root in Hr. eauto. }
  split; [|done]. unfold written_label.
  rewrite (written_label_fold lm a r 0).
  - rewrite decide_True by (rewrite Hkeys; by apply elem_of_labels_iter).
    apply to_int32_id.
    apply elem_of_nonzero_labels in Hrl as [_ [p Hp]].
    rewrite Forall_forall in Hrange. apply Hrange, elem_of_ravel. eauto.
  - intros r' Hin. apply Hlm in Hin. by apply (rep_functional parent a).
Qed.

(** The whole function: it returns the input with every label [a]
    replaced by [F a], where [F] numbers the classes of touching labels
    from 1 to [N]. *)
Lemma merge_spec L :
  label_matrix_ok L →
  ∃ (F : Z → Z) (N : nat),
    merge_touching_labels set_iter labels_iter L = Some (map (map F) L)
    ∧ F 0 = 0
    ∧ (∀ a, a ∈ nonzero_labels L → 1 ≤ F a ≤ Z.of_nat N)
    ∧ (∀ k, 1 ≤ k ≤ Z.of_nat N → ∃ a, a ∈ nonzero_labels L ∧ F a = k)
    ∧ (∀ a b, a ∈ nonzero_labels L → b ∈ nonzero_labels L →
              F a = F b ↔ merged_with L a b)
    ∧ Z.of_nat N < 2 ^ 31.
Proof.
  intros (Hrect & Hne & Hrange).
  destruct (matrix_max_is_Some L Hne) as [m Hmax].
  pose proof (matrix_max_spec L m Hmax) as [Hm Hle].
  pose proof Hrange as Hrange'. rewrite Forall_forall in Hrange'.
  destruct (decide (m = 0)) as [->|Hm0].
  { assert (Hzero : ∀ a, a ∈ ravel L → a = 0).
    { intros a Ha. specialize (Hle a Ha). specialize (Hrange' a Ha). lia. }
    assert (Hnolab : ∀ a, a ∉ nonzero_labels L).
    { intros a [Ha0 [p Hp]]%elem_of_nonzero_labels. apply Ha0, Hzero, elem_of_ravel. eauto. }
    exists (λ _, 0), O. split_and!; try done.
    - unfold merge_touching_labels. rewrite Hmax. cbn [mbind option_bind].
      rewrite decide_True by done. f_equal. symmetry. apply map_map_id_on.
      intros a Ha. symmetry. by apply Hzero.
    - intros a Ha. by apply Hnolab in Ha.
    - intros k Hk. simpl in Hk. lia.
    - intros a b Ha. by apply Hnolab in Ha. }
  destruct (merge_run L Hrect)
    as (parent & h & lm & parent' & Hunion & Hbuild & Hf & Hdom & Hclass & Hkeys & Hlm).
  rewrite (merge_unfold L m parent lm parent' Hmax Hm0 Hunion Hbuild).
  set (g := written_label lm).
  assert (Hg0 : g 0 = 0) by (by apply (written_label_zero L)).
  assert (Hgroot : ∀ a, a ∈ nonzero_labels L →
            ∃ r, rep parent a r ∧ g a = r ∧ r ∈ nonzero_labels L).
  { intros a Ha. destruct (rep_exists parent h a Hf) as [r Hr]; [by apply Hdom|].
    exists r. split; [done|]. by apply (written_label_root L parent). }
  assert (Hinlab : ∀ a, a ∈ ravel L → a = 0 ∨ a ∈ nonzero_labels L).
  { intros a Ha. destruct (decide (a = 0)); [by left|right].
    apply elem_of_nonzero_labels. split; [done|]. by apply elem_of_ravel. }
  assert (Hlabrange : ∀ a, a ∈ nonzero_labels L → 0 < a < 2 ^ 31).
  { intros a [Ha0 [p Hp]]%elem_of_nonzero_labels.
    assert (0 ≤ a < 2 ^ 31); [|lia]. apply Hrange', elem_of_ravel. eauto. }
  assert (Hgval : ∀ v, v ∈ ravel (map (map g) L) →
            v = 0 ∨ ∃ a, a ∈ nonzero_labels L ∧ v = g a ∧ v ∈ nonzero_labels L).
  { intros v. rewrite ravel_map. intros (a & -> & Ha)%list_elem_of_fmap.
    destruct (Hinlab a Ha) as [->|Hal]; [by left|].
    right. destruct (Hgroot a Hal) as (r & _ & Hga & Hr).
    exists a. by rewrite Hga. }
  assert (Hne1 : ravel (map (map g) L) ≠ []).
  { rewrite ravel_map. intros Hnil. apply fmap_nil_inv in Hnil. done. }
  assert (Hpos1 : Forall (λ v, 0 ≤ v) (ravel (map (map g) L))).
  { apply Forall_forall. intros v [->|(a & _ & _ & Hv)]%Hgval; [done|].
    apply Hlabrange in Hv. lia. }
  rewrite (relabel_sequential_Some _ Hne1 Hpos1).
  set (iv := np_unique (ravel (map (map g) L))).
  set (rk := map_array iv (relabel_out_vals iv)).
  set (nz := filter (λ x, x ≠ 0) iv).
  assert (Hsorted : StronglySorted Z.lt iv) by apply np_unique_sorted.
  assert (Hivpos : Forall (λ v, 0 ≤ v) iv).
  { apply Forall_forall. intros v Hv. unfold iv in Hv.
    apply (proj1 (elem_of_np_unique _ _)) in Hv.
    rewrite Forall_forall in Hpos1. by apply Hpos1. }
  assert (Hnzsorted : StronglySorted Z.lt nz) by (by apply StronglySorted_filter).
  assert (Hnznodup : NoDup nz) by (by apply StronglySorted_lt_NoDup).
  assert (Hnzin : ∀ v, v ∈ nz ↔ v ≠ 0 ∧ v ∈ ravel (map (map g) L)).
  { intros v. unfold nz, iv. by rewrite list_elem_of_filter, elem_of_np_unique. }
  assert (Hrank : ∀ a, a ∈ nonzero_labels L →
            ∃ i r, rep parent a r ∧ nz !! i = Some r ∧ rk (g a) = Z.of_nat (S i)).
  { intros a Ha. destruct (Hgroot a Ha) as (r & Hr & Hga & Hrl).
    assert (Hrnz : r ∈ nz).
    { apply Hnzin. split; [apply Hlabrange in Hrl; lia|].
      rewrite ravel_map, <- Hga. apply list_elem_of_fmap_2.
      apply elem_of_nonzero_labels in Ha as [_ [p Hp]]. apply elem_of_ravel. eauto. }
    destruct (index_of_elem_of r nz Hrnz) as [i Hi].
    exists i, r. split_and!; [done|by apply index_of_Some|].
    rewrite Hga. by apply relabel_rank. }
  exists (λ a, rk (g a)), (length nz). split_and!.
  - f_equal. rewrite map_map. apply map_ext. intros row. by rewrite map_map.
  - cbv beta. rewrite Hg0. by apply relabel_zero.
  - intros a Ha. destruct (Hrank a Ha) as (i & r & _ & Hi & ->).
    apply lookup_lt_Some in Hi. lia.
  - intros k Hk.
    destruct (lookup_lt_is_Some_2 nz (Z.to_nat (k - 1))) as [v Hv]; [lia|].
    assert (Hvnz : v ∈ nz) by (by eapply list_elem_of_lookup_2).
    apply Hnzin in Hvnz as [Hv0 Hvin].
    apply Hgval in Hvin as [?|(a & Ha & Hva & _)]; [done|].
    exists a. split; [done|]. cbv beta. rewrite <- Hva. unfold rk.
    rewrite (relabel_rank iv v (Z.to_nat (k - 1))); [lia|done|done|].
    by apply index_of_NoDup.
  - intros a b Ha Hb. cbv beta.
    destruct (Hrank a Ha) as (i & r & Hr & Hi & ->).
    destruct (Hrank b Hb) as (j & s & Hs & Hj & ->).
    rewrite <- (Hclass a b Ha). split.
    + intros Hij. assert (i = j) as <- by lia.
      assert (r = s) as <- by congruence. by exists r.
    + intros (t & Hta & Htb).
      assert (t = r) as -> by (by apply (rep_functional parent a)).
      assert (s = r) as -> by (by apply (rep_functional parent b)).
      by rewrite (NoDup_lookup nz i j r).
  - destruct (length nz) as [|n] eqn:En; [done|].
    destruct (lookup_lt_is_Some_2 nz n) as [v Hv]; [lia|].
    assert (Hvnz : v ∈ nz) by (by eapply list_elem_of_lookup_2).
    assert (Hlow : 0 + Z.of_nat n < v).
    { apply (sorted_lookup_lower nz); [done| |done].
      apply Forall_forall. intros x [Hx0 Hx]%Hnzin.
      rewrite Forall_forall in Hpos1. apply Hpos1 in Hx. lia. }
    apply Hnzin in Hvnz as [Hv0 Hvin].
    apply Hgval in Hvin as [?|(_ & _ & _ & Hvl)]; [done|].
    apply Hlabrange in Hvl. lia.
Qed.

(** Without touching labels, and with the labels 1, ..., N, the function
    changes nothing. *)
Lemma merge_untouched L (N : nat) :
  label_matrix_ok L →
  (∀ a b, ¬ touches L a b) →
  (∀ v, v ∈ nonzero_labels L ↔ 1 ≤ v ≤ Z.of_nat N) →
  merge_touching_labels set_iter labels_iter L = Some L.
Proof.
  intros (Hrect & Hne & Hrange) Hno Hlabels.
  destruct (matrix_max_is_Some L Hne) as [m Hmax].
  destruct (decide (m = 0)) as [->|Hm0].
  { unfold merge_touching_labels. rewrite Hmax. cbn [mbind option_bind].
    by rewrite decide_True. }
  destruct (merge_run L Hrect)
    as (parent & h & lm & parent' & Hunion & Hbuild & Hf & Hdom & Hclass & Hkeys & Hlm).
  rewrite (merge_unfold L m parent lm parent' Hmax Hm0 Hunion Hbuild).
  assert (Hpairs : touching_pairs set_iter (scan_touching (np_pad L)) = []).
  { destruct (scan_touching_spec L Hrect) as [Hnd Htouch].
    apply elem_of_nil_inv. intros [u v] Huv.
    apply elem_of_touching_pairs in Huv; [|done]. by apply Htouch, Hno in Huv. }
  unfold union_touching in Hunion. rewrite Hpairs in Hunion.
  cbn [fold_left] in Hunion. injection Hunion as <-.
  assert (Hid : map (map (written_label lm)) L = L).
  { apply map_map_id_on. intros a Ha.
    destruct (decide (a = 0)) as [->|Ha0]; [by apply (written_label_zero L)|].
    assert (Hal : a ∈ nonzero_labels L).
    { apply elem_of_nonzero_labels. split; [done|]. by apply elem_of_ravel. }
    by apply (written_label_root L (parent0 L) lm a a); [..|apply parent0_rep_refl]. }
  rewrite Hid. apply (relabel_sequential_id L N); [done| |].
  - intros v Hv. destruct (decide (v = 0)); [by left|right].
    apply Hlabels, elem_of_nonzero_labels. split; [done|]. by apply elem_of_ravel.
  - intros v Hv. apply Hlabels, elem_of_nonzero_labels in Hv as [_ Hp].
    by apply elem_of_ravel.
Qed.
End merge_correct.

Lemma count_nonzero_map (F : Z → Z) (L : matrix) :
  (∀ a, a ∈ ravel L → F a ≠ 0 ↔ a ≠ 0) →
  count_nonzero (map (map F) L) = count_nonzero L.
Proof.
  unfold count_nonzero. rewrite ravel_map. generalize (ravel L).
  intros l. induction l as [|a l IH]; intros HF; [done|].
  rewrite fmap_cons, !filter_cons.
  assert (Ha : F a ≠ 0 ↔ a ≠ 0) by (apply HF; by left).
  assert (IH' : length (filter (λ v, v ≠ 0) (map F l)) = length (filter (λ v, v ≠ 0) l)).
  { apply IH. intros b Hb. apply HF. by right. }
  destruct (decide (F a ≠ 0)) as [H1|H1]; destruct (decide (a ≠ 0)) as [H2|H2];
    cbn [length]; try (f_equal; exact IH'); try exact IH'; tauto.
Qed.

Lemma rect_map (F : Z → Z) (L : matrix) : rect L → rect (map (map F) L).
Proof.
  unfold rect. rewrite !Forall_forall. intros Hrect r Hr.
  apply list_elem_of_fmap in Hr as (r0 & -> & Hr0). rewrite length_map, (Hrect r0 Hr0).
  destruct L as [|r1 L]; [done|]. simpl. by rewrite length_map.
Qed.

(** A list of the witnesses of a property that holds for 1, ..., N. *)
Lemma choose_list {A} (P : A → Z → Prop) (N : nat) :
  (∀ k, 1 ≤ k ≤ Z.of_nat N → ∃ a, P a k) →
  ∃ l, length l = N ∧ ∀ i a, l !! i = Some a → P a (Z.of_nat (S i)).
Proof.
  induction N as [|N IH]; intros Hex.
  - exists []. split; [done|]. intros i a Hi. done.
  - destruct IH as (l & Hlen & Hl); [intros k Hk; apply Hex; lia|].
    destruct (Hex (Z.of_nat (S N))) as [a Ha]; [lia|].
    exists (l ++ [a]). split; [rewrite length_app; simpl; lia|].
    intros i b Hi. apply lookup_app_Some in Hi as [Hi|[Hge Hi]]; [by apply Hl|].
    apply list_lookup_singleton_Some in Hi as [Hi <-].
    replace i with N by lia. done.
Qed.

Section merge_claims.
Context (set_iter labels_iter : list Z → list Z).
Hypothesis set_iter_perm : ∀ l, set_iter l ≡ₚ l.
Hypothesis labels_iter_perm : ∀ l, labels_iter l ≡ₚ l.

Lemma is_label_nonzero_labels L a : is_label L a ↔ a ∈ nonzero_labels L.
Proof. by rewrite elem_of_nonzero_labels. Qed.

(** C2. On a label matrix [merge_touching_labels] returns an array of
    the same shape in which two labelled pixels carry one label exactly
    when a chain of touching labels links their input labels; the labels
    of the output are exactly 1, ..., N, and N is the number of classes:
    [reps] lists one input label of each class. *)
Theorem merge_touching_labels_classes (L : matrix) :
  label_matrix_ok L →
  ∃ (M : matrix) (N : nat),
    merge_touching_labels set_iter labels_iter L = Some M
    ∧ shape M = shape L
    ∧ (∀ p q a b m n,
         px L p = Some a → px L q = Some b → a ≠ 0 → b ≠ 0 →
         px M p = Some m → px M q = Some n →
         m = n ↔ merged_with L a b)
    ∧ (∀ k, (k ≠ 0 ∧ ∃ p, px M p = Some k) ↔ 1 ≤ k ≤ Z.of_nat N)
    ∧ ∃ reps : list Z,
        length reps = N
        ∧ (∀ r, r ∈ reps → is_label L r)
        ∧ (∀ i j r s, reps !! i = Some r → reps !! j = Some s →
                      merged_with L r s → i = j)
        ∧ (∀ a, is_label L a → ∃ r, r ∈ reps ∧ merged_with L a r).
Proof using set_iter_perm labels_iter_perm.
  intros Hok.
  destruct (merge_spec set_iter labels_iter set_iter_perm labels_iter_perm L Hok)
    as (F & N & Hrun & HF0 & Hrange & Hsurj & Hclass & _).
  exists (map (map F) L), N. split_and!; [done|apply shape_map| | |].
  - intros p q a b m n Ha Hb Ha0 Hb0. rewrite !px_map, Ha, Hb.
    intros [= <-] [= <-]. apply Hclass; apply is_label_nonzero_labels; split; eauto.
  - intros k. split.
    + intros [Hk0 [p Hp]]. rewrite px_map in Hp.
      apply fmap_Some in Hp as (a & Ha & ->).
      apply Hrange, is_label_nonzero_labels. split; [congruence|eauto].
    + intros Hk. destruct (Hsurj k Hk) as (a & Ha & <-).
      apply is_label_nonzero_labels in Ha as [Ha0 [p Hp]].
      split; [|exists p; by rewrite px_map, Hp].
      assert (1 ≤ F a ≤ Z.of_nat N); [|lia].
      apply Hrange, is_label_nonzero_labels. split; eauto.
  - destruct (choose_list (λ a k, a ∈ nonzero_labels L ∧ F a = k) N Hsurj)
      as (reps & Hlen & Hreps).
    exists reps. split_and!; [done| | |].
    + intros r [i Hi]%list_elem_of_lookup.
      apply is_label_nonzero_labels. by apply (Hreps i r).
    + intros i j r s Hi Hj Hrs.
      destruct (Hreps i r Hi) as [Hr HFr]. destruct (Hreps j s Hj) as [Hs HFs].
      apply Hclass in Hrs; [|done|done]. lia.
    + intros a Ha%is_label_nonzero_labels.
      pose proof (Hrange a Ha) as Hk.
      destruct (lookup_lt_is_Some_2 reps (Z.to_nat (F a - 1))) as [r Hr]; [lia|].
      exists r. split; [by eapply list_elem_of_lookup_2|].
      destruct (Hreps _ r Hr) as [Hrl HFr].
      apply Hclass; [done|done|lia].
Qed.

(** C3. The output is nonzero exactly where the input is, so the number
    of foreground pixels is kept; and when the input has exactly two
    labels and they touch, every labelled pixel of the output carries
    label 1. *)
Theorem merge_touching_labels_foreground (L : matrix) :
  label_matrix_ok L →
  ∃ M : matrix,
    merge_touching_labels set_iter labels_iter L = Some M
    ∧ shape M = shape L
    ∧ (∀ p a, px L p = Some a → ∃ m, px M p = Some m ∧ (m ≠ 0 ↔ a ≠ 0))
    ∧ count_nonzero M = count_nonzero L
    ∧ (∀ a b,
         is_label L a → is_label L b → a ≠ b →
         (∀ c, is_label L c → c = a ∨ c = b) →
         (∃ p q, adjacent true p q ∧ px L p = Some a ∧ px L q = Some b) →
         ∀ p c, px L p = Some c → px M p = Some (if decide (c = 0) then 0 else 1)).
Proof using set_iter_perm labels_iter_perm.
  intros Hok.
  destruct (merge_spec set_iter labels_iter set_iter_perm labels_iter_perm L Hok)
    as (F & N & Hrun & HF0 & Hrange & Hsurj & Hclass & _).
  assert (Hnz : ∀ a, a ∈ ravel L → F a ≠ 0 ↔ a ≠ 0).
  { intros a Ha. split; [congruence|]. intros Ha0.
    assert (1 ≤ F a ≤ Z.of_nat N); [|lia].
    apply Hrange, elem_of_nonzero_labels. split; [done|]. by apply elem_of_ravel. }
  exists (map (map F) L). split_and!; [done|apply shape_map| |by apply count_nonzero_map|].
  - intros p a Ha. exists (F a). rewrite px_map, Ha. split; [done|].
    apply Hnz, elem_of_ravel. eauto.
  - intros a b Ha Hb Hab Honly (p & q & Hadj & Hp & Hq) p' c Hc.
    rewrite px_map, Hc. simpl. f_equal.
    destruct (decide (c = 0)) as [->|Hc0]; [done|].
    apply is_label_nonzero_labels in Ha, Hb.
    assert (Hm : merged_with L a b).
    { apply rtsc_lr.
      pose proof (proj1 (elem_of_nonzero_labels _ _) Ha) as [Ha0 _].
      pose proof (proj1 (elem_of_nonzero_labels _ _) Hb) as [Hb0 _].
      split_and!; [done|done|done|]. by exists p, q. }
    apply Hclass in Hm; [|done|done].
    assert (HFc : F c = F a).
    { destruct (Honly c) as [->| ->]; [by split; eauto|done|done]. }
    pose proof (Hrange a Ha) as Hra.
    destruct (Hsurj 1) as (x & Hx & Hx1); [lia|].
    assert (F x = F a) as Hxa.
    { apply is_label_nonzero_labels in Hx.
      destruct (Honly x Hx) as [->| ->]; [done|by symmetry]. }
    lia.
Qed.

(** C9. In the output no two 8-connected neighbours carry two different
    nonzero labels, and the function applied to its output returns it
    unchanged. *)
Theorem merge_touching_labels_idempotent (L : matrix) :
  label_matrix_ok L →
  ∃ M : matrix,
    merge_touching_labels set_iter labels_iter L = Some M
    ∧ (∀ p q m n, adjacent true p q → px M p = Some m → px M q = Some n →
                  m ≠ 0 → n ≠ 0 → m = n)
    ∧ merge_touching_labels set_iter labels_iter M = Some M.
Proof using set_iter_perm labels_iter_perm.
  intros Hok.
  destruct (merge_spec set_iter labels_iter set_iter_perm labels_iter_perm L Hok)
    as (F & N & Hrun & HF0 & Hrange & Hsurj & Hclass & HN).
  destruct Hok as (Hrect & Hne & Hvals).
  assert (Hadj : ∀ p q m n, adjacent true p q →
            px (map (map F) L) p = Some m → px (map (map F) L) q = Some n →
            m ≠ 0 → n ≠ 0 → m = n).
  { intros p q m n Hpq Hp Hq Hm0 Hn0. rewrite px_map in Hp, Hq.
    apply fmap_Some in Hp as (a & Ha & ->). apply fmap_Some in Hq as (b & Hb & ->).
    assert (a ≠ 0) by congruence. assert (b ≠ 0) by congruence.
    destruct (decide (a = b)) as [->|Hab]; [done|].
    apply Hclass;
      [apply elem_of_nonzero_labels; eauto|apply elem_of_nonzero_labels; eauto|].
    apply rtsc_lr. split_and!; [done|done|done|]. by exists p, q. }
  exists (map (map F) L). split_and!; [done|done|].
  apply (merge_untouched set_iter labels_iter set_iter_perm labels_iter_perm _ N).
  - split_and!.
    + by apply rect_map.
    + rewrite ravel_map. intros Hnil. by apply fmap_nil_inv in Hnil.
    + rewrite ravel_map. apply Forall_forall.
      intros v (a & -> & Ha)%list_elem_of_fmap.
      destruct (decide (a = 0)) as [->|Ha0]; [rewrite HF0; lia|].
      assert (1 ≤ F a ≤ Z.of_nat N); [|lia].
      apply Hrange, elem_of_nonzero_labels. split; [done|]. by apply elem_of_ravel.
  - intros x y (Hx0 & Hy0 & Hxy & p & q & Hpq & Hp & Hq).
    apply Hxy. by apply (Hadj p q).
  - intros v. rewrite elem_of_nonzero_labels. split.
    + intros [Hv0 [p Hp]]. rewrite px_map in Hp. apply fmap_Some in Hp as (a & Ha & ->).
      apply Hrange, elem_of_nonzero_labels. split; [congruence|eauto].
    + intros Hv. destruct (Hsurj v Hv) as (a & Ha & <-).
      pose proof (Hrange a Ha).
      apply elem_of_nonzero_labels in Ha as [Ha0 [p Hp]].
      split; [lia|]. exists p. by rewrite px_map, Hp.
Qed.
End merge_claims.

Lemma merge_touching_labels_classes_witness :
  label_matrix_ok merge_demo
  ∧ ∃ (M : matrix) (N : nat),
      merge_touching_labels (λ l, l) (λ l, l) merge_demo = Some M
      ∧ ∀ k, (k ≠ 0 ∧ ∃ p, px M p = Some k) ↔ 1 ≤ k ≤ Z.of_nat N.
Proof.
  assert (Hok : label_matrix_ok merge_demo) by by_computation.
  split; [exact Hok|].
  destruct (merge_touching_labels_classes (λ l, l) (λ l, l) (λ l, reflexivity l) (λ l, reflexivity l) merge_demo Hok)
    as (M & N & Hrun & _ & _ & Hlabels & _).
  exists M, N. split; [exact Hrun|exact Hlabels].
Defined.

Lemma merge_touching_labels_foreground_witness :
  label_matrix_ok merge_demo
  ∧ ∃ M : matrix,
      merge_touching_labels reverse (λ l, l) merge_demo = Some M
      ∧ count_nonzero M = count_nonzero merge_demo.
Proof.
  assert (Hok : label_matrix_ok merge_demo) by by_computation.
  split; [exact Hok|].
  destruct (merge_touching_labels_foreground reverse (λ l, l) reverse_Permutation (λ l, reflexivity l) merge_demo Hok)
    as (M & Hrun & _ & _ & Hcount & _).
  exists M. split; [exact Hrun|exact Hcount].
Defined.

Lemma merge_touching_labels_idempotent_witness :
  label_matrix_ok merge_demo
  ∧ ∃ M : matrix,
      merge_touching_labels (λ l, l) (λ l, l) merge_demo = Some M
      ∧ merge_touching_labels (λ l, l) (λ l, l) M = Some M.
Proof.
  assert (Hok : label_matrix_ok merge_demo) by by_computation.
  split; [exact Hok|].
  destruct (merge_touching_labels_idempotent (λ l, l) (λ l, l) (λ l, reflexivity l) (λ l, reflexivity l) merge_demo Hok)
    as (M & Hrun & _ & Hidem).
  exists M. split; [exact Hrun|exact Hidem].
Defined.

(** Outside the label matrices the function can raise: [.max()] on an
    array without pixels, [relabel_sequential] on a negative label. *)
Example merge_touching_labels_empty : merge_touching_labels (λ l, l) (λ l, l) [] = None.
Proof. reflexivity. Qed.

Example merge_touching_labels_negative :
  merge_touching_labels (λ l, l) reverse [[-1; 0; 2]] = None.
Proof. by vm_compute. Qed.

(** The demonstration array: labels 5 and 3 touch, so do 7 and 8. *)
Example merge_touching_labels_demo :
  merge_touching_labels (λ l, l) (λ l, l) merge_demo
  = Some [[2; 2; 0; 4; 0];
          [0; 2; 0; 0; 0];
          [0; 0; 0; 3; 3];
          [1; 0; 0; 0; 3]].
Proof. by vm_compute. Qed.
(** ** [truncate_cell] *)

Lemma str_take_length (n : nat) (s : string) :
  String.length (str_take n s) = Nat.min n (String.length s).
Proof.
  revert s. induction n as [|n IH]; intros [|c s]; simpl; try done.
  by rewrite IH.
Qed.

Lemma str_append_length (s t : string) :
  String.length (s ++ t) = (String.length s + String.length t)%nat.
Proof. induction s as [|c s IH]; simpl; [done|]. by rewrite IH. Qed.

Lemma py_slice_to_length (s : string) (k : Z) :
  Z.of_nat (String.length (py_slice_to s k))
  = if 0 <=? k then Z.min k (Z.of_nat (String.length s))
    else Z.max 0 (Z.of_nat (String.length s) + k).
Proof.
  unfold py_slice_to. destruct (0 <=? k) eqn:Ek; rewrite str_take_length.
  - apply Z.leb_le in Ek. lia.
  - apply Z.leb_gt in Ek. lia.
Qed.

(** X1. With a width of at least 3, [truncate_cell] returns a string of at
    most [width] characters: the string itself when it fits, and otherwise
    its first [width - 3] characters followed by three dots, [width]
    characters in all. *)
Theorem truncate_cell_fits (val_str : string) (width : Z) :
  3 ≤ width →
  Z.of_nat (String.length (truncate_cell val_str width)) ≤ width
  ∧ (Z.of_nat (String.length val_str) ≤ width → truncate_cell val_str width = val_str)
  ∧ (width < Z.of_nat (String.length val_str) →
       truncate_cell val_str width
       = (str_take (Z.to_nat (width - 3)) val_str ++ "...")%string
       ∧ Z.of_nat (String.length (truncate_cell val_str width)) = width).
Proof.
  intros Hw. unfold truncate_cell.
  destruct (Z.of_nat (String.length val_str) <=? width) eqn:El.
  - apply Z.leb_le in El. split_and!; [done|done|lia].
  - apply Z.leb_gt in El.
    assert (Hlen : Z.of_nat (String.length (py_slice_to val_str (width - 3) ++ "...")) = width).
    { rewrite str_append_length, Nat2Z.inj_add, py_slice_to_length.
      rewrite (proj2 (Z.leb_le 0 (width - 3))) by lia. simpl. lia. }
    split_and!; [lia|lia|]. intros _. split; [|done].
    unfold py_slice_to. by rewrite (proj2 (Z.leb_le 0 (width - 3))) by lia.
Qed.

Lemma truncate_cell_fits_witness :
  truncate_cell "(12.5, 3.25, 7.125)" 15 = "(12.5, 3.25,..."
  ∧ Z.of_nat (String.length (truncate_cell "(12.5, 3.25, 7.125)" 15)) = 15.
Proof.
  destruct (truncate_cell_fits "(12.5, 3.25, 7.125)" 15) as (_ & _ & H); [lia|].
  destruct H as [H1 H2]; [simpl; lia|]. split; [by rewrite H1|exact H2].
Defined.

(** X2. With a width of at least 3, truncating twice is truncating once. *)
Theorem truncate_cell_idempotent (val_str : string) (width : Z) :
  3 ≤ width →
  truncate_cell (truncate_cell val_str width) width = truncate_cell val_str width.
Proof.
  intros Hw.
  assert (Hfit : Z.of_nat (String.length (truncate_cell val_str width)) ≤ width).
  { unfold truncate_cell.
    destruct (Z.of_nat (String.length val_str) <=? width) eqn:El.
    - by apply Z.leb_le in El.
    - rewrite str_append_length, Nat2Z.inj_add, py_slice_to_length.
      rewrite (proj2 (Z.leb_le 0 (width - 3))) by lia.
      apply Z.leb_gt in El. simpl. lia. }
  unfold truncate_cell at 1. by rewrite (proj2 (Z.leb_le _ _) Hfit).
Qed.

Lemma truncate_cell_idempotent_witness :
  truncate_cell (truncate_cell "macrophage" 5) 5 = truncate_cell "macrophage" 5.
Proof. apply truncate_cell_idempotent. lia. Defined.

(** X3. With a width below 3 the slice [val_str[:width-3]] counts from the
    end: a string longer than [width] comes back with at least three
    characters, [max(3, len + width)] of them, so never within [width]. *)
Theorem truncate_cell_narrow (val_str : string) (width : Z) :
  width < 3 → width < Z.of_nat (String.length val_str) →
  Z.of_nat (String.length (truncate_cell val_str width))
  = Z.max 3 (Z.of_nat (String.length val_str) + width)
  ∧ width < Z.of_nat (String.length (truncate_cell val_str width)).
Proof.
  intros Hw Hl. unfold truncate_cell.
  rewrite (proj2 (Z.leb_gt _ _)) by lia.
  rewrite str_append_length, Nat2Z.inj_add, py_slice_to_length.
  rewrite (proj2 (Z.leb_gt 0 (width - 3))) by lia. simpl. lia.
Qed.

Lemma truncate_cell_narrow_witness :
  Z.of_nat (String.length (truncate_cell "abcdef" 2)) = 8
  ∧ truncate_cell "abcdef" 2 = "abcde...".
Proof.
  destruct (truncate_cell_narrow "abcdef" 2) as [H _]; [lia|simpl; lia|].
  split; [exact H|reflexivity].
Defined.

(** ** [contr_limit], continued *)



Section contrast.
Context (c_min c_max : Q).
Hypothesis limits : (c_min < c_max)%Q.

Local Abbreviation alpha := (255 / (c_max - c_min))%Q.
Local Abbreviation beta := (- c_min * alpha)%Q.






End contrast.



Lemma contrast_default_pixel (z : Z) :
  0 ≤ z ≤ 255 →
  astype_int (np_clip (255 / (255 - 0) * inject_Z z + - 0 * (255 / (255 - 0))) 0 255) = z.
Proof.
  intros Hz.
  assert (Hv : (255 / (255 - 0) * inject_Z z + - 0 * (255 / (255 - 0)))%Q
               = (z * 65025 # 65025)%Q).
  { unfold inject_Z. change (255 / (255 - 0))%Q with (255 # 255)%Q.
    unfold Qmult, Qplus, Qopp. cbn [Qnum Qden]. f_equal.
    change (Z.pos (1 * 255)) with 255. change (Z.pos (255 * 1)) with 255. lia. }
  rewrite Hv. unfold np_clip.
  destruct (Qle_bool _ 0) eqn:E0.
  { apply Qle_bool_iff in E0. unfold Qle in E0. cbn [Qnum Qden] in E0.
    change (astype_int 0) with 0. lia. }
  destruct (Qle_bool 255 _) eqn:E1.
  { apply Qle_bool_iff in E1. unfold Qle in E1. cbn [Qnum Qden] in E1.
    change (astype_int 255) with 255. lia. }
  unfold astype_int. cbn [Qnum Qden]. apply Z.quot_mul. lia.
Qed.

(** X5. The limits 0 and 255 change nothing on an 8-bit image: on integer
    pixels between 0 and 255, [contr_limit(im, 0, 255)] returns the image. *)
Theorem contr_limit_default_identity (M : matrix) :
  Forall (λ v, 0 ≤ v ≤ 255) (ravel M) →
  contr_limit (map (map inject_Z) M) 0 255 = Some M.
Proof.
  intros Hrange. unfold contr_limit.
  change (Qeq_bool (255 - 0) 0) with false. cbv iota zeta. f_equal.
  rewrite map_map. rewrite <- (map_id M) at 2. apply map_ext_in. intros row Hrow.
  rewrite map_map. rewrite <- (map_id row) at 2. apply map_ext_in. intros z Hz.
  apply contrast_default_pixel.
  rewrite Forall_forall in Hrange. apply Hrange. apply elem_of_concat.
  exists row. split; by apply list_elem_of_In.
Qed.

Lemma contr_limit_default_identity_witness :
  contr_limit (map (map inject_Z) [[0; 17]; [128; 255]]) 0 255 = Some [[0; 17]; [128; 255]].
Proof. apply contr_limit_default_identity. repeat constructor; lia. Defined.
(** ** [remove_small_islands], continued *)

Lemma shape_islands_fold (L : matrix) (t : Z) (js : list Z) (B : matrix) :
  shape L = shape B →
  shape (fold_left
           (λ B i, if Z.of_nat (length (where_eq L i)) <? t
                   then mask_assign (λ l, l =? i) L 0 B else B) js B)
  = shape B.
Proof.
  revert B. induction js as [|i js IH]; intros B Hs; cbn [fold_left]; [done|].
  destruct (_ <? t).
  - rewrite IH; rewrite shape_mask_assign; done.
  - by apply IH.
Qed.

Lemma shape_remove_small_islands (M : matrix) (t : Z) :
  shape (remove_small_islands M t) = shape M.
Proof.
  unfold remove_small_islands.
  destruct (label false M) as [L n] eqn:El.
  apply shape_islands_fold.
  replace L with (label false M).1 by (by rewrite El). apply shape_label.
Qed.

Lemma px_remove_small_islands (M : matrix) (t : Z) (p : pixel) :
  px (remove_small_islands M t) p
  = (λ a, if decide (a ≠ 0 ∧ Z.of_nat (length (component false M p)) < t) then 0 else a)
    <$> px M p.
Proof.
  destruct (px M p) as [a|] eqn:Ha; simpl; last first.
  { apply eq_None_not_Some. intros Hsome.
    apply (shape_px _ M p (shape_remove_small_islands M t)) in Hsome.
    rewrite Ha in Hsome. by destruct Hsome. }
  unfold remove_small_islands.
  destruct (label false M) as [L n] eqn:El.
  assert (HL : L = (label false M).1) by (by rewrite El).
  assert (Hn : n = length (component_roots false M)) by (by injection El).
  erewrite px_islands_fold; [|by rewrite HL, px_label, Ha|exact Ha].
  simpl. f_equal. destruct (decide (a = 0)) as [->|Hne].
  - rewrite !decide_False; [done|tauto|].
    intros [Hin _]. apply elem_of_seqZ in Hin. lia.
  - assert (Hfg : is_fg M p) by (by exists a).
    pose proof (label_of_range false M p Hfg) as Hrange.
    apply decide_ext. rewrite HL, where_eq_label_length by done.
    rewrite elem_of_seqZ. split; [tauto|]. intros [_ ?]. split_and!; [lia|lia|done].
Qed.

Lemma is_fg_remove_small_islands (M : matrix) (t : Z) (p : pixel) :
  is_fg (remove_small_islands M t) p
  ↔ is_fg M p ∧ t ≤ Z.of_nat (length (component false M p)).
Proof.
  unfold is_fg. rewrite px_remove_small_islands. split.
  - intros (a & Ha & Hne). destruct (px M p) as [b|]; [|done].
    injection Ha as <-. case_decide as Hd; [done|].
    split; [by exists b|]. destruct (decide (b = 0)); [done|]. lia.
  - intros [(a & Ha & Hne) Hbig]. exists a. rewrite Ha. simpl.
    rewrite decide_False; [done|lia].
Qed.

Lemma component_nonempty (full : bool) (A : matrix) (p : pixel) :
  is_fg A p → (1 ≤ length (component full A p))%nat.
Proof.
  intros Hp.
  assert (Hin : p ∈ component full A p) by (apply elem_of_component; [done|apply rtc_refl]).
  destruct (component full A p); [by apply elem_of_nil in Hin|simpl; lia].
Qed.

Lemma component_length_ext (full : bool) (A A' : matrix) (p : pixel) :
  is_fg A p → is_fg A' p →
  (∀ q, connected full A p q ↔ connected full A' p q) →
  length (component full A p) = length (component full A' p).
Proof.
  intros Hp Hp' Hext. apply Permutation_length, NoDup_Permutation.
  - apply NoDup_component.
  - apply NoDup_component.
  - intros q. by rewrite !elem_of_component.
Qed.

(** What is left of an island is all of it. *)
Lemma connected_remove_small_islands (M : matrix) (t : Z) (p q : pixel) :
  is_fg (remove_small_islands M t) p →
  connected false (remove_small_islands M t) p q ↔ connected false M p q.
Proof.
  intros Hp1. pose proof (proj1 (is_fg_remove_small_islands M t p) Hp1) as [Hp Hbig].
  split.
  - apply rtc_subrel. intros x y [Hadj Hy]. split; [done|].
    by apply is_fg_remove_small_islands in Hy as [? _].
  - revert q. apply (rtc_ind_r (λ q, connected false (remove_small_islands M t) p q)).
    + apply rtc_refl.
    + intros y z Hpy [Hadj Hz] IH. eapply rtc_r; [exact IH|]. split; [done|].
      apply is_fg_remove_small_islands. split; [done|].
      rewrite <- (component_eq false M p z Hp); [done|].
      eapply rtc_r; [exact Hpy|]. by split.
Qed.

Lemma component_remove_small_islands (M : matrix) (t : Z) (p : pixel) :
  is_fg (remove_small_islands M t) p →
  length (component false (remove_small_islands M t) p) = length (component false M p).
Proof.
  intros Hp1. apply component_length_ext; [done| |].
  - by apply is_fg_remove_small_islands in Hp1 as [? _].
  - intros q. by apply connected_remove_small_islands.
Qed.

(** X6. Filtering twice is filtering once with the larger threshold:
    [remove_small_islands(remove_small_islands(M, t), t')] is
    [remove_small_islands(M, max(t, t'))]; so the function is idempotent. *)
Theorem remove_small_islands_compose (M : matrix) (t t' : Z) :
  remove_small_islands (remove_small_islands M t) t' = remove_small_islands M (Z.max t t')
  ∧ remove_small_islands (remove_small_islands M t) t = remove_small_islands M t.
Proof.
  assert (Hcomp : ∀ t t', remove_small_islands (remove_small_islands M t) t'
                          = remove_small_islands M (Z.max t t')).
  { clear t t'. intros t t'. apply matrix_eq; [|by rewrite !shape_remove_small_islands].
    intros p. rewrite (px_remove_small_islands (remove_small_islands M t) t' p).
    destruct (decide (is_fg (remove_small_islands M t) p)) as [Hfg|Hnfg].
    - rewrite component_remove_small_islands by done.
      apply is_fg_remove_small_islands in Hfg as [(a & Ha & Hne) Hbig].
      rewrite !px_remove_small_islands, Ha. simpl. f_equal.
      rewrite (decide_False (P := a ≠ 0 ∧ _ < t)) by lia.
      apply decide_ext. split; intros [? ?]; (split; [done|lia]).
    - rewrite !px_remove_small_islands.
      destruct (px M p) as [a|] eqn:Ha; [|done]. simpl. f_equal.
      assert (Hzero : (if decide (a ≠ 0 ∧ Z.of_nat (length (component false M p)) < t)
                       then 0 else a) = 0).
      { destruct (decide (_ ∧ _ < t)) as [|Hd]; [done|].
        destruct (decide (a = 0)) as [|Hne]; [done|]. exfalso. apply Hnfg.
        apply is_fg_remove_small_islands. split; [by exists a|lia]. }
      rewrite Hzero. rewrite decide_False by tauto.
      destruct (decide (_ ∧ _ < t)) as [[Hne Hlt]|Hd].
      + rewrite decide_True; [done|]. split; [done|lia].
      + subst a. by rewrite decide_False by tauto. }
  split; [apply Hcomp|]. rewrite Hcomp. by rewrite Z.max_id.
Qed.

(** X7. A threshold of 1 or less removes nothing. *)
Theorem remove_small_islands_noop (M : matrix) (area_threshold : Z) :
  area_threshold ≤ 1 → remove_small_islands M area_threshold = M.
Proof.
  intros Ht. apply matrix_eq; [|apply shape_remove_small_islands].
  intros p. rewrite px_remove_small_islands.
  destruct (px M p) as [a|] eqn:Ha; [|done]. simpl. f_equal.
  apply decide_False. intros [Hne Hlt].
  assert (Hfg : is_fg M p) by (by exists a).
  pose proof (component_nonempty false M p Hfg). lia.
Qed.

Lemma remove_small_islands_noop_witness :
  remove_small_islands islands_demo 1 = islands_demo.
Proof. apply remove_small_islands_noop. lia. Defined.

(** X8. Every island of the output has at least [area_threshold] pixels,
    and is an island of the input, pixel for pixel and value for value. *)
Theorem remove_small_islands_output (M : matrix) (area_threshold : Z) (p : pixel) :
  let out := remove_small_islands M area_threshold in
  is_fg out p →
  area_threshold ≤ Z.of_nat (length (component false out p))
  ∧ ∀ q, (connected false out p q ↔ connected false M p q)
         ∧ (connected false M p q → px out q = px M q).
Proof.
  intros out Hfg. subst out. split.
  - rewrite component_remove_small_islands by done.
    by apply is_fg_remove_small_islands in Hfg as [_ ?].
  - intros q. split; [by apply connected_remove_small_islands|].
    intros Hc. apply (connected_remove_small_islands M area_threshold p q Hfg) in Hc.
    assert (Hq : is_fg (remove_small_islands M area_threshold) q)
      by (by apply (connected_fg false _ p q)).
    destruct Hq as (a & Ha & Hne). rewrite Ha.
    rewrite px_remove_small_islands in Ha.
    destruct (px M q) as [b|]; [|done]. simpl in Ha. injection Ha as <-.
    by case_decide.
Qed.

Lemma remove_small_islands_output_witness :
  is_fg (remove_small_islands islands_demo 2) (0, 1)%nat
  ∧ 2 ≤ Z.of_nat (length (component false (remove_small_islands islands_demo 2) (0, 1)%nat)).
Proof.
  assert (Hfg : is_fg (remove_small_islands islands_demo 2) (0, 1)%nat).
  { exists 1. split; [by vm_compute|done]. }
  split; [exact Hfg|].
  apply (remove_small_islands_output islands_demo 2 (0, 1)%nat Hfg).
Defined.

(** X9. Raising the threshold only removes more: a pixel that survives the
    threshold [t'] survives every threshold [t ≤ t'], with its value. *)
Theorem remove_small_islands_threshold (M : matrix) (t t' : Z) (p : pixel) (a : Z) :
  t ≤ t' → a ≠ 0 →
  px (remove_small_islands M t') p = Some a →
  px (remove_small_islands M t) p = Some a ∧ px M p = Some a.
Proof.
  intros Htt Hne. rewrite !px_remove_small_islands.
  destruct (px M p) as [b|]; [|done]. simpl. intros [= Hb].
  case_decide as Hd; [done|]. subst b.
  split; [|done]. f_equal. apply decide_False. intros [_ Hlt]. apply Hd. split; [done|lia].
Qed.

Lemma remove_small_islands_threshold_witness :
  px (remove_small_islands islands_demo 3) (0, 1)%nat = Some 1
  ∧ px (remove_small_islands islands_demo 2) (0, 1)%nat = Some 1.
Proof.
  assert (H3 : px (remove_small_islands islands_demo 3) (0, 1)%nat = Some 1)
    by (by vm_compute).
  split; [exact H3|].
  apply (remove_small_islands_threshold islands_demo 2 3 (0, 1)%nat 1); [lia|done|exact H3].
Defined.
(** ** [assign_labels], continued *)

Lemma shape_assign_fold (B L : matrix) (js : list Z) (C : matrix) :
  shape L = shape C →
  shape (fold_left
           (λ C i, mask_assign (λ l, l =? i) L
                     (default 0 (head (np_unique (masked_positive B (where_eq L i))))) C)
           js C)
  = shape C.
Proof.
  revert C. induction js as [|i js IH]; intros C Hs; cbn [fold_left]; [done|].
  rewrite IH; rewrite shape_mask_assign; done.
Qed.

Lemma px_assign_labels (A B : matrix) (connectivity : Z) :
  shape A = shape B →
  ∃ C, assign_labels A B connectivity = Some C
    ∧ shape C = shape A
    ∧ ∀ p, px C p
           = (λ a, if decide (a = 0) then 0
                   else overlap_label (bool_decide (connectivity = 2)) A B p) <$> px A p.
Proof.
  intros Hs. unfold assign_labels. set (full := bool_decide (connectivity = 2)).
  destruct (label full A) as [L n] eqn:El.
  assert (HL : L = (label full A).1) by (by rewrite El).
  assert (Hn : n = length (component_roots full A)) by (by injection El).
  rewrite assign_fold_Some by done.
  assert (Hshape : shape (fold_left
           (λ C i, mask_assign (λ l, l =? i) L
                     (default 0 (head (np_unique (masked_positive B (where_eq L i))))) C)
           (seqZ 1 (Z.of_nat n)) (zeros_like A)) = shape A).
  { rewrite shape_assign_fold; unfold zeros_like; rewrite shape_map; [done|].
    rewrite HL. apply shape_label. }
  eexists. split; [reflexivity|]. split; [exact Hshape|].
  intros p. destruct (px A p) as [a|] eqn:Ha; simpl; last first.
  { apply eq_None_not_Some. intros Hsome.
    apply (shape_px _ A p Hshape) in Hsome. rewrite Ha in Hsome. by destruct Hsome. }
  assert (Hz : px (zeros_like A) p = Some 0).
  { unfold zeros_like. by rewrite px_map, Ha. }
  destruct (decide (a = 0)) as [->|Hne].
  - erewrite px_assign_fold; [|by rewrite HL, px_label, Ha|exact Hz].
    simpl. rewrite decide_False; [done|].
    intros Hin. apply elem_of_seqZ in Hin. lia.
  - assert (Hfg : is_fg A p) by (by exists a).
    pose proof (label_of_range full A p Hfg) as Hrange.
    erewrite px_assign_fold; [|by rewrite HL, px_label_fg|exact Hz].
    rewrite decide_True by (apply elem_of_seqZ; lia).
    unfold overlap_label. by rewrite HL.
Qed.

Lemma overlap_label_cases (full : bool) (A B : matrix) (p : pixel) :
  is_fg A p →
  (overlap_label full A B p = 0
   ∧ ∀ q b, connected full A p q → px B q = Some b → b ≤ 0)
  ∨ (0 < overlap_label full A B p
     ∧ (∃ q, connected full A p q ∧ px B q = Some (overlap_label full A B p))
     ∧ ∀ q b, connected full A p q → px B q = Some b → 0 < b →
              overlap_label full A B p ≤ b).
Proof.
  intros Hfg. unfold overlap_label.
  set (vals := masked_positive B (where_eq (label full A).1 (label_of full A p))).
  assert (Hvals : ∀ b, b ∈ vals ↔ 0 < b ∧ ∃ q, connected full A p q ∧ px B q = Some b).
  { intros b. unfold vals. rewrite elem_of_masked_positive.
    split; intros [? (q & Hq & ?)]; (split; [done|]); exists q; (split; [|done]).
    - by apply elem_of_where_eq_label in Hq.
    - by apply elem_of_where_eq_label. }
  destruct (head (np_unique vals)) as [m|] eqn:Eh; simpl.
  - right. apply np_unique_head in Eh as [Hm Hmin].
    apply Hvals in Hm as [Hpos Hex]. split_and!; [done|done|].
    intros q b Hc Hb Hbpos. apply Hmin, Hvals. eauto.
  - left. split; [done|]. intros q b Hc Hb.
    destruct (decide (b ≤ 0)) as [|Hgt]; [done|]. exfalso.
    assert (b ∈ vals) as Hin by (apply Hvals; split; [lia|eauto]).
    assert (np_unique vals = []) as Hnil by (by destruct (np_unique vals)).
    apply (proj1 (np_unique_nil vals)) in Hnil. rewrite Hnil in Hin.
    by apply elem_of_nil in Hin.
Qed.

(** X10. Labelling an array and assigning it its own labels gives the
    labelling back: [assign_labels(A, label(A)[0])] is [label(A)[0]], for
    either connectivity. *)
Theorem assign_labels_own_labelling (A : matrix) (connectivity : Z) :
  assign_labels A (label (bool_decide (connectivity = 2)) A).1 connectivity
  = Some (label (bool_decide (connectivity = 2)) A).1.
Proof.
  set (full := bool_decide (connectivity = 2)).
  destruct (px_assign_labels A (label full A).1 connectivity) as (C & HC & Hs & Hpx).
  { by rewrite shape_label. }
  rewrite HC. f_equal. apply matrix_eq; [|by rewrite Hs, shape_label].
  intros p. rewrite Hpx, px_label. fold full.
  destruct (px A p) as [a|] eqn:Ha; [|done]. simpl. f_equal.
  destruct (decide (a = 0)) as [|Hne]; [done|].
  assert (Hfg : is_fg A p) by (by exists a).
  pose proof (label_of_range full A p Hfg) as Hrange.
  destruct (overlap_label_cases full A (label full A).1 p Hfg)
    as [[_ Hnone]|(_ & (q & Hq & Hlab) & _)].
  - exfalso. specialize (Hnone p (label_of full A p) (rtc_refl _ _)).
    rewrite px_label_fg in Hnone by done. specialize (Hnone eq_refl). lia.
  - assert (Hfq : is_fg A q) by (by apply (connected_fg full A p q)).
    rewrite px_label_fg in Hlab by done. injection Hlab as Hlab.
    rewrite <- Hlab. symmetry. by apply label_of_eq_iff.
Qed.

(** X11. [assign_labels] never invents a label and never labels the
    background: when [B] has the shape of [A], every pixel of the result is
    0 or a positive label that [B] carries somewhere on the component of
    [A] through that pixel, and two pixels of one component of [A] get the
    same value. *)
Theorem assign_labels_values (A B : matrix) (connectivity : Z) :
  shape A = shape B →
  ∃ C, assign_labels A B connectivity = Some C
    ∧ shape C = shape A
    ∧ (∀ p v, px C p = Some v → v ≠ 0 →
              0 < v ∧ is_fg A p
              ∧ ∃ q, connected (bool_decide (connectivity = 2)) A p q ∧ px B q = Some v)
    ∧ (∀ p q, is_fg A p → connected (bool_decide (connectivity = 2)) A p q →
              px C p = px C q).
Proof.
  intros Hs. set (full := bool_decide (connectivity = 2)).
  destruct (px_assign_labels A B connectivity Hs) as (C & HC & HsC & Hpx).
  fold full in Hpx.
  exists C. split_and!; [done|done| |].
  - intros p v Hv Hne. rewrite Hpx in Hv.
    destruct (px A p) as [a|] eqn:Ha; [|done]. simpl in Hv. injection Hv as Hv.
    destruct (decide (a = 0)) as [|Hane]; [congruence|].
    assert (Hfg : is_fg A p) by (by exists a).
    destruct (overlap_label_cases full A B p Hfg) as [[H0 _]|(Hpos & Hex & _)].
    + congruence.
    + rewrite Hv in Hpos, Hex. done.
  - intros p q Hfg Hc.
    assert (Hfq : is_fg A q) by (by apply (connected_fg full A p q)).
    rewrite !Hpx. destruct Hfg as (a & Ha & Hane). destruct Hfq as (b & Hb & Hbne).
    rewrite Ha, Hb. simpl. rewrite !decide_False by done. f_equal.
    unfold overlap_label. do 5 f_equal. by apply label_of_eq_iff; [exists a|exists b|].
Qed.

Lemma assign_labels_values_witness :
  shape assign_demo_A = shape assign_demo_B
  ∧ ∃ C, assign_labels assign_demo_A assign_demo_B 1 = Some C
       ∧ px C (0, 0)%nat = px C (0, 1)%nat.
Proof.
  split; [reflexivity|].
  destruct (assign_labels_values assign_demo_A assign_demo_B 1 eq_refl)
    as (C & HC & _ & _ & Hconst).
  exists C. split; [exact HC|]. apply Hconst.
  - exists 1. done.
  - apply rtc_once. split; [by vm_compute|]. exists 1. done.
Defined.
(** ** Union-find of [merge_touching_labels], continued *)

Lemma find_loop_missing (fuel : nat) (parent : gmap Z Z) (u : Z) :
  parent !! u = None → find_loop fuel parent u = None.
Proof. intros Hu. destruct fuel as [|fuel]; [done|]. simpl. by rewrite Hu. Qed.

(** X12. [find(u)] raises KeyError on a label that is not in [parent]; on
    a label of a forest it returns the root of the label, and the path
    halving it does on the way keeps the keys and the root of every
    label. *)
Theorem find_returns_root (parent : gmap Z Z) (h : Z → nat) (u : Z) :
  forest parent h →
  (parent !! u = None → find parent u = None)
  ∧ (is_Some (parent !! u) →
       ∃ r parent', find parent u = Some (r, parent')
         ∧ rep parent u r ∧ parent' !! r = Some r
         ∧ dom parent' = dom parent ∧ forest parent' h
         ∧ ∀ x s, rep parent' x s ↔ rep parent x s).
Proof.
  intros Hf. split.
  - apply find_loop_missing.
  - intros Hu. destruct (find_spec parent h u Hf Hu) as (r & parent' & Hfind & Hr & Hf' & Hd & Hrep).
    exists r, parent'. split_and!; try done.
    apply (rep_is_root parent' u). by apply Hrep.
Qed.

Lemma find_returns_root_witness :
  let parent : gmap Z Z := <[1 := 2]> (<[2 := 3]> {[3 := 3]}) in
  forest parent Z.to_nat
  ∧ ∃ r parent', find parent 1 = Some (r, parent') ∧ rep parent 1 r
                 ∧ parent' !! r = Some r.
Proof.
  intros parent.
  assert (Hf : forest parent Z.to_nat).
  { intros u v Huv. unfold parent in Huv.
    apply lookup_insert_Some in Huv as [[<- <-]|[? Huv]]; [split; [by eexists|lia]|].
    apply lookup_insert_Some in Huv as [[<- <-]|[? Huv]]; [split; [by eexists|lia]|].
    apply lookup_singleton_Some in Huv as [<- <-]. split; [by eexists|lia]. }
  split; [exact Hf|].
  destruct (find_returns_root parent Z.to_nat 1 Hf) as [_ Hfind].
  destruct Hfind as (r & parent' & Hrun & Hr & Hroot & _); [by eexists|].
  by exists r, parent'.
Defined.

(** X13. [union(u, v)] on two labels of a forest returns a forest over the
    same labels in which [u] and [v] are in one class, and it joins these
    two classes only: two labels are in one class afterwards exactly when
    they were before, or one was with [u] and the other with [v]. *)
Theorem union_joins_classes (parent : gmap Z Z) (h : Z → nat) (u v : Z) :
  forest parent h → is_Some (parent !! u) → is_Some (parent !! v) →
  ∃ parent' h', union parent u v = Some parent'
    ∧ forest parent' h' ∧ dom parent' = dom parent
    ∧ same_class parent' u v
    ∧ ∀ x y, same_class parent' x y ↔
             same_class parent x y
             ∨ (same_class parent x u ∧ same_class parent y v)
             ∨ (same_class parent x v ∧ same_class parent y u).
Proof.
  intros Hf Hu Hv.
  destruct (rep_exists parent h u Hf Hu) as [ru Hru].
  destruct (rep_exists parent h v Hf Hv) as [rv Hrv].
  destruct (union_spec parent h u v ru rv Hf Hru Hrv)
    as (parent' & h' & Hrun & Hf' & Hd & Hrep).
  assert (Hrvroot : rep parent rv rv) by (apply rep_root; by apply (rep_is_root parent v)).
  assert (Hclass : ∀ x y, same_class parent' x y ↔
             same_class parent x y
             ∨ (same_class parent x u ∧ same_class parent y v)
             ∨ (same_class parent x v ∧ same_class parent y u)).
  { intros x y. split.
    - intros (r' & Hx & Hy).
      apply Hrep in Hx as (rx & Hx & Hrx). apply Hrep in Hy as (ry & Hy & Hry).
      destruct (decide (rx = ru)) as [->|Hnx]; destruct (decide (ry = ru)) as [->|Hny].
      + left. by exists ru.
      + right. left. split; [by exists ru|]. exists rv. split; [congruence|done].
      + right. right. split; [|by exists ru]. exists rv. split; [congruence|done].
      + left. exists rx. split; [done|congruence].
    - intros [(r & Hx & Hy)|[[(r1 & Hx & Hu1) (r2 & Hy & Hv2)]|[(r1 & Hx & Hv1) (r2 & Hy & Hu2)]]].
      + exists (if decide (r = ru) then rv else r). split; apply Hrep; by exists r.
      + assert (r1 = ru) as -> by (by apply (rep_functional parent u)).
        assert (r2 = rv) as -> by (by apply (rep_functional parent v)).
        exists rv. split; apply Hrep.
        * exists ru. split; [done|]. by rewrite decide_True.
        * exists rv. split; [done|]. by destruct (decide (rv = ru)).
      + assert (r1 = rv) as -> by (by apply (rep_functional parent v)).
        assert (r2 = ru) as -> by (by apply (rep_functional parent u)).
        exists rv. split; apply Hrep.
        * exists rv. split; [done|]. by destruct (decide (rv = ru)).
        * exists ru. split; [done|]. by rewrite decide_True. }
  exists parent', h'. split_and!; try done.
  apply Hclass. right. left. split; [by exists ru|by exists rv].
Qed.

Lemma union_joins_classes_witness :
  let parent : gmap Z Z := <[1 := 1]> (<[2 := 3]> {[3 := 3]}) in
  forest parent Z.to_nat
  ∧ ∃ parent', union parent 1 2 = Some parent' ∧ same_class parent' 1 2.
Proof.
  intros parent.
  assert (Hf : forest parent Z.to_nat).
  { intros u v Huv. unfold parent in Huv.
    apply lookup_insert_Some in Huv as [[<- <-]|[? Huv]]; [split; [by eexists|lia]|].
    apply lookup_insert_Some in Huv as [[<- <-]|[? Huv]]; [split; [by eexists|lia]|].
    apply lookup_singleton_Some in Huv as [<- <-]. split; [by eexists|lia]. }
  split; [exact Hf|].
  destruct (union_joins_classes parent Z.to_nat 1 2 Hf) as (parent' & _ & Hrun & _ & _ & Hcl & _);
    [by eexists|by eexists|].
  by exists parent'.
Defined.

(** ** The scan for touching labels, continued *)

Lemma touches_sym (L : matrix) (a b : Z) : touches L a b → touches L b a.
Proof.
  intros (Ha & Hb & Hab & p & q & Hadj & Hp & Hq).
  split_and!; [done|done|done|]. exists q, p. split_and!; [|done|done].
  by apply adjacent_sym.
Qed.

(** X14. The dictionary [touching] that the scan builds is symmetric and
    has no label with itself; its keys are distinct, and neither a key nor
    a neighbour is 0 or foreign to the array. *)
Theorem scan_touching_symmetric (L : matrix) :
  rect L →
  NoDup (scan_touching (np_pad L)).*1
  ∧ ∀ u v, in_touching (scan_touching (np_pad L)) u v →
           in_touching (scan_touching (np_pad L)) v u
           ∧ u ≠ v ∧ is_label L u ∧ is_label L v.
Proof.
  intros Hrect. destruct (scan_touching_spec L Hrect) as [Hnd Hspec].
  split; [done|]. intros u v Huv. apply Hspec in Huv.
  split; [by apply Hspec, touches_sym|].
  destruct Huv as (Hu & Hv & Huv & p & q & _ & Hp & Hq).
  split_and!; [done|split; eauto|split; eauto].
Qed.

Lemma scan_touching_symmetric_witness :
  rect merge_demo
  ∧ in_touching (scan_touching (np_pad merge_demo)) 8 7.
Proof.
  assert (Hrect : rect merge_demo) by by_computation.
  split; [exact Hrect|].
  destruct (scan_touching_symmetric merge_demo Hrect) as [_ Hsym].
  apply (Hsym 7 8). exists [8]. split; [by vm_compute|constructor].
Defined.

(** ** [merge_touching_labels], continued *)

Lemma merged_with_no_touch (L : matrix) (a b : Z) :
  (∀ a b, ¬ touches L a b) → merged_with L a b → a = b.
Proof.
  intros Hno Hm. induction Hm as [x|x y z [Hxy|Hyx] _ IH]; [done| |].
  - by apply Hno in Hxy.
  - by apply Hno in Hyx.
Qed.

Lemma sorted_lookup_lt (l : list Z) (i j : nat) (x y : Z) :
  StronglySorted Z.lt l → l !! i = Some x → l !! j = Some y → (i < j)%nat → x < y.
Proof.
  intros Hs. revert i j. induction Hs as [|z l Hs IH Hall]; intros i j Hi Hj Hij; [done|].
  destruct j as [|j]; [lia|]. simpl in Hj. destruct i as [|i].
  - injection Hi as <-. rewrite Forall_forall in Hall. apply Hall.
    by eapply list_elem_of_lookup_2.
  - simpl in Hi. apply (IH i j); [done|done|lia].
Qed.

Lemma relabel_sequential_monotone (L : matrix) :
  ravel L ≠ [] → Forall (λ v, 0 ≤ v) (ravel L) →
  ∃ F, relabel_sequential L = Some (map (map F) L)
     ∧ ∀ a b, a ∈ ravel L → b ∈ ravel L → a ≤ b → F a ≤ F b.
Proof.
  intros Hne Hpos. rewrite (relabel_sequential_Some L Hne Hpos).
  set (iv := np_unique (ravel L)).
  set (nz := filter (λ x, x ≠ 0) iv).
  assert (Hsorted : StronglySorted Z.lt iv) by apply np_unique_sorted.
  assert (Hivpos : Forall (λ v, 0 ≤ v) iv).
  { apply Forall_forall. intros v Hv. unfold iv in Hv.
    apply (proj1 (elem_of_np_unique _ _)) in Hv.
    rewrite Forall_forall in Hpos. by apply Hpos. }
  assert (Hnzsorted : StronglySorted Z.lt nz) by (by apply StronglySorted_filter).
  assert (Hrank : ∀ a, a ∈ ravel L → a ≠ 0 →
            ∃ i, nz !! i = Some a
                 ∧ map_array iv (relabel_out_vals iv) a = Z.of_nat (S i)).
  { intros a Ha Ha0.
    assert (Hanz : a ∈ nz).
    { unfold nz, iv. rewrite list_elem_of_filter, elem_of_np_unique. done. }
    destruct (index_of_elem_of a nz Hanz) as [i Hi].
    exists i. split; [by apply index_of_Some|]. by apply relabel_rank. }
  eexists. split; [reflexivity|]. intros a b Ha Hb Hab.
  rewrite Forall_forall in Hpos.
  pose proof (Hpos a Ha) as Ha0. pose proof (Hpos b Hb) as Hb0.
  destruct (decide (a = 0)) as [->|Hane].
  - rewrite relabel_zero by done.
    destruct (decide (b = 0)) as [->|Hbne]; [by rewrite relabel_zero|].
    destruct (Hrank b Hb Hbne) as (j & _ & ->). lia.
  - destruct (Hrank a Ha Hane) as (i & Hi & ->).
    destruct (Hrank b Hb) as (j & Hj & ->); [lia|].
    destruct (decide (j < i)%nat) as [Hji|]; [|lia].
    pose proof (sorted_lookup_lt nz j i b a Hnzsorted Hj Hi Hji). lia.
Qed.

Section merge_extra.
Context (set_iter labels_iter : list Z → list Z).
Hypothesis set_iter_perm : ∀ l, set_iter l ≡ₚ l.
Hypothesis labels_iter_perm : ∀ l, labels_iter l ≡ₚ l.

(** X15. Where no two labels touch, [merge_touching_labels] only renumbers:
    its result is [relabel_sequential(label_matrix)], in which the order
    of the labels is kept. *)
Theorem merge_touching_labels_untouched (L : matrix) :
  label_matrix_ok L →
  (∀ a b, ¬ touches L a b) →
  ∃ M, merge_touching_labels set_iter labels_iter L = Some M
    ∧ relabel_sequential L = Some M
    ∧ ∀ p q a b m n, px L p = Some a → px L q = Some b →
                     px M p = Some m → px M q = Some n → a ≤ b → m ≤ n.
Proof using set_iter_perm labels_iter_perm.
  intros (Hrect & Hne & Hrange) Hno.
  assert (Hpos : Forall (λ v, 0 ≤ v) (ravel L)).
  { eapply Forall_impl; [exact Hrange|]. intros v Hv. simpl in Hv. lia. }
  destruct (relabel_sequential_monotone L Hne Hpos) as (F & Hrel & Hmono).
  assert (Hmerge : merge_touching_labels set_iter labels_iter L = relabel_sequential L).
  { destruct (matrix_max_is_Some L Hne) as [m Hmax].
    pose proof (matrix_max_spec L m Hmax) as [Hm Hle].
    destruct (decide (m = 0)) as [->|Hm0].
    { unfold merge_touching_labels. rewrite Hmax. cbn [mbind option_bind].
      rewrite decide_True by done. symmetry. apply (relabel_sequential_id L O); [done| |].
      - intros v Hv. left. rewrite Forall_forall in Hpos.
        specialize (Hpos v Hv). specialize (Hle v Hv). lia.
      - intros v Hv. simpl in Hv. lia. }
    destruct (merge_run set_iter labels_iter set_iter_perm labels_iter_perm L Hrect)
      as (parent & h & lm & parent' & Hunion & Hbuild & Hf & Hdom & Hclass & Hkeys & Hlm).
    rewrite (merge_unfold set_iter labels_iter L m parent lm parent' Hmax Hm0 Hunion Hbuild).
    f_equal. apply map_map_id_on. intros a Ha.
    destruct (decide (a = 0)) as [->|Ha0]; [by apply (written_label_zero labels_iter labels_iter_perm L)|].
    assert (Hal : a ∈ nonzero_labels L).
    { apply elem_of_nonzero_labels. split; [done|]. by apply elem_of_ravel. }
    destruct (rep_exists parent h a Hf) as [r Hr]; [by apply Hdom|].
    destruct (written_label_root labels_iter labels_iter_perm L parent lm a r)
      as [Hw Hrl]; try done.
    rewrite Hw. symmetry. apply (merged_with_no_touch L a r Hno).
    apply Hclass; [done|]. exists r. split; [done|].
    apply rep_root. by apply (rep_is_root parent a). }
  exists (map (map F) L). split_and!; [by rewrite Hmerge|done|].
  intros p q a b m n Ha Hb. rewrite !px_map, Ha, Hb. simpl.
  intros [= <-] [= <-] Hab. apply Hmono; [| |done]; apply elem_of_ravel; eauto.
Qed.
End merge_extra.

Lemma merge_touching_labels_untouched_witness :
  let L := [[4; 0; 9]; [0; 0; 9]] in
  label_matrix_ok L
  ∧ merge_touching_labels reverse reverse L = relabel_sequential L.
Proof.
  intros L. assert (Hok : label_matrix_ok L) by by_computation.
  split; [exact Hok|].
  destruct (merge_touching_labels_untouched reverse reverse reverse_Permutation
              reverse_Permutation L Hok) as (M & -> & -> & _); [|done].
  intros a b Ht. apply (scan_touching_spec L (proj1 Hok)) in Ht.
  destruct Ht as (ns & Hget & _). by vm_compute in Hget.
Defined.

(** X16. The order in which Python walks through the sets of neighbours
    and through the set of labels changes at most the numbering: two runs
    give arrays of one shape with the same background and the same
    partition of the pixels into labels. *)
Theorem merge_touching_labels_order (set_iter set_iter' labels_iter labels_iter'
    : list Z → list Z) (L : matrix) :
  (∀ l, set_iter l ≡ₚ l) → (∀ l, labels_iter l ≡ₚ l) →
  (∀ l, set_iter' l ≡ₚ l) → (∀ l, labels_iter' l ≡ₚ l) →
  label_matrix_ok L →
  ∃ M M',
    merge_touching_labels set_iter labels_iter L = Some M
    ∧ merge_touching_labels set_iter' labels_iter' L = Some M'
    ∧ shape M = shape M'
    ∧ (∀ p q, px M p = px M q ↔ px M' p = px M' q)
    ∧ (∀ p, px M p = Some 0 ↔ px M' p = Some 0).
Proof.
  intros Hs Hl Hs' Hl' Hok.
  destruct (merge_spec set_iter labels_iter Hs Hl L Hok)
    as (F & N & HM & HF0 & HFr & _ & HFc & _).
  destruct (merge_spec set_iter' labels_iter' Hs' Hl' L Hok)
    as (F' & N' & HM' & HF0' & HFr' & _ & HFc' & _).
  exists (map (map F) L), (map (map F') L).
  assert (Hlab : ∀ p a, px L p = Some a → a = 0 ∨ a ∈ nonzero_labels L).
  { intros p a Ha. destruct (decide (a = 0)); [by left|right].
    apply elem_of_nonzero_labels. eauto. }
  split_and!; [done|done|by rewrite !shape_map| |].
  - intros p q. rewrite !px_map.
    destruct (px L p) as [a|] eqn:Ha; destruct (px L q) as [b|] eqn:Hb; simpl; try done.
    destruct (Hlab p a Ha) as [->|Hal]; destruct (Hlab q b Hb) as [->|Hbl].
    + by rewrite HF0, HF0'.
    + rewrite HF0, HF0'. specialize (HFr b Hbl). specialize (HFr' b Hbl).
      split; intros [= ?]; lia.
    + rewrite HF0, HF0'. specialize (HFr a Hal). specialize (HFr' a Hal).
      split; intros [= ?]; lia.
    + split; intros [= Heq]; f_equal.
      * by apply HFc', HFc.
      * by apply HFc, HFc'.
  - intros p. rewrite !px_map. destruct (px L p) as [a|] eqn:Ha; simpl; [|done].
    destruct (Hlab p a Ha) as [->|Hal]; [by rewrite HF0, HF0'|].
    specialize (HFr a Hal). specialize (HFr' a Hal). split; intros [= ?]; lia.
Qed.

Lemma merge_touching_labels_order_witness :
  label_matrix_ok merge_demo
  ∧ ∃ M M',
      merge_touching_labels (λ l, l) (λ l, l) merge_demo = Some M
      ∧ merge_touching_labels reverse reverse merge_demo = Some M'
      ∧ ∀ p q, px M p = px M q ↔ px M' p = px M' q.
Proof.
  assert (Hok : label_matrix_ok merge_demo) by by_computation.
  split; [exact Hok|].
  destruct (merge_touching_labels_order (λ l, l) reverse (λ l, l) reverse merge_demo
              (λ l, reflexivity l) (λ l, reflexivity l)
              reverse_Permutation reverse_Permutation Hok)
    as (M & M' & HM & HM' & _ & Hpart & _).
  by exists M, M'.
Defined.
(** ** Stain registry cell, continued *)

Lemma upper_ascii_idemp (c : Ascii.ascii) : upper_ascii (upper_ascii c) = upper_ascii c.
Proof. destruct c as [[] [] [] [] [] [] [] []]; reflexivity. Qed.

Lemma upper_idemp (s : string) : upper (upper s) = upper s.
Proof. induction s as [|c s IH]; simpl; [done|]. by rewrite upper_ascii_idemp, IH. Qed.

Lemma item_upper_idemp (it : item) : item_upper (item_upper it) = item_upper it.
Proof. destruct it; simpl; [|done]. by rewrite upper_idemp. Qed.

Lemma upper_dict_fold (d acc : stain_table) :
  let r := fold_left
             (λ acc kv, dict_set (upper kv.1) (item_upper kv.2.1, item_upper kv.2.2) acc)
             d acc in
  (NoDup acc.*1 → NoDup r.*1)
  ∧ (∀ K, K ∈ r.*1 ↔ K ∈ acc.*1 ∨ ∃ k, k ∈ d.*1 ∧ K = upper k)
  ∧ (∀ K, dict_get K r
          = match last (filter (λ kv, upper kv.1 = K) d) with
            | Some kv => Some (item_upper kv.2.1, item_upper kv.2.2)
            | None => dict_get K acc
            end).
Proof.
  revert acc. induction d as [|[k v] d IH]; intros acc; cbn [fold_left].
  - split_and!; [done| |done]. intros K. split; [by left|].
    intros [?|(k & Hk & _)]; [done|]. by apply elem_of_nil in Hk.
  - destruct (IH (dict_set (upper k) (item_upper v.1, item_upper v.2) acc))
      as (IHnd & IHkeys & IHget).
    cbn [fst snd]. split_and!.
    + intros Hnd. by apply IHnd, dict_set_NoDup.
    + intros K. rewrite IHkeys, dict_set_keys. rewrite fmap_cons. cbn [fst].
      setoid_rewrite elem_of_cons.
      destruct (decide (upper k ∈ acc.*1)) as [Hin|Hnin].
      * split.
        -- intros [?|(k' & ? & ?)]; [by left|right; eauto].
        -- intros [?|(k' & [-> |?] & ->)]; [by left|by left|right; eauto].
      * rewrite elem_of_app, list_elem_of_singleton. split.
        -- intros [[?| ->]|(k' & ? & ?)]; [by left|right; eauto|right; eauto].
        -- intros [?|(k' & [-> |?] & ->)]; [left; by left|left; by right|right; eauto].
    + intros K. rewrite IHget. rewrite filter_cons. cbn [fst].
      destruct (decide (upper k = K)) as [HK|HK].
      * destruct (filter _ d) as [|kv l] eqn:Ef.
        -- simpl. rewrite dict_get_set. by rewrite decide_True.
        -- rewrite last_cons_cons. destruct (last (kv :: l)) eqn:El; [done|].
           by apply last_None in El.
      * destruct (last (filter _ d)) as [kv|]; [done|].
        rewrite dict_get_set. by rewrite decide_False.
Qed.

(** X17. The table of the stain cell has one row for each upper-cased key
    of [stain_dict]: its keys are distinct and in upper case, so are the
    strings of its values, and of several keys that differ by case only the
    last one gives the values. *)
Theorem upper_dict_spec (stain_dict : stain_table) :
  NoDup (upper_dict stain_dict).*1
  ∧ (∀ K, K ∈ (upper_dict stain_dict).*1 ↔ ∃ k, k ∈ stain_dict.*1 ∧ K = upper k)
  ∧ (∀ K v, (K, v) ∈ upper_dict stain_dict →
            upper K = K ∧ item_upper v.1 = v.1 ∧ item_upper v.2 = v.2)
  ∧ (∀ K, dict_get K (upper_dict stain_dict)
          = (λ kv, (item_upper kv.2.1, item_upper kv.2.2))
            <$> last (filter (λ kv, upper kv.1 = K) stain_dict)).
Proof.
  destruct (upper_dict_fold stain_dict []) as (Hnd & Hkeys & Hget).
  fold (upper_dict stain_dict) in Hnd, Hkeys, Hget.
  assert (Hnd' : NoDup (upper_dict stain_dict).*1) by (apply Hnd; constructor).
  split_and!; [done| | |].
  - intros K. rewrite Hkeys. split; [|by right].
    intros [H|?]; [|done]. by apply elem_of_nil in H.
  - intros K v HKv.
    assert (HK : K ∈ (upper_dict stain_dict).*1).
    { apply list_elem_of_fmap. by exists (K, v). }
    apply Hkeys in HK as [HK|(k & _ & ->)]; [by apply elem_of_nil in HK|].
    split; [apply upper_idemp|].
    apply dict_get_elem_of in HKv; [|done]. rewrite Hget in HKv.
    destruct (last _) as [kv|]; [|done]. injection HKv as <-. simpl.
    by rewrite !item_upper_idemp.
  - intros K. rewrite Hget. by destruct (last _).
Qed.

(** X18. The stain cell prints its warning exactly when no key of
    [stain_dict] is 'NUCLEI' up to case; it prints nothing else and the
    table is the same in both cases. *)
Theorem stain_registry_cell_warning (stain_dict : stain_table) (out : list string) :
  stain_df (stain_registry_cell stain_dict out) = upper_dict stain_dict
  ∧ ((∃ k, k ∈ stain_dict.*1 ∧ upper k = "NUCLEI") →
       stdout (stain_registry_cell stain_dict out) = out)
  ∧ ((∀ k, k ∈ stain_dict.*1 → upper k ≠ "NUCLEI") →
       stdout (stain_registry_cell stain_dict out) = out ++ ["No nuclei condition!"]).
Proof.
  destruct (upper_dict_fold stain_dict []) as (_ & Hkeys & _).
  fold (upper_dict stain_dict) in Hkeys.
  unfold stain_registry_cell, check_nuclei. cbn [stain_df stdout].
  destruct (bool_decide_reflect ("NUCLEI" ∈ (upper_dict stain_dict).*1)) as [Hin|Hnin].
  - split_and!; [done|done|]. intros Hno.
    apply Hkeys in Hin as [Hin|(k & Hk & Heq)]; [by apply elem_of_nil in Hin|].
    by apply Hno in Hk.
  - split_and!; [done| |done]. intros (k & Hk & Heq). exfalso. apply Hnin, Hkeys.
    right. eauto.
Qed.

Lemma stain_registry_cell_warning_witness :
  stdout (stain_registry_cell
            [("macro", (IStr "f4_80", IStr "Red")); ("Nuclei", (IStr "dapi", IStr "Blue"))] [])
  = [].
Proof.
  apply stain_registry_cell_warning. exists "Nuclei". split; [|reflexivity].
  rewrite !fmap_cons. simpl. apply elem_of_cons. right. constructor.
Defined.

(** ** Acquisition setup cell, continued *)

Lemma insert_by_perm {A} (le : A → A → bool) (x : A) (l : list A) :
  insert_by le x l ≡ₚ x :: l.
Proof.
  induction l as [|y l IH]; simpl; [done|].
  destruct (le x y); [done|]. rewrite IH. apply Permutation_swap.
Qed.

Lemma sort_by_perm {A} (le : A → A → bool) (l : list A) : sort_by le l ≡ₚ l.
Proof.
  induction l as [|x l IH]; simpl; [done|].
  fold (sort_by le l). rewrite insert_by_perm. by rewrite IH.
Qed.





Lemma load_setup_keys (use_setup : bool) (file : option calib_table)
    (complete : calib_table) :
  (load_setup use_setup file complete).1.*1 = complete.*1.
Proof.
  unfold load_setup. destruct file as [setup|]; [|done].
  destruct use_setup; [|done].
  assert (Hfold : ∀ keys acc, (∀ k, k ∈ keys → k ∈ acc.1.*1) →
    (fold_left (λ (acc : calib_table * bool) idx,
                  match dict_get idx setup with
                  | Some v => (dict_set idx v acc.1, acc.2)
                  | None => (acc.1, false)
                  end) keys acc).1.*1 = acc.1.*1).
  { induction keys as [|k keys IH]; intros acc Hin; cbn [fold_left]; [done|].
    assert (Hk : k ∈ acc.1.*1) by (apply Hin; by left).
    destruct (dict_get k setup) as [v|].
    - rewrite IH; cbn [fst]; rewrite dict_set_keys, decide_True by done; [done|].
      intros k' Hk'. apply Hin. by right.
    - rewrite IH; cbn [fst]; [done|]. intros k' Hk'. apply Hin. by right. }
  by rewrite Hfold.
Qed.


Lemma setup_cell_unfold (stain : list key) (file : option calib_table)
    (gui : viewer_values) :
  let complete0 :=
    map (λ idx, (idx, {| Cont_min := 0; Cont_max := 255; Gamma := 1 |})) stain in
  let loaded := load_setup true file complete0 in
  loaded.1.*1 = stain
  ∧ setup_cell stain file gui
    = if (negb loaded.2 || negb (bool_decide (is_Some file)))%bool
      then recalibrate file gui loaded.1
      else {| stain_complete_df := loaded.1; viewer_ran := false; setup_csv := file |}.
Proof.
  intros complete0 loaded. split.
  - unfold loaded. rewrite load_setup_keys. unfold complete0.
    rewrite <- list_fmap_compose. apply list_fmap_id.
  - unfold setup_cell. fold complete0. fold loaded. by destruct loaded.
Qed.

(** X19. When the persisted setup is reused, the cell leaves the CSV file
    as it is, and the table keeps the rows of the stain table in their
    order. *)
Theorem setup_cell_reuse (stain : list key) (file : option calib_table)
    (gui : viewer_values) :
  viewer_ran (setup_cell stain file gui) = false →
  setup_csv (setup_cell stain file gui) = file
  ∧ (stain_complete_df (setup_cell stain file gui)).*1 = stain.
Proof.
  destruct (setup_cell_unfold stain file gui) as [Hkeys ->].
  destruct (negb _ || negb _)%bool; [done|]. by cbn.
Qed.

Lemma setup_cell_reuse_witness :
  let file := Some [(("NUCLEI", "DAPI", "BLUE"), {| Cont_min := 7; Cont_max := 90; Gamma := 1 |});
                    (("MACRO", "F4_80", "RED"), {| Cont_min := 5; Cont_max := 100; Gamma := 1 |})] in
  viewer_ran (setup_cell demo_stain file demo_gui) = false
  ∧ setup_csv (setup_cell demo_stain file demo_gui) = file
  ∧ (stain_complete_df (setup_cell demo_stain file demo_gui)).*1 = demo_stain.
Proof.
  intros file. split; [reflexivity|].
  apply (setup_cell_reuse demo_stain file demo_gui). reflexivity.
Defined.



Lemma setup_cell_keys_perm (stain : list key) (file : option calib_table)
    (gui : viewer_values) :
  (stain_complete_df (setup_cell stain file gui)).*1 ≡ₚ stain.
Proof.
  destruct (setup_cell_unfold stain file gui) as [Hkeys ->].
  destruct (negb _ || negb _)%bool; cbn [stain_complete_df]; [|by rewrite Hkeys].
  unfold recalibrate. cbn [stain_complete_df].
  rewrite <- list_fmap_compose.
  change (fst ∘ _) with (fst : key * calib → key).
  rewrite sort_by_perm. by rewrite Hkeys.
Qed.

Lemma map_condition_keys (T : calib_table) :
  map (λ kv : key * calib, kv.1.1.1) T = map (λ idx : key, idx.1.1) T.*1.
Proof. induction T as [|kv T IH]; [done|]. rewrite fmap_cons. simpl. f_equal. exact IH. Qed.

Lemma head_filter_condition (T : calib_table) (idx : key) (c : calib) :
  NoDup (map (λ kv : key * calib, kv.1.1.1) T) → (idx, c) ∈ T →
  head (filter (λ kv : key * calib, kv.1.1.1 = idx.1.1) T) = Some (idx, c).
Proof.
  induction T as [|kv T IH]; intros Hnd Hin; [by apply elem_of_nil in Hin|].
  cbn [map] in Hnd. apply NoDup_cons in Hnd as [Hkv Hnd].
  rewrite filter_cons. apply elem_of_cons in Hin as [<- |Hin].
  - by rewrite decide_True.
  - rewrite decide_False; [by apply IH|].
    intros Heq. apply Hkv. rewrite Heq.
    apply (list_elem_of_fmap_2 (λ kv : key * calib, kv.1.1.1) T (idx, c)). done.
Qed.

(** X28. The last lines of the setup cell put the table back in the order
    of the stain table, whether or not the viewer ran and sorted it: with
    distinct conditions they never fail, and row [z] of the result carries
    the condition, marker and colour of row [z] of the stain table with the
    settings of that key. *)
Theorem setup_cell_restores_order (stain : list key) (file : option calib_table)
    (gui : viewer_values) :
  NoDup (map (λ idx : key, idx.1.1) stain) →
  ∃ rows,
    restore_order stain (stain_complete_df (setup_cell stain file gui)) = Some rows
    ∧ Forall2 (λ (idx : key) (row : string * (string * string * calib)),
                 row.1 = idx.1.1 ∧ row.2.1.1 = idx.1.2 ∧ row.2.1.2 = idx.2
                 ∧ dict_get idx (stain_complete_df (setup_cell stain file gui))
                   = Some row.2.2)
              stain rows.
Proof.
  intros Hnd. set (T := stain_complete_df (setup_cell stain file gui)).
  assert (Hperm : T.*1 ≡ₚ stain) by apply setup_cell_keys_perm.
  assert (HndT : NoDup (map (λ kv : key * calib, kv.1.1.1) T)).
  { rewrite (map_condition_keys T). by rewrite Hperm. }
  assert (HndK : NoDup T.*1).
  { rewrite Hperm. apply (NoDup_fmap_1 (λ idx : key, idx.1.1)). exact Hnd. }
  assert (Hrow : ∀ idx, idx ∈ stain →
            ∃ c, (idx, c) ∈ T ∧ dict_get idx T = Some c).
  { intros idx Hin. rewrite <- Hperm in Hin.
    apply list_elem_of_fmap in Hin as ([idx' c] & -> & Hin). exists c.
    split; [done|]. by apply dict_get_elem_of. }
  unfold restore_order. fold T.
  assert (Hgen : ∀ l, (∀ idx, idx ∈ l → idx ∈ stain) →
    ∃ rows,
      mapM (λ idx : key,
              row ← head (filter (λ kv : key * calib, kv.1.1.1 = idx.1.1) T);
              Some (idx.1.1, (row.1.1.2, row.1.2, row.2))) l = Some rows
      ∧ Forall2 (λ (idx : key) (row : string * (string * string * calib)),
                   row.1 = idx.1.1 ∧ row.2.1.1 = idx.1.2 ∧ row.2.1.2 = idx.2
                   ∧ dict_get idx T = Some row.2.2) l rows).
  { induction l as [|idx l IH]; intros Hl.
    - exists []. split; [done|constructor].
    - destruct IH as (rows & Hrows & Hall); [intros ? ?; apply Hl; by right|].
      destruct (Hrow idx) as (c & Hin & Hget); [apply Hl; by left|].
      exists ((idx.1.1, (idx.1.2, idx.2, c)) :: rows). split.
      + cbn [mapM]. rewrite (head_filter_condition T idx c HndT Hin).
        cbn [mbind option_bind fst snd]. by rewrite Hrows.
      + constructor; [done|exact Hall]. }
  by apply Hgen.
Qed.

Lemma setup_cell_restores_order_witness :
  ∃ rows,
    restore_order demo_stain
      (stain_complete_df (setup_cell demo_stain (Some demo_setup) demo_gui)) = Some rows
    ∧ rows.*1 = ["MACRO"; "NUCLEI"].
Proof.
  destruct (setup_cell_restores_order demo_stain (Some demo_setup) demo_gui)
    as (rows & Hrows & Hall).
  - apply (bool_decide_unpack _). by vm_compute.
  - exists rows. split; [exact Hrows|].
    apply Forall2_cons_inv_l in Hall as (r1 & rows1 & (H1 & _) & Hall & ->).
    apply Forall2_cons_inv_l in Hall as (r2 & rows2 & (H2 & _) & Hall & ->).
    apply Forall2_nil_inv_l in Hall as ->. rewrite !fmap_cons, H1, H2. reflexivity.
Defined.
(** ** Quantification cell, continued *)

Lemma elem_of_tail_sorted (l : list Z) (x : Z) :
  StronglySorted Z.lt l → x ∈ tail l ↔ x ∈ l ∧ ∃ m, m ∈ l ∧ m < x.
Proof.
  intros Hs. destruct Hs as [|y l Hs Hall]; simpl.
  - split; [by intros ?%elem_of_nil|by intros [?%elem_of_nil _]].
  - rewrite Forall_forall in Hall. split.
    + intros Hx. split; [by right|]. exists y. split; [by left|by apply Hall].
    + intros [[-> |Hx]%elem_of_cons (m & [-> |Hm]%elem_of_cons & Hlt)]; [lia| |done|done].
      apply Hall in Hm. lia.
Qed.

Lemma elem_of_marker_labels (assigned : matrix) (n : Z) :
  n ∈ marker_labels assigned ↔ n ∈ ravel assigned ∧ ∃ m, m ∈ ravel assigned ∧ m < n.
Proof.
  unfold marker_labels. rewrite elem_of_tail_sorted by apply np_unique_sorted.
  rewrite elem_of_np_unique. by setoid_rewrite elem_of_np_unique.
Qed.

Lemma tail_sorted (l : list Z) : StronglySorted Z.lt l → StronglySorted Z.lt (tail l).
Proof. intros Hs. destruct Hs; [constructor|done]. Qed.

Lemma marker_shared_labels (assigned : matrix) (n : Z) :
  n ∈ marker_shared assigned → n ∈ marker_labels assigned.
Proof.
  assert (Hsub : ∀ v, v ∈ ravel (drop 1 assigned) → v ∈ ravel assigned).
  { intros v. unfold ravel. rewrite !elem_of_concat.
    intros (row & Hv & Hrow). exists row. split; [done|].
    destruct assigned; [done|]. by right. }
  rewrite elem_of_marker_labels. unfold marker_shared.
  rewrite elem_of_tail_sorted by apply np_unique_sorted.
  rewrite elem_of_np_unique. intros [Hn (m & Hm & Hlt)].
  rewrite elem_of_np_unique in Hm.
  split; [by apply Hsub|]. exists m. split; [by apply Hsub|done].
Qed.

Lemma marker_shared_length (assigned : matrix) :
  (length (marker_shared assigned) ≤ length (marker_labels assigned))%nat.
Proof.
  apply submseteq_length, NoDup_submseteq.
  - apply StronglySorted_lt_NoDup, tail_sorted, np_unique_sorted.
  - apply marker_shared_labels.
Qed.

(** X21. The labels of a marker channel, [np.unique(...)[1:]], are the
    values of the channel that are not its smallest value, in increasing
    order: the background 0 is dropped when the channel has background,
    and the smallest label is dropped when it has none.  The shared labels
    are among them. *)
Theorem marker_labels_spec (assigned : matrix) :
  (∀ n, n ∈ marker_labels assigned ↔
        n ∈ ravel assigned ∧ ∃ m, m ∈ ravel assigned ∧ m < n)
  ∧ StronglySorted Z.lt (marker_labels assigned)
  ∧ marker_count assigned = Z.of_nat (length (marker_labels assigned))
  ∧ (∀ n, n ∈ marker_shared assigned → n ∈ marker_labels assigned)
  ∧ (length (marker_shared assigned) ≤ length (marker_labels assigned))%nat.
Proof.
  split_and!.
  - apply elem_of_marker_labels.
  - apply tail_sorted, np_unique_sorted.
  - done.
  - apply marker_shared_labels.
  - apply marker_shared_length.
Qed.

Lemma where_eq_nonempty (M : matrix) (n : Z) (p : pixel) :
  px M p = Some n → where_eq M n ≠ [].
Proof.
  intros Hp Hnil.
  assert (Hin : p ∈ where_eq M n).
  { unfold where_eq. apply list_elem_of_filter. split; [done|].
    apply elem_of_pixels. eauto. }
  rewrite Hnil in Hin. by apply elem_of_nil in Hin.
Qed.

Lemma marker_labels_assigned (A B C : matrix) (connectivity : Z) (n : Z) :
  shape A = shape B → assign_labels A B connectivity = Some C →
  n ∈ marker_labels C →
  0 < n ∧ (∃ q, px B q = Some n) ∧ ∃ p, px C p = Some n.
Proof.
  intros Hs HC'. destruct (px_assign_labels A B connectivity Hs) as (C' & HC & _ & Hpx).
  assert (C' = C) as -> by congruence.
  assert (Hval : ∀ p v, px C p = Some v → v = 0 ∨ (0 < v ∧ ∃ q, px B q = Some v)).
  { intros p v Hv. rewrite Hpx in Hv.
    destruct (px A p) as [a|] eqn:Ha; [|done]. simpl in Hv. injection Hv as <-.
    destruct (decide (a = 0)) as [|Hane]; [by left|].
    assert (Hfg : is_fg A p) by (by exists a).
    destruct (overlap_label_cases (bool_decide (connectivity = 2)) A B p Hfg)
      as [[H0 _]|(Hpos & (q & _ & Hq) & _)]; [by left|right; eauto]. }
  intros [[p Hp]%elem_of_ravel (m & [q Hq]%elem_of_ravel & Hlt)]%elem_of_marker_labels.
  destruct (Hval p n Hp) as [-> |[Hpos Hex]].
  - destruct (Hval q m Hq) as [-> |[? _]]; lia.
  - split_and!; [done|done|eauto].
Qed.

(** X22. Assignment and quantification together: every label that the
    quantification cell reads from an assigned channel is a positive label
    of the nuclei array, so the positions and sizes computed for it are
    taken over at least one pixel. *)
Theorem assigned_labels_are_nuclei (A B : matrix) (connectivity : Z) :
  shape A = shape B →
  ∃ C, assign_labels A B connectivity = Some C
    ∧ ∀ n, n ∈ marker_labels C →
           0 < n ∧ where_eq B n ≠ [] ∧ where_eq C n ≠ [].
Proof.
  intros Hs. destruct (px_assign_labels A B connectivity Hs) as (C & HC & _ & _).
  exists C. split; [done|]. intros n Hn.
  destruct (marker_labels_assigned A B C connectivity n Hs HC Hn) as (Hpos & [q Hq] & [p Hp]).
  split_and!; [done|by apply (where_eq_nonempty B n q)|by apply (where_eq_nonempty C n p)].
Qed.

Lemma assigned_labels_are_nuclei_witness :
  shape assign_demo_A = shape assign_demo_B
  ∧ ∃ C, assign_labels assign_demo_A assign_demo_B 1 = Some C
       ∧ ∀ n, n ∈ marker_labels C → 0 < n ∧ where_eq assign_demo_B n ≠ [].
Proof.
  split; [reflexivity|].
  destruct (assigned_labels_are_nuclei assign_demo_A assign_demo_B 1 eq_refl) as (C & HC & Hlab).
  exists C. split; [exact HC|]. intros n Hn. destruct (Hlab n Hn) as (? & ? & _). done.
Defined.

(** X27. A marker channel never counts more cells than there are nuclei:
    the labels read from an assigned channel lie between 1 and the largest
    label of the nuclei array, so their number is at most the number
    recorded for the nuclei. *)
Theorem marker_count_le_nuclei (A B : matrix) (connectivity : Z) (m : Z) :
  shape A = shape B → matrix_max B = Some m →
  ∃ C, assign_labels A B connectivity = Some C
    ∧ (∀ n, n ∈ marker_labels C → 1 ≤ n ≤ m)
    ∧ (0 ≤ m → marker_count C ≤ m).
Proof.
  intros Hs Hmax. destruct (px_assign_labels A B connectivity Hs) as (C & HC & _ & _).
  pose proof (matrix_max_spec B m Hmax) as [_ Hle].
  assert (Hrange : ∀ n, n ∈ marker_labels C → 1 ≤ n ≤ m).
  { intros n Hn.
    destruct (marker_labels_assigned A B C connectivity n Hs HC Hn) as (Hpos & [q Hq] & _).
    split; [lia|]. apply Hle, elem_of_ravel. eauto. }
  exists C. split_and!; [done|done|]. intros Hm.
  assert (Hlen : (length (marker_labels C) ≤ length (seqZ 1 m))%nat).
  { apply submseteq_length, NoDup_submseteq.
    - apply StronglySorted_lt_NoDup, tail_sorted, np_unique_sorted.
    - intros n Hn%Hrange. apply elem_of_seqZ. lia. }
  rewrite length_seqZ in Hlen. unfold marker_count. fold (marker_labels C). lia.
Qed.

Lemma marker_count_le_nuclei_witness :
  shape assign_demo_A = shape assign_demo_B
  ∧ ∃ C, assign_labels assign_demo_A assign_demo_B 1 = Some C ∧ marker_count C ≤ 2.
Proof.
  split; [reflexivity|].
  destruct (marker_count_le_nuclei assign_demo_A assign_demo_B 1 2 eq_refl eq_refl)
    as (C & HC & _ & Hcount).
  exists C. split; [exact HC|]. apply Hcount. lia.
Defined.
(** ** Report cell, continued *)

Lemma sorted_sublist_lookup (s l : list Z) (i : nat) (x : Z) :
  StronglySorted Z.lt s → StronglySorted Z.lt l → (∀ v, v ∈ s → v ∈ l) →
  s !! i = Some x → ∃ y, l !! i = Some y ∧ y ≤ x.
Proof.
  intros Hs. revert l i x.
  induction Hs as [|x0 s Hs IH Hall]; intros l i x Hl Hsub Hi; [done|].
  rewrite Forall_forall in Hall.
  destruct Hl as [|y0 l Hl Hally].
  { exfalso. apply (elem_of_nil x0), Hsub. by left. }
  rewrite Forall_forall in Hally.
  assert (Hy0 : y0 ≤ x0).
  { assert (Hx0 : x0 ∈ y0 :: l) by (apply Hsub; by left).
    apply elem_of_cons in Hx0 as [-> |Hx0]; [lia|]. apply Hally in Hx0. lia. }
  destruct i as [|i].
  - injection Hi as <-. exists y0. done.
  - simpl in Hi. apply (IH l i x Hl); [|done].
    intros v Hv. pose proof (Hall v Hv) as Hlt.
    assert (Hvl : v ∈ y0 :: l) by (apply Hsub; by right).
    apply elem_of_cons in Hvl as [-> |Hvl]; [lia|done].
Qed.

(** X23. For a nucleus [k] among the shared labels of a marker channel the
    report writes the marker and a cell size, and never fails; the size is
    that of the label standing in the list of labels at the position of [k]
    in the shared labels: a label that is at most [k], and [k] itself when
    the shared labels are all the labels of the channel. *)
Theorem marker_cells_size (labels_df : labels_table) (name : string) (r_X r_Y : Q)
    (cond color : string) (im_segmented assigned : matrix) (k : Z) :
  let e := marker_entry r_X r_Y cond color im_segmented assigned in
  cond ≠ "NUCLEI" → dict_get name labels_df = Some e → k ∈ marker_shared assigned →
  ∃ n, n ∈ marker_labels assigned ∧ n ≤ k
    ∧ marker_cells labels_df k (name, e)
      = Some [XStr name; XNum (q_of_nat (length (where_eq assigned n)) * r_X * r_Y)%Q]
    ∧ (marker_shared assigned = marker_labels assigned → n = k).
Proof.
  intros e Hcond Hget Hk.
  destruct (index_of_elem_of k (marker_shared assigned) Hk) as [idx Hidx].
  pose proof (index_of_Some _ _ _ Hidx) as Hlook.
  assert (Hs1 : StronglySorted Z.lt (marker_shared assigned))
    by apply tail_sorted, np_unique_sorted.
  assert (Hs2 : StronglySorted Z.lt (marker_labels assigned))
    by apply tail_sorted, np_unique_sorted.
  destruct (sorted_sublist_lookup _ _ idx k Hs1 Hs2 (marker_shared_labels assigned) Hlook)
    as (n & Hn & Hle).
  exists n. split_and!.
  - by eapply list_elem_of_lookup_2.
  - done.
  - subst e. unfold marker_cells. cbn [fst snd marker_entry Condition Shared_labels].
    rewrite bool_decide_eq_true_2 by done. rewrite bool_decide_eq_true_2 by done.
    rewrite Hidx. cbn [mbind option_bind]. rewrite Hget. cbn [mbind option_bind].
    cbn [marker_entry Cell_size]. rewrite list_lookup_fmap, Hn. done.
  - intros Heq. rewrite Heq in Hlook. congruence.
Qed.

Lemma marker_cells_size_witness :
  let assigned := [[1; 0]; [2; 0]] in
  let e := marker_entry 1 1 "M2" "GREEN" [[1; 0]; [2; 0]] assigned in
  ∃ n, n ≤ 2
    ∧ marker_cells [("CD206", e)] 2 ("CD206", e)
      = Some [XStr "CD206"; XNum (q_of_nat (length (where_eq assigned n)) * 1 * 1)%Q].
Proof.
  intros assigned e.
  destruct (marker_cells_size [("CD206", e)] "CD206" 1 1 "M2" "GREEN"
              [[1; 0]; [2; 0]] assigned 2) as (n & _ & Hle & Hcells & _).
  - done.
  - reflexivity.
  - apply (bool_decide_unpack _). by vm_compute.
  - exists n. split; [exact Hle|exact Hcells].
Defined.

Lemma quantified_lengths (e : label_entry) :
  quantified e →
  length (Mean_positions e) = Z.to_nat (Number e)
  ∧ length (Nuclei_size e) = Z.to_nat (Number e)
  ∧ (Condition e ≠ "NUCLEI" → (length (Shared_labels e) ≤ length (Cell_size e))%nat).
Proof.
  intros [r_X r_Y cond color seg e' He|r_X r_Y cond color seg assigned].
  - unfold nuclei_entry in He. destruct (matrix_max seg) as [m|]; [|done].
    injection He as <-. cbn. rewrite !length_map, length_seqZ. split_and!; [done|done|lia].
  - cbn. rewrite !length_map. unfold marker_count. fold (marker_labels assigned).
    split_and!; [lia|lia|]. intros _. apply marker_shared_length.
Qed.

Lemma marker_cells_total (labels_df : labels_table) (k : Z) (me : string * label_entry) :
  NoDup labels_df.*1 → me ∈ labels_df → quantified me.2 →
  ∃ cells, marker_cells labels_df k me = Some cells
    ∧ length cells = if bool_decide (Condition me.2 ≠ "NUCLEI") then 2%nat else 0%nat.
Proof.
  intros Hnd Hin Hq. unfold marker_cells.
  destruct (bool_decide_reflect (Condition me.2 ≠ "NUCLEI")) as [Hcond|Hcond];
    [|by eexists].
  destruct (bool_decide_reflect (k ∈ Shared_labels me.2)) as [Hk|Hk]; [|by eexists].
  destruct (index_of_elem_of k _ Hk) as [idx Hidx]. rewrite Hidx. cbn [mbind option_bind].
  assert (Hget : dict_get me.1 labels_df = Some me.2).
  { apply dict_get_elem_of; [done|]. by destruct me. }
  rewrite Hget. cbn [mbind option_bind].
  destruct (quantified_lengths me.2 Hq) as (_ & _ & Hlen).
  apply index_of_Some, lookup_lt_Some in Hidx.
  destruct (lookup_lt_is_Some_2 (Cell_size me.2) idx) as [c Hc]; [specialize (Hlen Hcond); lia|].
  rewrite Hc. by eexists.
Qed.

Lemma mapM_marker_cells (labels_df : labels_table) (k : Z) (rows : labels_table) :
  NoDup labels_df.*1 → (∀ me, me ∈ rows → me ∈ labels_df ∧ quantified me.2) →
  ∃ rest, mapM (marker_cells labels_df k) rows = Some rest
    ∧ length (concat rest)
      = length (concat (map (λ me : string * label_entry,
                    if bool_decide (Condition me.2 ≠ "NUCLEI")
                    then [(me.1 ++ " (" ++ Condition me.2 ++ ")")%string;
                          (Condition me.2 ++ " Cell size [um2]")%string]
                    else []) rows)).
Proof.
  intros Hnd. induction rows as [|me rows IH]; intros Hall.
  - by exists [].
  - destruct IH as (rest & Hrest & Hlen).
    { intros me' Hme'. apply Hall. by right. }
    destruct (Hall me) as [Hin Hq]; [by left|].
    destruct (marker_cells_total labels_df k me Hnd Hin Hq) as (cells & Hcells & Hclen).
    exists (cells :: rest). split.
    + cbn [mapM]. rewrite Hcells. cbn [mbind option_bind]. rewrite Hrest. done.
    + cbn [map concat]. rewrite !length_app, Hlen, Hclen. by destruct (bool_decide _).
Qed.

(** X24. On a table whose rows are entries of the quantification cell,
    with distinct markers, the export never fails: [xlsx_dict] has one row
    for each of the nuclei 1, ..., N - 1, where N is the number in the
    first row of the table, and every row has as many cells as [columns]
    has headers. *)
Theorem xlsx_dict_rows (labels_df : labels_table) (marker : string) (e0 : label_entry) :
  NoDup labels_df.*1 → Forall (λ me, quantified me.2) labels_df →
  labels_df !! O = Some (marker, e0) →
  ∃ rows, xlsx_dict labels_df = Some rows
    ∧ rows.*1 = seqZ 1 (Number e0 - 1)
    ∧ Forall (λ row, length row.2 = length (xlsx_columns labels_df)) rows.
Proof.
  intros Hnd Hall H0. rewrite Forall_forall in Hall.
  assert (Hq0 : quantified e0).
  { apply (Hall (marker, e0)). by eapply list_elem_of_lookup_2. }
  destruct (quantified_lengths e0 Hq0) as (Hpos & Hsize & _).
  assert (Hrow : ∀ k, k ∈ seqZ 1 (Number e0 - 1) →
            ∃ cells, nucleus_row labels_df k = Some (k, cells)
                     ∧ length cells = length (xlsx_columns labels_df)).
  { intros k Hk%elem_of_seqZ. unfold nucleus_row. rewrite H0. cbn [fmap option_fmap option_map mbind option_bind snd].
    destruct (lookup_lt_is_Some_2 (Mean_positions e0) (Z.to_nat (k - 1))) as [pos Hp]; [lia|].
    destruct (lookup_lt_is_Some_2 (Nuclei_size e0) (Z.to_nat (k - 1))) as [sz Hs]; [lia|].
    rewrite Hp, Hs. cbn [mbind option_bind].
    destruct (mapM_marker_cells labels_df k labels_df Hnd) as (rest & Hrest & Hlen).
    { intros me Hme. split; [done|by apply Hall]. }
    rewrite Hrest. cbn [mbind option_bind]. eexists. split; [reflexivity|].
    unfold xlsx_columns. rewrite !length_app, Hlen. done. }
  unfold xlsx_dict. rewrite H0. cbn [fmap option_fmap option_map mbind option_bind snd].
  revert Hrow. generalize (seqZ 1 (Number e0 - 1)). intros ks Hrow.
  induction ks as [|k ks IH].
  - exists []. split_and!; [done|done|constructor].
  - destruct IH as (rows & Hrows & Hkeys & Hwidth).
    { intros k' Hk'. apply Hrow. by right. }
    destruct (Hrow k) as (cells & Hcells & Hlen); [by left|].
    exists ((k, cells) :: rows). split_and!.
    + cbn [mapM]. rewrite Hcells. cbn [mbind option_bind]. rewrite Hrows. done.
    + rewrite fmap_cons. by rewrite Hkeys.
    + by constructor.
Qed.

Lemma xlsx_dict_rows_witness :
  ∃ rows, (demo_labels_df ≫= xlsx_dict) = Some rows
          ∧ rows.*1 = [1]
          ∧ Forall (λ row, length row.2 = 5%nat) rows.
Proof.
  unfold demo_labels_df.
  destruct (nuclei_entry 1 1 "NUCLEI" "BLUE" demo_segmented) as [e0|] eqn:Ee0;
    [|by vm_compute in Ee0].
  cbn [mbind option_bind].
  set (labels_df := [("DAPI", e0);
                     ("CD206", marker_entry 1 1 "M2" "GREEN" demo_segmented
                                 [[0; 0; 0; 2]; [0; 0; 0; 2]])]).
  destruct (xlsx_dict_rows labels_df "DAPI" e0) as (rows & Hrows & Hkeys & Hwidth).
  - apply (bool_decide_unpack _). by vm_compute.
  - repeat constructor. by eapply quantified_nuclei.
  - reflexivity.
  - exists rows. split_and!; [exact Hrows| |].
    + rewrite Hkeys. injection Ee0 as <-. by vm_compute.
    + eapply Forall_impl; [exact Hwidth|]. intros row Hrow. rewrite Hrow.
      injection Ee0 as <-. by vm_compute.
Defined.
(** ** The cells together *)

(** X25. Threshold and assignment together: after
    [remove_small_islands(arrayseg, area_threshold)], every label that
    [assign_labels] writes with the default connectivity covers at least
    [area_threshold] pixels. *)
Theorem assigned_cells_min_area (arrayseg im_segmented : matrix) (area_threshold : Z) :
  shape arrayseg = shape im_segmented →
  ∃ C, assign_labels (remove_small_islands arrayseg area_threshold) im_segmented 1 = Some C
    ∧ shape C = shape arrayseg
    ∧ ∀ n, n ∈ marker_labels C → area_threshold ≤ Z.of_nat (length (where_eq C n)).
Proof.
  intros Hs. set (A := remove_small_islands arrayseg area_threshold).
  assert (HsA : shape A = shape im_segmented)
    by (unfold A; by rewrite shape_remove_small_islands).
  destruct (px_assign_labels A im_segmented 1 HsA) as (C & HC & HsC & Hpx).
  change (bool_decide (1 = 2)) with false in Hpx.
  exists C. split_and!; [done|by rewrite HsC; apply shape_remove_small_islands|].
  intros n [[p Hp]%elem_of_ravel (m & [q Hq]%elem_of_ravel & Hlt)]%elem_of_marker_labels.
  assert (Hnonneg : ∀ p v, px C p = Some v → 0 ≤ v).
  { intros p' v Hv. rewrite Hpx in Hv.
    destruct (px A p') as [a|] eqn:Ha; [|done]. simpl in Hv. injection Hv as <-.
    destruct (decide (a = 0)) as [|Hane]; [done|].
    assert (Hfg : is_fg A p') by (by exists a).
    destruct (overlap_label_cases false A im_segmented p' Hfg) as [[-> _]|(? & _)]; lia. }
  assert (Hn0 : n ≠ 0) by (specialize (Hnonneg q m Hq); lia).
  assert (Hfg : is_fg A p).
  { rewrite Hpx in Hp. destruct (px A p) as [a|] eqn:Ha; [|done]. simpl in Hp.
    exists a. split; [done|]. intros ->. rewrite decide_True in Hp by done. congruence. }
  assert (Hsub : ∀ q', q' ∈ component false A p → q' ∈ where_eq C n).
  { intros q' Hq'%elem_of_component; [|done].
    assert (Hfq : is_fg A q') by (by apply (connected_fg false A p q')).
    unfold where_eq. apply list_elem_of_filter.
    assert (Hval : px C q' = Some n).
    { rewrite <- Hp, !Hpx. destruct Hfg as (a & Ha & Hane). destruct Hfq as (b & Hb & Hbne).
      rewrite Ha, Hb. simpl. rewrite !decide_False by done. f_equal.
      unfold overlap_label. do 5 f_equal. symmetry.
      by apply label_of_eq_iff; [exists a|exists b|]. }
    split; [done|]. apply elem_of_pixels. eauto. }
  assert (Hlen : (length (component false A p) ≤ length (where_eq C n))%nat).
  { apply submseteq_length, NoDup_submseteq; [apply NoDup_component|done]. }
  pose proof (proj1 (is_fg_remove_small_islands arrayseg area_threshold p) Hfg) as [_ Hbig].
  rewrite <- (component_remove_small_islands arrayseg area_threshold p Hfg) in Hbig.
  fold A in Hbig. lia.
Qed.

Lemma assigned_cells_min_area_witness :
  let nuclei := [[4; 4; 0; 9]; [0; 4; 0; 0]; [6; 0; 0; 0]] in
  shape islands_demo = shape nuclei
  ∧ ∃ C, assign_labels (remove_small_islands islands_demo 2) nuclei 1 = Some C
       ∧ ∀ n, n ∈ marker_labels C → 2 ≤ Z.of_nat (length (where_eq C n)).
Proof.
  intros nuclei. split; [reflexivity|].
  destruct (assigned_cells_min_area islands_demo nuclei 2 eq_refl) as (C & HC & _ & Harea).
  exists C. split; [exact HC|exact Harea].
Defined.

Section pipeline.
Context (set_iter labels_iter : list Z → list Z).
Hypothesis set_iter_perm : ∀ l, set_iter l ≡ₚ l.
Hypothesis labels_iter_perm : ∀ l, labels_iter l ≡ₚ l.

(** X26. Segmentation and quantification together: on the array that
    [merge_touching_labels] returns, the nuclei entry exists, its number is
    the number of labels of the array, it has one position and one size for
    each of them, and each of the nuclei 1, ..., N has at least one pixel. *)
Theorem nuclei_entry_of_merge (L : matrix) (r_X r_Y : Q) (cond color : string) :
  label_matrix_ok L →
  ∃ M e,
    merge_touching_labels set_iter labels_iter L = Some M
    ∧ nuclei_entry r_X r_Y cond color M = Some e
    ∧ 0 ≤ Number e
    ∧ length (Mean_positions e) = Z.to_nat (Number e)
    ∧ length (Nuclei_size e) = Z.to_nat (Number e)
    ∧ (∀ n, 1 ≤ n ≤ Number e ↔ n ≠ 0 ∧ ∃ p, px M p = Some n)
    ∧ (∀ n, 1 ≤ n ≤ Number e → where_eq M n ≠ []).
Proof using set_iter_perm labels_iter_perm.
  intros Hok.
  destruct (merge_spec set_iter labels_iter set_iter_perm labels_iter_perm L Hok)
    as (F & N & HM & HF0 & HFr & HFs & _ & _).
  destruct Hok as (Hrect & Hne & Hrange).
  set (M := map (map F) L).
  assert (HneM : ravel M ≠ []).
  { unfold M. rewrite ravel_map. intros Hnil. by apply fmap_nil_inv in Hnil. }
  assert (Hvals : ∀ v, v ∈ ravel M → 0 ≤ v ≤ Z.of_nat N).
  { intros v. unfold M. rewrite ravel_map. intros (a & -> & Ha)%list_elem_of_fmap.
    destruct (decide (a = 0)) as [-> |Ha0]; [rewrite HF0; lia|].
    assert (Hal : a ∈ nonzero_labels L).
    { apply elem_of_nonzero_labels. split; [done|]. by apply elem_of_ravel. }
    specialize (HFr a Hal). lia. }
  assert (Hhit : ∀ k, 1 ≤ k ≤ Z.of_nat N → ∃ p, px M p = Some k).
  { intros k Hk. destruct (HFs k Hk) as (a & [_ [p Hp]]%elem_of_nonzero_labels & <-).
    exists p. unfold M. by rewrite px_map, Hp. }
  destruct (matrix_max_is_Some M HneM) as [m Hmax].
  pose proof (matrix_max_spec M m Hmax) as [Hm Hle].
  assert (HmN : m = Z.of_nat N).
  { pose proof (Hvals m Hm) as Hm'.
    destruct (decide (N = O)) as [-> |HN]; [simpl in Hm'; lia|].
    destruct (Hhit (Z.of_nat N)) as [p Hp]; [lia|].
    assert (Z.of_nat N ≤ m); [|lia]. apply Hle, elem_of_ravel. eauto. }
  subst m. exists M. eexists. split; [exact HM|].
  unfold nuclei_entry. rewrite Hmax. cbn [mbind option_bind]. split; [reflexivity|].
  cbn [Number Mean_positions Nuclei_size]. rewrite !length_map, length_seqZ.
  split_and!; [lia|done|done| |].
  - intros n. split.
    + intros Hn. split; [lia|]. by apply Hhit.
    + intros [Hn0 [p Hp]]. assert (0 ≤ n ≤ Z.of_nat N); [|lia].
      apply Hvals, elem_of_ravel. eauto.
  - intros n Hn. destruct (Hhit n Hn) as [p Hp]. by apply (where_eq_nonempty M n p).
Qed.
End pipeline.

Lemma nuclei_entry_of_merge_witness :
  label_matrix_ok merge_demo
  ∧ ∃ M e,
      merge_touching_labels (λ l, l) (λ l, l) merge_demo = Some M
      ∧ nuclei_entry 1 1 "NUCLEI" "BLUE" M = Some e
      ∧ length (Mean_positions e) = Z.to_nat (Number e).
Proof.
  assert (Hok : label_matrix_ok merge_demo) by by_computation.
  split; [exact Hok|].
  destruct (nuclei_entry_of_merge (λ l, l) (λ l, l) (λ l, reflexivity l) (λ l, reflexivity l)
              merge_demo 1 1 "NUCLEI" "BLUE" Hok) as (M & e & HM & He & _ & Hlen & _).
  by exists M, e.
Defined.
(** ** The areas of the nuclei *)






(** ** The positions of the nuclei *)





